(** * GameScene: roster reconciliation, hit de-duplication, projectile
    lifetime, obstacle bootstrap and colour allocation

    A shallow embedding of [src/game/scenes/GameScene.ts].  The scene object
    becomes a record that is threaded through every method; the keyed
    collections of the class ([Map], [Set]) become finite maps and finite
    sets; engine services the scene only consumes (overlap tests, the wall
    clock, the random respawn point, the per-frame entity update) are
    inputs of the step in which they are consulted.  Numbers are integers:
    every number the modelled code computes with (health, timestamps, colour
    indices, hashes) is integral in the source, and coordinates are only
    passed through.

    Two conventions.  A [Map] is walked in insertion order in the source and
    in key order here: the loops of the scene treat their entries
    independently, so only the order in which one loop logs its remote
    calls and registers its colliders differs, and no statement below
    depends on it.  Reading a field of [this.player] or [this.server]
    while it is unset raises in the source; the scene guards those reads
    ([if (this.player)], [serverInitialized]), and where a method is reached
    with the field unset the model stops that method where the source
    raises. *)

From stdpp Require Import gmap strings list fin_maps fin_sets pretty.
From Stdlib Require Import ZArith Lia.

Local Open Scope Z_scope.

#[local] Set Warnings "-clear-no-such-hyp".

(** ** JavaScript primitives used by the scene *)

Module JS.

(** [ToInt32]: the wrap-around every bitwise operator applies to its
    operands and result. *)
Definition toInt32 (z : Z) : Z := (z + 2 ^ 31) mod 2 ^ 32 - 2 ^ 31.

(** [a << 5] on numbers. *)
Definition shl5 (a : Z) : Z := toInt32 (toInt32 a * 32).

(** [a & a]. *)
Definition andSelf (a : Z) : Z := Z.land (toInt32 a) (toInt32 a).

(** [a % b]: the remainder takes the sign of the dividend. *)
Definition rem (a b : Z) : Z := Z.rem a b.

(** [String.prototype.charCodeAt] over the whole string (ids are ASCII). *)
Fixpoint charCodes (s : string) : list Z :=
  match s with
  | EmptyString => []
  | String c r => Z.of_N (Ascii.N_of_ascii c) :: charCodes r
  end.

(** [v || d] for an optional number: [undefined] and [0] are falsy. *)
Definition numOr (v : option Z) (d : Z) : Z :=
  match v with
  | Some n => if decide (n = 0) then d else n
  | None => d
  end.

(** [v || d] for an optional string: [undefined] and the empty string are
    falsy. *)
Definition strOr (v : option string) (d : string) : string :=
  match v with
  | Some EmptyString | None => d
  | Some n => n
  end.

(** Truthiness of an optional string. *)
Definition strTruthy (v : option string) : bool :=
  match v with
  | Some (String _ _) => true
  | _ => false
  end.

End JS.

(** ** The simple string hash ([hashCode], lines 606-614) *)

Definition hashStep (hash char : Z) : Z :=
  JS.andSelf (JS.shl5 hash - hash + char).

Definition hashCode (str : string) : Z :=
  foldl hashStep 0 (JS.charCodes str).

(** The index the allocation fallback computes (line 602). *)
Definition fallbackColorIndex (playerId : string) : Z :=
  Z.abs (JS.rem (hashCode playerId) 8) + 1.

(** The index the departure path frees (line 672). *)
Definition releasedColorIndex (id : string) : Z :=
  JS.rem (hashCode id) 8 + 1.

(** The scan of [getUniqueColorIndex] (lines 594-599): the first candidate
    not in use. *)
Fixpoint firstUnused (candidates : list Z) (used : gset Z) : option Z :=
  match candidates with
  | [] => None
  | i :: rest => if decide (i ∈ used) then firstUnused rest used else Some i
  end.

(** [for (let i = 1; i < 9; i++)]. *)
Definition colorCandidates : list Z := seqZ 1 8.

(** ** The participant entity

    [Player] ([../entities/Player]) is consumed by the scene through the
    operations below; the scene never looks inside it.  The development is
    parametric in an implementation of that interface. *)

Class PlayerOps (P : Type) := {
  (** [new Player(scene, x, y, texture, name, id, colorIndex?)] *)
  newPlayer : Z → Z → string → string → option Z → P;
  (** [player.health] *)
  pl_health : P → Z;
  (** [player.sprite.x], [.y], [.angle], [.flipX] *)
  pl_x : P → Z;
  pl_y : P → Z;
  pl_angle : P → Z;
  pl_flipX : P → bool;
  (** [player.damage(n)] *)
  pl_damage : Z → P → P;
  (** [player.setHealth(h)] *)
  pl_setHealth : Z → P → P;
  (** [player.moveTo(x, y)] *)
  pl_moveTo : Z → Z → P → P;
  (** [player.sprite.setPosition(x, y)] *)
  pl_setPosition : Z → Z → P → P;
  (** [player.reset()] *)
  pl_reset : P → P;
  (** [player.playAttackAnimation()] *)
  pl_playAttackAnimation : P → P;
}.

(** ** Messages and inbound data *)

(** Remote calls issued through [server.remoteFunction]. *)
Inductive OutMsg :=
  | UpdatePlayerPosition (x y angle health : Z) (name : string)
  | PlayerAttack (id : string) (x y direction : Z) (ownerId ownerName : string)
  | PlayerHit (targetId attackerId projectileId : string) (damage : Z)
  | PlayerDied (playerId killerId : string).

(** One entry of a roster snapshot; [x], [y], [name] and [health] may be
    [undefined]. *)
Record PlayerState := {
  ps_account : string;
  ps_x : option Z;
  ps_y : option Z;
  ps_name : option string;
  ps_health : option Z;
}.

(** One entry of a server obstacle list.  A [null] entry and an entry
    without coordinates take the same branch of the code and are both
    an entry with no coordinates here. *)
Record ObstacleDatum := { ob_x : option Z; ob_y : option Z }.

(** One entry of a server powerup list, and the powerup built from it. *)
Record PowerupDatum := {
  pd_id : option string;
  pd_type : option string;
  pd_x : Z;
  pd_y : Z;
}.

(** The payload of a [projectileFired] message. *)
Record ProjectileData := {
  pj_x : Z; pj_y : Z; pj_targetX : Z; pj_targetY : Z;
  pj_id : string; pj_ownerId : string;
}.

(** What the scene stores on a projectile sprite with [setData]. *)
Record Projectile := {
  proj_id : string;
  proj_ownerId : string;
  proj_creationTime : Z;
}.

Record RoomState := {
  rs_obstacles : option (list ObstacleDatum);
  rs_powerups : option (list PowerupDatum);
}.

(** The session handle: only [server.account] is read. *)
Record Server := { sv_account : option string }.

Record GameData := {
  gd_playerName : string;
  gd_roomId : string;
  gd_server : option Server;
}.

(** The melee hitbox rectangle: an 80 by 60 box in front of the attacker. *)
Record Hitbox := { hb_direction : Z; hb_width : Z; hb_height : Z }.

(** A body registered with [physics.add.collider(_, this.obstacles)]. *)
Inductive Collider :=
  | LocalBody
  | RemoteBody (id : string)
  | ProjectileBody (id : string).

(** ** The scene *)

Section Scene.

Context {P : Type} {ops : PlayerOps P}.

(** The fields of [GameScene] (lines 8-38), plus the log of remote calls and
    the list of registered colliders, which live in the server handle and
    the physics world. *)
Record Scene := {
  player : option P;
  otherPlayers : gmap string P;
  projectiles : gmap string Projectile;
  powerups : option (list PowerupDatum);
  attackHitbox : option Hitbox;
  hitPlayers : gset string;
  obstacles : list (Z * Z);
  colliders : list Collider;
  playerName : string;
  roomId : string;
  server : option Server;
  lastPositionUpdate : Z;
  myAccount : string;
  serverInitialized : bool;
  assetsLoaded : bool;
  obstaclesCreated : bool;
  usedColorIndices : gset Z;
  spaceKey : bool;
  attackCooldown : bool;
  damagedPlayers : gmap string Z;
  outbox : list OutMsg;
}.

Definition positionUpdateInterval : Z := 50.

(** The scene as constructed (field initialisers, lines 8-38). *)
Definition initialScene : Scene := {|
  player := None; otherPlayers := ∅; projectiles := ∅; powerups := None;
  attackHitbox := None; hitPlayers := ∅; obstacles := []; colliders := [];
  playerName := ""; roomId := ""; server := None; lastPositionUpdate := 0;
  myAccount := ""; serverInitialized := false; assetsLoaded := false;
  obstaclesCreated := false; usedColorIndices := ∅; spaceKey := false;
  attackCooldown := false; damagedPlayers := ∅; outbox := [] |}.

(** Field assignments: [this.f = v] leaves every other field as it is. *)
Definition set_player (v : option P) (s : Scene) : Scene :=
  {| player := v; otherPlayers := otherPlayers s;
     projectiles := projectiles s; powerups := powerups s;
     attackHitbox := attackHitbox s; hitPlayers := hitPlayers s;
     obstacles := obstacles s; colliders := colliders s;
     playerName := playerName s; roomId := roomId s; server := server s;
     lastPositionUpdate := lastPositionUpdate s; myAccount := myAccount s;
     serverInitialized := serverInitialized s;
     assetsLoaded := assetsLoaded s; obstaclesCreated := obstaclesCreated s;
     usedColorIndices := usedColorIndices s; spaceKey := spaceKey s;
     attackCooldown := attackCooldown s; damagedPlayers := damagedPlayers s;
     outbox := outbox s |}.
Definition set_otherPlayers (v : gmap string P) (s : Scene) : Scene :=
  {| player := player s; otherPlayers := v; projectiles := projectiles s;
     powerups := powerups s; attackHitbox := attackHitbox s;
     hitPlayers := hitPlayers s; obstacles := obstacles s;
     colliders := colliders s; playerName := playerName s;
     roomId := roomId s; server := server s;
     lastPositionUpdate := lastPositionUpdate s; myAccount := myAccount s;
     serverInitialized := serverInitialized s;
     assetsLoaded := assetsLoaded s; obstaclesCreated := obstaclesCreated s;
     usedColorIndices := usedColorIndices s; spaceKey := spaceKey s;
     attackCooldown := attackCooldown s; damagedPlayers := damagedPlayers s;
     outbox := outbox s |}.
Definition set_projectiles (v : gmap string Projectile) (s : Scene) : Scene :=
  {| player := player s; otherPlayers := otherPlayers s; projectiles := v;
     powerups := powerups s; attackHitbox := attackHitbox s;
     hitPlayers := hitPlayers s; obstacles := obstacles s;
     colliders := colliders s; playerName := playerName s;
     roomId := roomId s; server := server s;
     lastPositionUpdate := lastPositionUpdate s; myAccount := myAccount s;
     serverInitialized := serverInitialized s;
     assetsLoaded := assetsLoaded s; obstaclesCreated := obstaclesCreated s;
     usedColorIndices := usedColorIndices s; spaceKey := spaceKey s;
     attackCooldown := attackCooldown s; damagedPlayers := damagedPlayers s;
     outbox := outbox s |}.
Definition set_powerups (v : option (list PowerupDatum)) (s : Scene) : Scene :=
  {| player := player s; otherPlayers := otherPlayers s;
     projectiles := projectiles s; powerups := v;
     attackHitbox := attackHitbox s; hitPlayers := hitPlayers s;
     obstacles := obstacles s; colliders := colliders s;
     playerName := playerName s; roomId := roomId s; server := server s;
     lastPositionUpdate := lastPositionUpdate s; myAccount := myAccount s;
     serverInitialized := serverInitialized s;
     assetsLoaded := assetsLoaded s; obstaclesCreated := obstaclesCreated s;
     usedColorIndices := usedColorIndices s; spaceKey := spaceKey s;
     attackCooldown := attackCooldown s; damagedPlayers := damagedPlayers s;
     outbox := outbox s |}.
Definition set_attackHitbox (v : option Hitbox) (s : Scene) : Scene :=
  {| player := player s; otherPlayers := otherPlayers s;
     projectiles := projectiles s; powerups := powerups s; attackHitbox := v;
     hitPlayers := hitPlayers s; obstacles := obstacles s;
     colliders := colliders s; playerName := playerName s;
     roomId := roomId s; server := server s;
     lastPositionUpdate := lastPositionUpdate s; myAccount := myAccount s;
     serverInitialized := serverInitialized s;
     assetsLoaded := assetsLoaded s; obstaclesCreated := obstaclesCreated s;
     usedColorIndices := usedColorIndices s; spaceKey := spaceKey s;
     attackCooldown := attackCooldown s; damagedPlayers := damagedPlayers s;
     outbox := outbox s |}.
Definition set_hitPlayers (v : gset string) (s : Scene) : Scene :=
  {| player := player s; otherPlayers := otherPlayers s;
     projectiles := projectiles s; powerups := powerups s;
     attackHitbox := attackHitbox s; hitPlayers := v;
     obstacles := obstacles s; colliders := colliders s;
     playerName := playerName s; roomId := roomId s; server := server s;
     lastPositionUpdate := lastPositionUpdate s; myAccount := myAccount s;
     serverInitialized := serverInitialized s;
     assetsLoaded := assetsLoaded s; obstaclesCreated := obstaclesCreated s;
     usedColorIndices := usedColorIndices s; spaceKey := spaceKey s;
     attackCooldown := attackCooldown s; damagedPlayers := damagedPlayers s;
     outbox := outbox s |}.
Definition set_obstacles (v : list (Z * Z)) (s : Scene) : Scene :=
  {| player := player s; otherPlayers := otherPlayers s;
     projectiles := projectiles s; powerups := powerups s;
     attackHitbox := attackHitbox s; hitPlayers := hitPlayers s;
     obstacles := v; colliders := colliders s; playerName := playerName s;
     roomId := roomId s; server := server s;
     lastPositionUpdate := lastPositionUpdate s; myAccount := myAccount s;
     serverInitialized := serverInitialized s;
     assetsLoaded := assetsLoaded s; obstaclesCreated := obstaclesCreated s;
     usedColorIndices := usedColorIndices s; spaceKey := spaceKey s;
     attackCooldown := attackCooldown s; damagedPlayers := damagedPlayers s;
     outbox := outbox s |}.
Definition set_colliders (v : list Collider) (s : Scene) : Scene :=
  {| player := player s; otherPlayers := otherPlayers s;
     projectiles := projectiles s; powerups := powerups s;
     attackHitbox := attackHitbox s; hitPlayers := hitPlayers s;
     obstacles := obstacles s; colliders := v; playerName := playerName s;
     roomId := roomId s; server := server s;
     lastPositionUpdate := lastPositionUpdate s; myAccount := myAccount s;
     serverInitialized := serverInitialized s;
     assetsLoaded := assetsLoaded s; obstaclesCreated := obstaclesCreated s;
     usedColorIndices := usedColorIndices s; spaceKey := spaceKey s;
     attackCooldown := attackCooldown s; damagedPlayers := damagedPlayers s;
     outbox := outbox s |}.
Definition set_playerName (v : string) (s : Scene) : Scene :=
  {| player := player s; otherPlayers := otherPlayers s;
     projectiles := projectiles s; powerups := powerups s;
     attackHitbox := attackHitbox s; hitPlayers := hitPlayers s;
     obstacles := obstacles s; colliders := colliders s; playerName := v;
     roomId := roomId s; server := server s;
     lastPositionUpdate := lastPositionUpdate s; myAccount := myAccount s;
     serverInitialized := serverInitialized s;
     assetsLoaded := assetsLoaded s; obstaclesCreated := obstaclesCreated s;
     usedColorIndices := usedColorIndices s; spaceKey := spaceKey s;
     attackCooldown := attackCooldown s; damagedPlayers := damagedPlayers s;
     outbox := outbox s |}.
Definition set_roomId (v : string) (s : Scene) : Scene :=
  {| player := player s; otherPlayers := otherPlayers s;
     projectiles := projectiles s; powerups := powerups s;
     attackHitbox := attackHitbox s; hitPlayers := hitPlayers s;
     obstacles := obstacles s; colliders := colliders s;
     playerName := playerName s; roomId := v; server := server s;
     lastPositionUpdate := lastPositionUpdate s; myAccount := myAccount s;
     serverInitialized := serverInitialized s;
     assetsLoaded := assetsLoaded s; obstaclesCreated := obstaclesCreated s;
     usedColorIndices := usedColorIndices s; spaceKey := spaceKey s;
     attackCooldown := attackCooldown s; damagedPlayers := damagedPlayers s;
     outbox := outbox s |}.
Definition set_server (v : option Server) (s : Scene) : Scene :=
  {| player := player s; otherPlayers := otherPlayers s;
     projectiles := projectiles s; powerups := powerups s;
     attackHitbox := attackHitbox s; hitPlayers := hitPlayers s;
     obstacles := obstacles s; colliders := colliders s;
     playerName := playerName s; roomId := roomId s; server := v;
     lastPositionUpdate := lastPositionUpdate s; myAccount := myAccount s;
     serverInitialized := serverInitialized s;
     assetsLoaded := assetsLoaded s; obstaclesCreated := obstaclesCreated s;
     usedColorIndices := usedColorIndices s; spaceKey := spaceKey s;
     attackCooldown := attackCooldown s; damagedPlayers := damagedPlayers s;
     outbox := outbox s |}.
Definition set_lastPositionUpdate (v : Z) (s : Scene) : Scene :=
  {| player := player s; otherPlayers := otherPlayers s;
     projectiles := projectiles s; powerups := powerups s;
     attackHitbox := attackHitbox s; hitPlayers := hitPlayers s;
     obstacles := obstacles s; colliders := colliders s;
     playerName := playerName s; roomId := roomId s; server := server s;
     lastPositionUpdate := v; myAccount := myAccount s;
     serverInitialized := serverInitialized s;
     assetsLoaded := assetsLoaded s; obstaclesCreated := obstaclesCreated s;
     usedColorIndices := usedColorIndices s; spaceKey := spaceKey s;
     attackCooldown := attackCooldown s; damagedPlayers := damagedPlayers s;
     outbox := outbox s |}.
Definition set_myAccount (v : string) (s : Scene) : Scene :=
  {| player := player s; otherPlayers := otherPlayers s;
     projectiles := projectiles s; powerups := powerups s;
     attackHitbox := attackHitbox s; hitPlayers := hitPlayers s;
     obstacles := obstacles s; colliders := colliders s;
     playerName := playerName s; roomId := roomId s; server := server s;
     lastPositionUpdate := lastPositionUpdate s; myAccount := v;
     serverInitialized := serverInitialized s;
     assetsLoaded := assetsLoaded s; obstaclesCreated := obstaclesCreated s;
     usedColorIndices := usedColorIndices s; spaceKey := spaceKey s;
     attackCooldown := attackCooldown s; damagedPlayers := damagedPlayers s;
     outbox := outbox s |}.
Definition set_serverInitialized (v : bool) (s : Scene) : Scene :=
  {| player := player s; otherPlayers := otherPlayers s;
     projectiles := projectiles s; powerups := powerups s;
     attackHitbox := attackHitbox s; hitPlayers := hitPlayers s;
     obstacles := obstacles s; colliders := colliders s;
     playerName := playerName s; roomId := roomId s; server := server s;
     lastPositionUpdate := lastPositionUpdate s; myAccount := myAccount s;
     serverInitialized := v; assetsLoaded := assetsLoaded s;
     obstaclesCreated := obstaclesCreated s;
     usedColorIndices := usedColorIndices s; spaceKey := spaceKey s;
     attackCooldown := attackCooldown s; damagedPlayers := damagedPlayers s;
     outbox := outbox s |}.
Definition set_assetsLoaded (v : bool) (s : Scene) : Scene :=
  {| player := player s; otherPlayers := otherPlayers s;
     projectiles := projectiles s; powerups := powerups s;
     attackHitbox := attackHitbox s; hitPlayers := hitPlayers s;
     obstacles := obstacles s; colliders := colliders s;
     playerName := playerName s; roomId := roomId s; server := server s;
     lastPositionUpdate := lastPositionUpdate s; myAccount := myAccount s;
     serverInitialized := serverInitialized s; assetsLoaded := v;
     obstaclesCreated := obstaclesCreated s;
     usedColorIndices := usedColorIndices s; spaceKey := spaceKey s;
     attackCooldown := attackCooldown s; damagedPlayers := damagedPlayers s;
     outbox := outbox s |}.
Definition set_obstaclesCreated (v : bool) (s : Scene) : Scene :=
  {| player := player s; otherPlayers := otherPlayers s;
     projectiles := projectiles s; powerups := powerups s;
     attackHitbox := attackHitbox s; hitPlayers := hitPlayers s;
     obstacles := obstacles s; colliders := colliders s;
     playerName := playerName s; roomId := roomId s; server := server s;
     lastPositionUpdate := lastPositionUpdate s; myAccount := myAccount s;
     serverInitialized := serverInitialized s;
     assetsLoaded := assetsLoaded s; obstaclesCreated := v;
     usedColorIndices := usedColorIndices s; spaceKey := spaceKey s;
     attackCooldown := attackCooldown s; damagedPlayers := damagedPlayers s;
     outbox := outbox s |}.
Definition set_usedColorIndices (v : gset Z) (s : Scene) : Scene :=
  {| player := player s; otherPlayers := otherPlayers s;
     projectiles := projectiles s; powerups := powerups s;
     attackHitbox := attackHitbox s; hitPlayers := hitPlayers s;
     obstacles := obstacles s; colliders := colliders s;
     playerName := playerName s; roomId := roomId s; server := server s;
     lastPositionUpdate := lastPositionUpdate s; myAccount := myAccount s;
     serverInitialized := serverInitialized s;
     assetsLoaded := assetsLoaded s; obstaclesCreated := obstaclesCreated s;
     usedColorIndices := v; spaceKey := spaceKey s;
     attackCooldown := attackCooldown s; damagedPlayers := damagedPlayers s;
     outbox := outbox s |}.
Definition set_spaceKey (v : bool) (s : Scene) : Scene :=
  {| player := player s; otherPlayers := otherPlayers s;
     projectiles := projectiles s; powerups := powerups s;
     attackHitbox := attackHitbox s; hitPlayers := hitPlayers s;
     obstacles := obstacles s; colliders := colliders s;
     playerName := playerName s; roomId := roomId s; server := server s;
     lastPositionUpdate := lastPositionUpdate s; myAccount := myAccount s;
     serverInitialized := serverInitialized s;
     assetsLoaded := assetsLoaded s; obstaclesCreated := obstaclesCreated s;
     usedColorIndices := usedColorIndices s; spaceKey := v;
     attackCooldown := attackCooldown s; damagedPlayers := damagedPlayers s;
     outbox := outbox s |}.
Definition set_attackCooldown (v : bool) (s : Scene) : Scene :=
  {| player := player s; otherPlayers := otherPlayers s;
     projectiles := projectiles s; powerups := powerups s;
     attackHitbox := attackHitbox s; hitPlayers := hitPlayers s;
     obstacles := obstacles s; colliders := colliders s;
     playerName := playerName s; roomId := roomId s; server := server s;
     lastPositionUpdate := lastPositionUpdate s; myAccount := myAccount s;
     serverInitialized := serverInitialized s;
     assetsLoaded := assetsLoaded s; obstaclesCreated := obstaclesCreated s;
     usedColorIndices := usedColorIndices s; spaceKey := spaceKey s;
     attackCooldown := v; damagedPlayers := damagedPlayers s;
     outbox := outbox s |}.
Definition set_damagedPlayers (v : gmap string Z) (s : Scene) : Scene :=
  {| player := player s; otherPlayers := otherPlayers s;
     projectiles := projectiles s; powerups := powerups s;
     attackHitbox := attackHitbox s; hitPlayers := hitPlayers s;
     obstacles := obstacles s; colliders := colliders s;
     playerName := playerName s; roomId := roomId s; server := server s;
     lastPositionUpdate := lastPositionUpdate s; myAccount := myAccount s;
     serverInitialized := serverInitialized s;
     assetsLoaded := assetsLoaded s; obstaclesCreated := obstaclesCreated s;
     usedColorIndices := usedColorIndices s; spaceKey := spaceKey s;
     attackCooldown := attackCooldown s; damagedPlayers := v;
     outbox := outbox s |}.
Definition set_outbox (v : list OutMsg) (s : Scene) : Scene :=
  {| player := player s; otherPlayers := otherPlayers s;
     projectiles := projectiles s; powerups := powerups s;
     attackHitbox := attackHitbox s; hitPlayers := hitPlayers s;
     obstacles := obstacles s; colliders := colliders s;
     playerName := playerName s; roomId := roomId s; server := server s;
     lastPositionUpdate := lastPositionUpdate s; myAccount := myAccount s;
     serverInitialized := serverInitialized s;
     assetsLoaded := assetsLoaded s; obstaclesCreated := obstaclesCreated s;
     usedColorIndices := usedColorIndices s; spaceKey := spaceKey s;
     attackCooldown := attackCooldown s; damagedPlayers := damagedPlayers s;
     outbox := v |}.

(** [this.server.remoteFunction(...)]: the call is appended to the log.
    With no server handle the source raises on [this.server] and nothing is
    sent; the model sends nothing either. *)
Definition remoteFunction (m : OutMsg) (s : Scene) : Scene :=
  match server s with
  | Some _ => set_outbox (outbox s ++ [m]) s
  | None => s
  end.

(** *** Outbound position push ([updatePlayerOnServer], lines 560-576) *)

Definition updatePlayerOnServer (s : Scene) : Scene :=
  match player s, server s with
  | Some p, Some _ =>
      if serverInitialized s
      then remoteFunction
             (UpdatePlayerPosition (pl_x p) (pl_y p) (pl_angle p)
                (pl_health p) (playerName s)) s
      else s
  | _, _ => s
  end.

(** *** Session data ([setGameData], lines 44-61)

    [setupServerSubscriptions] registers handlers on the server handle and
    touches no field of the scene; the handlers themselves are
    [handleProjectileFired], [handlePowerupSpawned] and [onRoomState]
    below. *)

Definition setGameData (data : GameData) (sceneActive : bool) (s : Scene)
  : Scene :=
  let s1 :=
    set_server (gd_server data)
      (set_roomId (gd_roomId data)
         (set_playerName (gd_playerName data) s)) in
  let account :=
    match server s1 with Some sv => sv_account sv | None => None end in
  if JS.strTruthy account then
    let s2 := set_serverInitialized true
                (set_myAccount (default "" account) s1) in
    if sceneActive then updatePlayerOnServer s2 else s2
  else s1.

(** *** Scene start ([create], lines 75-127)

    [rx], [ry] are the two draws of [Phaser.Math.Between(100, 1900)]. *)

Definition create (rx ry : Z) (s : Scene) : Scene :=
  let s1 := set_obstacles [] s in
  let s2 :=
    set_player
      (Some (newPlayer rx ry (playerName s1) (myAccount s1) None)) s1 in
  let s3 := set_powerups (Some []) s2 in
  let s4 := set_spaceKey true s3 in
  let s5 := if serverInitialized s4 then updatePlayerOnServer s4 else s4 in
  set_assetsLoaded true s5.

(** *** World bootstrap ([createObstaclesFromServer], lines 251-296) *)

(** [for (let i = 0; i < 2000; i += 50)]: four blocks per step. *)
Definition borderObstacles : list (Z * Z) :=
  flat_map (λ i, [(i, 0); (i, 2000); (0, i); (2000, i)])
           ((λ k, 50 * k) <$> seqZ 0 40).

Definition createBorderObstacles (s : Scene) : Scene :=
  set_obstacles (obstacles s ++ borderObstacles) s.

(** The blocks created from the server list: entries with both
    coordinates. *)
Definition serverObstacles (obstacleData : list ObstacleDatum)
  : list (Z * Z) :=
  omap (λ d, match ob_x d, ob_y d with
             | Some x, Some y => Some (x, y)
             | _, _ => None
             end) obstacleData.

(** The body of the [try] runs up to [this.player.sprite]; with no local
    player that access raises, the [catch] logs, and the flag stays
    false. *)
Definition createObstaclesFromServer (obstacleData : list ObstacleDatum)
  (s : Scene) : Scene :=
  if negb (assetsLoaded s) || obstaclesCreated s then s
  else
    let s1 := createBorderObstacles (set_obstacles [] s) in
    let s2 := set_obstacles (obstacles s1 ++ serverObstacles obstacleData) s1 in
    match player s2 with
    | None => s2
    | Some _ =>
        let s3 := set_colliders (colliders s2 ++ [LocalBody]) s2 in
        let s4 :=
          set_colliders
            (colliders s3 ++
             (RemoteBody <$> (map_to_list (otherPlayers s3)).*1)) s3 in
        set_obstaclesCreated true s4
    end.

(** The room-state subscription callback (lines 176-180). *)
Definition onRoomState (state : option RoomState) (s : Scene) : Scene :=
  match state with
  | Some st =>
      match rs_obstacles st with
      | Some obs =>
          if negb (obstaclesCreated s)
          then createObstaclesFromServer obs s else s
      | None => s
      end
  | None => s
  end.

(** *** Powerups ([handlePowerupSpawned], [syncPowerups]) *)

Definition handlePowerupSpawned (data : PowerupDatum) (sceneActive : bool)
  (s : Scene) : Scene :=
  if negb sceneActive || negb (assetsLoaded s) then s
  else match powerups s with
       | Some g => set_powerups (Some (g ++ [data])) s
       | None => s
       end.

Definition syncPowerups (powerupData : list PowerupDatum) (s : Scene)
  : Scene :=
  match powerups s with
  | Some _ =>
      if negb (assetsLoaded s) then s
      else set_powerups
             (Some (filter (λ d, JS.strTruthy (pd_id d) = true
                                 ∧ JS.strTruthy (pd_type d) = true)
                           powerupData)) s
  | None => s
  end.

(** [updateRoomState] (lines 578-589). *)
Definition updateRoomState (roomState : RoomState) (s : Scene) : Scene :=
  let s1 := match rs_powerups roomState with
            | Some l => syncPowerups l s
            | None => s
            end in
  match rs_obstacles roomState with
  | Some obs =>
      if negb (obstaclesCreated s1)
      then createObstaclesFromServer obs s1 else s1
  | None => s1
  end.

(** *** Colour allocation ([getUniqueColorIndex], lines 592-603) *)

Definition getUniqueColorIndex (playerId : string) (s : Scene) : Z * Scene :=
  match firstUnused colorCandidates (usedColorIndices s) with
  | Some i => (i, set_usedColorIndices ({[i]} ∪ usedColorIndices s) s)
  | None => (fallbackColorIndex playerId, s)
  end.

(** *** Death and damage ([handlePlayerDeath], [handlePlayerHit])

    [rnd] is the pair drawn by [Phaser.Math.Between(100, 1900)] for the
    respawn point.  Both methods are private and are only called under
    [if (this.player)]; with no local player the source raises on
    [this.player] before changing anything, and the model changes
    nothing. *)

Definition handlePlayerDeath (playerId killerId : string) (rnd : Z * Z)
  (s : Scene) : Scene :=
  if decide (playerId = myAccount s) then
    match player s with
    | Some p =>
        let s1 :=
          set_player (Some (pl_reset (pl_setPosition rnd.1 rnd.2 p))) s in
        if serverInitialized s1
        then remoteFunction (PlayerDied playerId killerId) s1
        else s1
    | None => s
    end
  else s.

(** The tail of [handlePlayerHit] (lines 526-536): the [playerHit] call. *)
Definition notifyPlayerHit (targetId attackerId projectileId : string)
  (s : Scene) : Scene :=
  if serverInitialized s
  then remoteFunction (PlayerHit targetId attackerId projectileId 10) s
  else s.

Definition handlePlayerHit (targetId attackerId projectileId : string)
  (rnd : Z * Z) (s : Scene) : Scene :=
  if decide (targetId = myAccount s) then
    match player s with
    | Some p =>
        let s1 := set_player (Some (pl_damage 10 p)) s in
        let s2 := if decide (pl_health (pl_damage 10 p) ≤ 0)
                  then handlePlayerDeath targetId attackerId rnd s1
                  else s1 in
        notifyPlayerHit targetId attackerId projectileId s2
    | None => s
    end
  else
    match otherPlayers s !! targetId with
    | Some targetPlayer =>
        let damaged := pl_damage 10 targetPlayer in
        let s1 := set_otherPlayers (<[targetId := damaged]> (otherPlayers s)) s in
        let s2 :=
          set_damagedPlayers
            (<[targetId := pl_health damaged]> (damagedPlayers s1)) s1 in
        notifyPlayerHit targetId attackerId projectileId s2
    | None => notifyPlayerHit targetId attackerId projectileId s
    end.

(** *** Melee attack ([handleSpacebarAttack], [createAttackHitbox]) *)

Definition createAttackHitbox (direction : Z) (s : Scene) : Scene :=
  set_attackHitbox
    (Some {| hb_direction := direction; hb_width := 80; hb_height := 60 |}) s.

(** [now] is the [Date.now()] that goes into the attack id. *)
Definition handleSpacebarAttack (now : Z) (s : Scene) : Scene :=
  match player s with
  | Some p =>
      if negb (serverInitialized s) then s
      else
        let s1 := set_attackCooldown true s in
        let p1 := pl_playAttackAnimation p in
        let s2 := set_player (Some p1) s1 in
        let direction := if pl_flipX p1 then -1 else 1 in
        let s3 := set_hitPlayers ∅ s2 in
        let s4 := createAttackHitbox direction s3 in
        remoteFunction
          (PlayerAttack ("attack_" +:+ myAccount s4 +:+ "_" +:+ pretty now)
             (pl_x p1) (pl_y p1) direction (myAccount s4) (playerName s4)) s4
  | None => s
  end.

(** The two delayed calls: hitbox removal after 300 ms (lines 371-376) and
    cooldown reset after 500 ms (lines 335-337). *)
Definition hitboxTimer (s : Scene) : Scene :=
  match attackHitbox s with
  | Some _ => set_attackHitbox None s
  | None => s
  end.

Definition cooldownTimer (s : Scene) : Scene := set_attackCooldown false s.

(** *** Projectiles ([handleProjectileFired], [createProjectile]) *)

(** [now] is the [Date.now()] stored as [creationTime]. *)
Definition createProjectile (data : ProjectileData) (now : Z) (s : Scene)
  : Scene :=
  let projectile :=
    {| proj_id := pj_id data; proj_ownerId := pj_ownerId data;
       proj_creationTime := now |} in
  let s1 :=
    set_projectiles (<[pj_id data := projectile]> (projectiles s)) s in
  set_colliders (colliders s1 ++ [ProjectileBody (pj_id data)]) s1.

Definition handleProjectileFired (data : ProjectileData)
  (sceneActive physics : bool) (now : Z) (s : Scene) : Scene :=
  if negb sceneActive || negb physics then s
  else if decide (pj_ownerId data = myAccount s) then s
  else createProjectile data now s.

(** The collider callback registered by [createProjectile] (lines 440-443),
    run by the physics engine when the projectile touches an obstacle. *)
Definition projectileCollided (id : string) (s : Scene) : Scene :=
  set_projectiles (delete id (projectiles s)) s.

(** *** The frame update ([update], lines 183-248) *)

(** What the engine answers during one frame. *)
Record Tick := {
  (** the effect of [player.update()] on the local and on a remote player *)
  tk_localUpdate : P → P;
  tk_remoteUpdate : P → P;
  (** [Phaser.Input.Keyboard.JustDown(this.spaceKey)] *)
  tk_spaceJustDown : bool;
  (** [Date.now()] when an attack is spawned in this frame *)
  tk_attackNow : Z;
  (** [Rectangle.Overlaps(hitboxBounds, playerBounds)] for a remote id *)
  tk_hitboxOverlaps : string → bool;
  (** [physics.overlap(projectile, this.player.sprite)] for a projectile *)
  tk_overlapsPlayer : string → bool;
  (** [physics.overlap(projectile, this.obstacles)] for a projectile *)
  tk_overlapsObstacles : string → bool;
  (** [Date.now()] as read while a projectile is examined *)
  tk_dateNow : string → Z;
  (** the respawn point drawn if the hit on this id or by this projectile
      kills the local player *)
  tk_respawn : string → Z * Z;
}.

(** One callback of the hitbox loop (lines 201-217). *)
Definition meleeCheck (tk : Tick) (s : Scene) (id : string) : Scene :=
  if decide (id ∈ hitPlayers s) then s
  else if tk_hitboxOverlaps tk id then
    handlePlayerHit id (myAccount s) "melee_attack" (tk_respawn tk id)
      (set_hitPlayers ({[id]} ∪ hitPlayers s) s)
  else s.

(** [this.otherPlayers.forEach(...)]: the callback never adds or removes a
    key, so the keys visited are those present when the loop starts. *)
Definition meleePass (tk : Tick) (s : Scene) : Scene :=
  foldl (meleeCheck tk) s (map_to_list (otherPlayers s)).*1.

(** One callback of the projectile loop (lines 225-247). *)
Definition projectileCheck (tk : Tick) (s : Scene)
  (entry : string * Projectile) : Scene :=
  let '(id, projectile) := entry in
  let s1 :=
    match player s with
    | Some _ =>
        if decide (proj_ownerId projectile ≠ myAccount s) then
          if tk_overlapsPlayer tk id then
            let s' := handlePlayerHit (myAccount s) (proj_ownerId projectile)
                        id (tk_respawn tk id) s in
            set_projectiles (delete id (projectiles s')) s'
          else s
        else s
    | None => s
    end in
  let s2 := if tk_overlapsObstacles tk id
            then set_projectiles (delete id (projectiles s1)) s1 else s1 in
  if decide (tk_dateNow tk id - proj_creationTime projectile > 2000)
  then set_projectiles (delete id (projectiles s2)) s2 else s2.

(** [this.projectiles.forEach(...)]: a callback deletes at most its own
    entry, so the entries visited are those present when the loop starts. *)
Definition projectilePass (tk : Tick) (s : Scene) : Scene :=
  foldl (projectileCheck tk) s (map_to_list (projectiles s)).

(** The throttled position push (lines 188-192). *)
Definition pushPosition (time : Z) (s : Scene) : Scene :=
  if serverInitialized s
     && bool_decide (time - lastPositionUpdate s > positionUpdateInterval)
  then set_lastPositionUpdate time (updatePlayerOnServer s)
  else s.

(** The attack key (lines 194-197). *)
Definition checkAttackKey (tk : Tick) (s : Scene) : Scene :=
  if spaceKey s && tk_spaceJustDown tk && negb (attackCooldown s)
  then handleSpacebarAttack (tk_attackNow tk) s
  else s.

(** The hitbox check (lines 199-218). *)
Definition checkHitbox (tk : Tick) (s : Scene) : Scene :=
  match attackHitbox s with
  | Some _ => meleePass tk s
  | None => s
  end.

Definition update (time : Z) (tk : Tick) (s : Scene) : Scene :=
  let s1 :=
    match player s with
    | Some p =>
        checkHitbox tk
          (checkAttackKey tk
             (pushPosition time
                (set_player (Some (tk_localUpdate tk p)) s)))
    | None => s
    end in
  let s2 := set_otherPlayers (tk_remoteUpdate tk <$> otherPlayers s1) s1 in
  projectilePass tk s2.

(** *** Roster snapshots ([updatePlayerStates], lines 616-682) *)

(** The value handed to [player.setHealth] for a known player (lines
    633-641): the locally tracked health when there is one, else
    [playerState.health || 100]. *)
Definition resolvedHealth (playerState : PlayerState) (s : Scene) : Z :=
  match damagedPlayers s !! ps_account playerState with
  | Some damagedHealth => damagedHealth
  | None => JS.numOr (ps_health playerState) 100
  end.

(** The callback of the first loop (lines 619-665). *)
Definition applyPlayerState (s : Scene) (playerState : PlayerState) : Scene :=
  let playerId := ps_account playerState in
  if decide (playerId = myAccount s) then s
  else
    match ps_x playerState, ps_y playerState with
    | Some x, Some y =>
        match otherPlayers s !! playerId with
        | Some p =>
            let moved := pl_moveTo x y p in
            set_otherPlayers
              (<[playerId := pl_setHealth (resolvedHealth playerState s) moved]>
                 (otherPlayers s)) s
        | None =>
            let '(colorIndex, s1) := getUniqueColorIndex playerId s in
            let newP :=
              newPlayer x y (JS.strOr (ps_name playerState) "Unknown")
                playerId (Some colorIndex) in
            let s2 :=
              set_otherPlayers (<[playerId := newP]> (otherPlayers s1)) s1 in
            if obstaclesCreated s2
            then set_colliders (colliders s2 ++ [RemoteBody playerId]) s2
            else s2
        end
    | _, _ => s
    end.

(** [new Set(playerStates.map(p => p.account))]. *)
Definition currentPlayerIds (playerStates : list PlayerState) : gset string :=
  list_to_set (ps_account <$> playerStates).

(** The callback of the second loop (lines 669-681). *)
Definition removeIfDeparted (current : gset string) (s : Scene) (id : string)
  : Scene :=
  if decide (id ∈ current) then s
  else
    let s1 :=
      set_usedColorIndices
        (usedColorIndices s ∖ {[releasedColorIndex id]}) s in
    let s2 := set_damagedPlayers (delete id (damagedPlayers s1)) s1 in
    set_otherPlayers (delete id (otherPlayers s2)) s2.

(** [undefined] and [null] snapshots return at once; an empty array is
    processed (and removes everybody). *)
Definition updatePlayerStates (playerStates : option (list PlayerState))
  (s : Scene) : Scene :=
  match playerStates with
  | None => s
  | Some l =>
      let s1 := foldl applyPlayerState s l in
      foldl (removeIfDeparted (currentPlayerIds l)) s1
            (map_to_list (otherPlayers s1)).*1
  end.

(** ** Everything that can happen to a scene *)

Inductive Event :=
  | SetGameData (data : GameData) (sceneActive : bool)
  | Create (rx ry : Z)
  | Update (time : Z) (tk : Tick)
  | ProjectileFired (data : ProjectileData) (sceneActive physics : bool)
      (now : Z)
  | ProjectileCollided (id : string)
  | PowerupSpawned (data : PowerupDatum) (sceneActive : bool)
  | RoomStateChanged (state : option RoomState)
  | UpdateRoomState (roomState : RoomState)
  | UpdatePlayerStates (playerStates : option (list PlayerState))
  | HitboxTimer
  | CooldownTimer.

Definition step (s : Scene) (e : Event) : Scene :=
  match e with
  | SetGameData data active => setGameData data active s
  | Create rx ry => create rx ry s
  | Update time tk => update time tk s
  | ProjectileFired data active physics now =>
      handleProjectileFired data active physics now s
  | ProjectileCollided id => projectileCollided id s
  | PowerupSpawned data active => handlePowerupSpawned data active s
  | RoomStateChanged state => onRoomState state s
  | UpdateRoomState roomState => updateRoomState roomState s
  | UpdatePlayerStates playerStates => updatePlayerStates playerStates s
  | HitboxTimer => hitboxTimer s
  | CooldownTimer => cooldownTimer s
  end.

Definition run (s : Scene) (events : list Event) : Scene :=
  foldl step s events.

End Scene.

Arguments Scene P : clear implicits.
Arguments Tick P : clear implicits.
Arguments Event P : clear implicits.

(** ** A reference participant *)

(** Modelled from the spec: the [Player] class ([../entities/Player]) is not
    part of the sources.  The spec gives a participant a position, a
    facing, a health that is an integer clamped at 0 from below, a display
    name and a colour index; damage subtracts from the health, a snapshot
    moves the participant to the reported position, and a fresh or reset
    participant has the default health 100. *)
Record SpecPlayer := {
  sp_x : Z;
  sp_y : Z;
  sp_name : string;
  sp_id : string;
  sp_colorIndex : option Z;
  sp_health : Z;
  sp_flipX : bool;
  sp_attacking : bool;
}.

(** Modelled from the spec: the operations of the absent [Player] class on
    the record above. *)
#[export] Instance specPlayerOps : PlayerOps SpecPlayer := {|
  newPlayer x y name id colorIndex :=
    {| sp_x := x; sp_y := y; sp_name := name; sp_id := id;
       sp_colorIndex := colorIndex; sp_health := 100; sp_flipX := false;
       sp_attacking := false |};
  pl_health := sp_health;
  pl_x := sp_x;
  pl_y := sp_y;
  pl_angle := λ _, 0;
  pl_flipX := sp_flipX;
  pl_damage n p :=
    {| sp_x := sp_x p; sp_y := sp_y p; sp_name := sp_name p; sp_id := sp_id p;
       sp_colorIndex := sp_colorIndex p;
       sp_health := Z.max 0 (sp_health p - n); sp_flipX := sp_flipX p;
       sp_attacking := sp_attacking p |};
  pl_setHealth h p :=
    {| sp_x := sp_x p; sp_y := sp_y p; sp_name := sp_name p; sp_id := sp_id p;
       sp_colorIndex := sp_colorIndex p; sp_health := h;
       sp_flipX := sp_flipX p; sp_attacking := sp_attacking p |};
  pl_moveTo x y p :=
    {| sp_x := x; sp_y := y; sp_name := sp_name p; sp_id := sp_id p;
       sp_colorIndex := sp_colorIndex p; sp_health := sp_health p;
       sp_flipX := sp_flipX p; sp_attacking := sp_attacking p |};
  pl_setPosition x y p :=
    {| sp_x := x; sp_y := y; sp_name := sp_name p; sp_id := sp_id p;
       sp_colorIndex := sp_colorIndex p; sp_health := sp_health p;
       sp_flipX := sp_flipX p; sp_attacking := sp_attacking p |};
  pl_reset p :=
    {| sp_x := sp_x p; sp_y := sp_y p; sp_name := sp_name p; sp_id := sp_id p;
       sp_colorIndex := sp_colorIndex p; sp_health := 100;
       sp_flipX := sp_flipX p; sp_attacking := false |};
  pl_playAttackAnimation p :=
    {| sp_x := sp_x p; sp_y := sp_y p; sp_name := sp_name p; sp_id := sp_id p;
       sp_colorIndex := sp_colorIndex p; sp_health := sp_health p;
       sp_flipX := sp_flipX p; sp_attacking := true |};
|}.

(** A session used in the examples: account "me" joined room "arena", the
    scene started at (500, 500). *)
Definition joined : Scene SpecPlayer :=
  create 500 500
    (setGameData
       {| gd_playerName := "Me"; gd_roomId := "arena";
          gd_server := Some {| sv_account := Some "me" |} |} false
       initialScene).

Definition entry (account : string) (x y : option Z) (health : option Z)
  : PlayerState :=
  {| ps_account := account; ps_x := x; ps_y := y; ps_name := None;
     ps_health := health |}.

(** A frame in which nothing overlaps and no key is pressed, with the wall
    clock at [now]. *)
Definition quietTick (now : Z) : Tick SpecPlayer :=
  {| tk_localUpdate := id; tk_remoteUpdate := id; tk_spaceJustDown := false;
     tk_attackNow := now; tk_hitboxOverlaps := λ _, false;
     tk_overlapsPlayer := λ _, false; tk_overlapsObstacles := λ _, false;
     tk_dateNow := λ _, now; tk_respawn := λ _, (100, 100) |}.

(** The roster after a first snapshot announcing "p1" at (300, 400). *)
Definition withP1 : Scene SpecPlayer :=
  updatePlayerStates (Some [entry "p1" (Some 300) (Some 400) (Some 100)])
    joined.

(** A frame at wall-clock time [now] in which the hitbox overlaps "p1";
    [space] tells whether the attack key went down. *)
Definition p1Tick (space : bool) (now : Z) : Tick SpecPlayer :=
  {| tk_localUpdate := id; tk_remoteUpdate := id; tk_spaceJustDown := space;
     tk_attackNow := now;
     tk_hitboxOverlaps := λ i, bool_decide (i = "p1");
     tk_overlapsPlayer := λ _, false; tk_overlapsObstacles := λ _, false;
     tk_dateNow := λ _, now; tk_respawn := λ _, (100, 100) |}.

(** The local player attacks while "p1" stands in the hitbox. *)
Definition attacked : Scene SpecPlayer := update 1000 (p1Tick true 1000) withP1.

(** A remote projectile "b1" fired by "p1", created at wall-clock time 0. *)
Definition shot : ProjectileData :=
  {| pj_x := 0; pj_y := 0; pj_targetX := 10; pj_targetY := 10;
     pj_id := "b1"; pj_ownerId := "p1" |}.

(** The first room state, carrying two obstacles. *)
Definition firstRoomState : RoomState :=
  {| rs_obstacles := Some [ {| ob_x := Some 300; ob_y := Some 300 |};
                            {| ob_x := Some 700; ob_y := Some 900 |} ];
     rs_powerups := None |}.

(** A later room state, carrying another obstacle list. *)
Definition laterRoomState : RoomState :=
  {| rs_obstacles := Some [ {| ob_x := Some 50; ob_y := Some 60 |} ];
     rs_powerups := None |}.

(** The scene after the subscription delivered the first room state. *)
Definition bootstrapped : Scene SpecPlayer :=
  onRoomState (Some firstRoomState) joined.

(** ** Observations used in the statements *)

(** An entry that carries both coordinates. *)
Definition hasPosition (e : PlayerState) : Prop :=
  is_Some (ps_x e) ∧ is_Some (ps_y e).

#[export] Instance hasPosition_dec e : Decision (hasPosition e).
Proof. unfold hasPosition. apply _. Defined.

(** A [playerDied] call. *)
Definition isPlayerDied (m : OutMsg) : Prop :=
  match m with
  | PlayerDied _ _ => True
  | _ => False
  end.

#[export] Instance isPlayerDied_dec m : Decision (isPlayerDied m).
Proof. destruct m; simpl; apply _. Defined.

Section Observations.

Context {P : Type} {ops : PlayerOps P}.

(** The ids in the remote-participant registry. *)
Definition registryIds (s : Scene P) : gset string := dom (otherPlayers s).

(** The account ids appearing in a snapshot. *)
Definition snapshotIds (l : list PlayerState) : gset string :=
  list_to_set (ps_account <$> l).

(** The account ids of the entries that carry both coordinates. *)
Definition positionedIds (l : list PlayerState) : gset string :=
  list_to_set (ps_account <$> filter hasPosition l).

(** Colour indices handed out to a sequence of ids, one call of
    [getUniqueColorIndex] after the other, nothing released in between. *)
Fixpoint allocateAll (ids : list string) (s : Scene P) : list Z * Scene P :=
  match ids with
  | [] => ([], s)
  | playerId :: rest =>
      let '(i, s1) := getUniqueColorIndex playerId s in
      let '(others, s2) := allocateAll rest s1 in
      (i :: others, s2)
  end.

(** How many colour indices the scan can still hand out. *)
Definition freeColors (used : gset Z) : nat :=
  length (filter (λ i, i ∉ used) colorCandidates).

(** A [playerHit] call reporting a hit by [attacker] on [target]. *)
Definition isHitOn (attacker target : string) (m : OutMsg) : bool :=
  match m with
  | PlayerHit t a _ _ => bool_decide (t = target) && bool_decide (a = attacker)
  | _ => false
  end.

(** How many hits by [attacker] on [target] were reported so far. *)
Definition hitsReported (attacker target : string) (s : Scene P) : nat :=
  length (filter (λ m, isHitOn attacker target m = true) (outbox s)).

(** A step that keeps the local id, the hit set and the log of remote
    calls, and does not lower the bootstrap flag. *)
Definition steady (s s' : Scene P) : Prop :=
  myAccount s' = myAccount s
  ∧ hitPlayers s' = hitPlayers s
  ∧ outbox s' = outbox s
  ∧ (obstaclesCreated s = true → obstaclesCreated s' = true).

(** Hits by [attacker] on [target] reported so far, plus the one the
    current attack may still grant when [target] is not in its hit set. *)
Definition hitBudget (attacker target : string) (s : Scene P) : nat :=
  (hitsReported attacker target s
   + if decide (target ∈ hitPlayers s) then 0 else 1)%nat.

(** An event that does not replace the session data. *)
Definition keepsAccount (e : Event P) : Prop :=
  match e with
  | SetGameData _ _ => False
  | _ => True
  end.

(** The frame reaches [handleSpacebarAttack]: there is a local player, the
    attack key exists and went down, and the cooldown is over. *)
Definition callsAttack (s : Scene P) (e : Event P) : Prop :=
  match e with
  | Update _ tk =>
      is_Some (player s) ∧ spaceKey s = true ∧ tk_spaceJustDown tk = true
      ∧ attackCooldown s = false
  | _ => False
  end.

(** What can happen between two attacks: any event that neither replaces
    the session data nor reaches [handleSpacebarAttack]. *)
Definition betweenAttacks (s : Scene P) (e : Event P) : Prop :=
  keepsAccount e ∧ ¬ callsAttack s e.

(** A run of events between two attacks. *)
Fixpoint attackFree (s : Scene P) (events : list (Event P)) : Prop :=
  match events with
  | [] => True
  | e :: rest => betweenAttacks s e ∧ attackFree (step s e) rest
  end.

(** The remote calls issued between [s] and [s'] all satisfy [Q]. *)
Definition sends (Q : OutMsg → Prop) (s s' : Scene P) : Prop :=
  ∃ sent, outbox s' = outbox s ++ sent ∧ Forall Q sent.


(** What every method except session set-up, scene start, roster processing
    and bootstrap leaves alone. *)
Definition preserved (s s' : Scene P) : Prop :=
  myAccount s' = myAccount s
  ∧ registryIds s' = registryIds s
  ∧ obstacles s' = obstacles s
  ∧ obstaclesCreated s' = obstaclesCreated s
  ∧ serverInitialized s' = serverInitialized s
  ∧ server s' = server s.

(** A step that also leaves the hit set and the log of remote calls
    alone. *)
Definition quiet (s s' : Scene P) : Prop :=
  preserved s s' ∧ hitPlayers s' = hitPlayers s ∧ outbox s' = outbox s.

End Observations.

(** ** Further observations *)

(** The hash of [hashCode] read as arithmetic: [h * 31 + c] over the
    character codes, with no wrap-around. *)
Definition polyHash (codes : list Z) : Z :=
  foldl (λ h c, 31 * h + c) 0 codes.

(** An [updatePlayerPosition] call. *)
Definition isPosition (m : OutMsg) : bool :=
  match m with
  | UpdatePlayerPosition _ _ _ _ _ => true
  | _ => false
  end.

(** A [playerAttack] call. *)
Definition isAttack (m : OutMsg) : bool :=
  match m with
  | PlayerAttack _ _ _ _ _ _ => true
  | _ => false
  end.

(** The two kinds of [playerHit] the scene sends: a melee hit by the local
    player, or a projectile hit on the local player by somebody else; both
    with damage 10. *)
Definition hitShape (me : string) (m : OutMsg) : Prop :=
  match m with
  | PlayerHit targetId attackerId projectileId damage =>
      damage = 10
      ∧ ((attackerId = me ∧ projectileId = "melee_attack")
         ∨ (targetId = me ∧ attackerId ≠ me))
  | _ => True
  end.

Section MoreObservations.

Context {P : Type} {ops : PlayerOps P}.

(** How many of the remote calls issued so far satisfy [f]. *)
Definition countSent (f : OutMsg → bool) (s : Scene P) : nat :=
  length (filter (λ m, f m = true) (outbox s)).

(** Every colour index in use is one of 1..8. *)
Definition colorsInRange (s : Scene P) : Prop :=
  ∀ i, i ∈ usedColorIndices s → 1 ≤ i ≤ 8.

(** Only registered participants have an overlay entry. *)
Definition overlayRegistered (s : Scene P) : Prop :=
  dom (damagedPlayers s) ⊆ registryIds s.

(** The projectile table is keyed by projectile id and holds no projectile
    of the local player. *)
Definition foreignProjectiles (s : Scene P) : Prop :=
  ∀ id pr, projectiles s !! id = Some pr →
           proj_id pr = id ∧ proj_ownerId pr ≠ myAccount s.

(** Once the assets are marked loaded, the local player, the powerup group
    and the attack key exist. *)
Definition sceneStarted (s : Scene P) : Prop :=
  assetsLoaded s = true →
  is_Some (player s) ∧ is_Some (powerups s) ∧ spaceKey s = true.

(** Once the world is bootstrapped, the local player and every registered
    participant have a collider against the obstacles. *)
Definition collidersCover (s : Scene P) : Prop :=
  obstaclesCreated s = true →
  LocalBody ∈ colliders s
  ∧ ∀ id, id ∈ registryIds s → RemoteBody id ∈ colliders s.

(** An event that does not restart the scene. *)
Definition keepsGeometry (e : Event P) : Prop :=
  match e with
  | Create _ _ => False
  | _ => True
  end.

(** An event other than the cooldown timer. *)
Definition keepsCooldown (e : Event P) : Prop :=
  match e with
  | CooldownTimer => False
  | _ => True
  end.

(** Fields that no combat step (hit, death, melee and projectile loops)
    writes. *)
Definition combatFrame (s s' : Scene P) : Prop :=
  usedColorIndices s' = usedColorIndices s
  ∧ colliders s' = colliders s
  ∧ assetsLoaded s' = assetsLoaded s
  ∧ spaceKey s' = spaceKey s
  ∧ powerups s' = powerups s
  ∧ attackCooldown s' = attackCooldown s
  ∧ attackHitbox s' = attackHitbox s
  ∧ lastPositionUpdate s' = lastPositionUpdate s
  ∧ (is_Some (player s) → is_Some (player s')).

(** Until the assets are marked loaded there is no powerup group. *)
Definition powerupsDormant (s : Scene P) : Prop :=
  assetsLoaded s = false → powerups s = None.

(** A powerup entry that [syncPowerups] keeps: id and type are truthy. *)
Definition wellFormedPowerup (d : PowerupDatum) : Prop :=
  JS.strTruthy (pd_id d) = true ∧ JS.strTruthy (pd_type d) = true.

End MoreObservations.

(** ** Frame lemmas *)

Section Frames.

Context {P : Type} {ops : PlayerOps P}.
Implicit Types s : Scene P.

Lemma remoteFunction_fields m s :
  player (remoteFunction m s) = player s
  ∧ otherPlayers (remoteFunction m s) = otherPlayers s
  ∧ projectiles (remoteFunction m s) = projectiles s
  ∧ hitPlayers (remoteFunction m s) = hitPlayers s
  ∧ obstacles (remoteFunction m s) = obstacles s
  ∧ myAccount (remoteFunction m s) = myAccount s
  ∧ serverInitialized (remoteFunction m s) = serverInitialized s
  ∧ obstaclesCreated (remoteFunction m s) = obstaclesCreated s
  ∧ usedColorIndices (remoteFunction m s) = usedColorIndices s
  ∧ damagedPlayers (remoteFunction m s) = damagedPlayers s
  ∧ server (remoteFunction m s) = server s
  ∧ attackHitbox (remoteFunction m s) = attackHitbox s.
Proof.
  unfold remoteFunction.
  destruct (server s) eqn:E; simpl; rewrite ?E; repeat split; reflexivity.
Qed.

End Frames.

(** ** Colour allocation *)

Section Colors.

Context {P : Type} {ops : PlayerOps P}.
Implicit Types (s : Scene P) (used : gset Z) (c : list Z).

Lemma firstUnused_Some c used i :
  firstUnused c used = Some i → i ∈ c ∧ i ∉ used.
Proof.
  induction c as [|a c IH]; simpl; [discriminate|].
  destruct (decide (a ∈ used)) as [Hin|Hout].
  - intros Hc. destruct (IH Hc). split; [by right | done].
  - intros [= ->]. split; [by left | done].
Qed.

Lemma firstUnused_None c used :
  firstUnused c used = None → filter (λ i, i ∉ used) c = [].
Proof.
  induction c as [|a c IH]; simpl; [done|].
  destruct (decide (a ∈ used)) as [Hin|Hout]; [|discriminate].
  intros Hc. rewrite filter_cons_False; [by apply IH | by intros Hn].
Qed.

Lemma filter_unused_fresh c used i :
  i ∉ c →
  filter (λ j, j ∉ {[i]} ∪ used) c = filter (λ j, j ∉ used) c.
Proof.
  induction c as [|a c IH]; intros Hi; [done|].
  apply not_elem_of_cons in Hi as [Hne Hi].
  rewrite !filter_cons, (IH Hi).
  destruct (decide (a ∉ {[i]} ∪ used)) as [H1|H1],
           (decide (a ∉ used)) as [H2|H2]; try done.
  - exfalso. apply H2. set_solver.
  - exfalso. apply H1. set_solver.
Qed.

Lemma filter_unused_take c used i :
  NoDup c →
  (length (filter (λ j, j ∉ used) c)
   ≤ S (length (filter (λ j, j ∉ {[i]} ∪ used) c)))%nat.
Proof.
  induction 1 as [|a c Ha Hc IH]; [simpl; lia|].
  destruct (decide (a = i)) as [->|Hne].
  - assert (¬ (i ∉ {[i]} ∪ used)) as Hi by (intros Hn; apply Hn; set_solver).
    rewrite (filter_cons_False (λ j, j ∉ {[i]} ∪ used)) by exact Hi.
    rewrite (filter_unused_fresh c used i Ha).
    rewrite filter_cons. destruct (decide (i ∉ used)); simpl; lia.
  - rewrite !filter_cons.
    destruct (decide (a ∉ {[i]} ∪ used)) as [H1|H1],
             (decide (a ∉ used)) as [H2|H2]; simpl; try lia.
    exfalso. apply H1. set_solver.
Qed.

Lemma getUniqueColorIndex_scan playerId s :
  (0 < freeColors (usedColorIndices s))%nat →
  ∃ i, getUniqueColorIndex playerId s
       = (i, set_usedColorIndices ({[i]} ∪ usedColorIndices s) s)
       ∧ i ∈ colorCandidates ∧ i ∉ usedColorIndices s.
Proof.
  intros Hfree. unfold getUniqueColorIndex.
  destruct (firstUnused colorCandidates (usedColorIndices s)) as [i|] eqn:E.
  - exists i. by destruct (firstUnused_Some _ _ _ E).
  - apply firstUnused_None in E. unfold freeColors in Hfree.
    rewrite E in Hfree. simpl in Hfree. lia.
Qed.

(** As long as the scan has free indices left, every allocation is fresh:
    distinct from the indices in use and from each other. *)
Lemma allocateAll_fresh ids s :
  (length ids ≤ freeColors (usedColorIndices s))%nat →
  NoDup (allocateAll ids s).1
  ∧ ∀ i, i ∈ (allocateAll ids s).1 →
         i ∈ colorCandidates ∧ i ∉ usedColorIndices s.
Proof.
  revert s. induction ids as [|playerId rest IH]; intros s Hlen.
  - simpl. split; [constructor | intros i Hi; inversion Hi].
  - simpl in Hlen.
    destruct (getUniqueColorIndex_scan playerId s) as (i & Hg & Hc & Hu);
      [lia|].
    simpl. rewrite Hg.
    destruct (allocateAll rest _) as [others s2] eqn:Hrest.
    specialize (IH (set_usedColorIndices ({[i]} ∪ usedColorIndices s) s)).
    rewrite Hrest in IH. simpl in IH.
    destruct IH as [Hnd Hin].
    { pose proof (filter_unused_take colorCandidates (usedColorIndices s) i
                    (NoDup_seqZ _ _)) as Hle.
      unfold freeColors in *. lia. }
    simpl. split.
    + constructor; [|done]. intros Hi. apply Hin in Hi. set_solver.
    + intros j [->|Hj]%elem_of_cons; [done|].
      apply Hin in Hj. set_solver.
Qed.

(** C7. Starting with no colour index in use, allocating indices to at most
    eight ids in a row, with nothing released in between, yields
    pairwise distinct indices, each between 1 and 8. *)
Theorem color_indices_distinct (ids : list string) (s : Scene P) :
  usedColorIndices s = ∅ →
  (length ids ≤ 8)%nat →
  NoDup (allocateAll ids s).1
  ∧ Forall (λ i, 1 ≤ i ≤ 8) (allocateAll ids s).1.
Proof.
  intros Hempty Hlen.
  destruct (allocateAll_fresh ids s) as [Hnd Hin].
  { rewrite Hempty. change (freeColors ∅) with 8%nat. exact Hlen. }
  split; [done|].
  apply Forall_forall. intros i Hi. apply Hin in Hi as [Hc _].
  unfold colorCandidates in Hc. apply elem_of_seqZ in Hc. lia.
Qed.

End Colors.

(** C8. The index freed on departure is [hashCode(id) % 8 + 1], without the
    [Math.abs] of the allocation fallback: for "player2", whose hash is
    negative, departure frees index -6 while the fallback formula gives 8. *)
Theorem release_index_misses_abs :
  hashCode "player2" = -493567631
  ∧ releasedColorIndex "player2" = -6
  ∧ fallbackColorIndex "player2" = 8.
Proof. vm_compute. repeat split; reflexivity. Qed.

(** The two formulas agree on ids whose hash is not negative. *)
Lemma release_index_nonneg_hash (id : string) :
  0 ≤ hashCode id → releasedColorIndex id = fallbackColorIndex id.
Proof.
  intros Hh. unfold releasedColorIndex, fallbackColorIndex, JS.rem.
  rewrite Z.abs_eq; [done|]. by apply Z.rem_nonneg.
Qed.

(** ** Roster snapshots *)

Section Roster.

Context {P : Type} {ops : PlayerOps P}.
Implicit Types (s : Scene P) (l : list PlayerState) (X : string).

Lemma getUniqueColorIndex_fields playerId s :
  let s' := (getUniqueColorIndex playerId s).2 in
  otherPlayers s' = otherPlayers s ∧ myAccount s' = myAccount s
  ∧ damagedPlayers s' = damagedPlayers s
  ∧ obstaclesCreated s' = obstaclesCreated s
  ∧ hitPlayers s' = hitPlayers s ∧ outbox s' = outbox s
  ∧ player s' = player s ∧ colliders s' = colliders s.
Proof.
  unfold getUniqueColorIndex.
  destruct (firstUnused _ _); simpl; repeat split; reflexivity.
Qed.

Lemma applyPlayerState_fields s e :
  myAccount (applyPlayerState s e) = myAccount s
  ∧ damagedPlayers (applyPlayerState s e) = damagedPlayers s
  ∧ hitPlayers (applyPlayerState s e) = hitPlayers s
  ∧ outbox (applyPlayerState s e) = outbox s
  ∧ player (applyPlayerState s e) = player s.
Proof.
  unfold applyPlayerState.
  destruct (decide _); [done|].
  destruct (ps_x e), (ps_y e); try done.
  destruct (otherPlayers s !! ps_account e); [done|].
  pose proof (getUniqueColorIndex_fields (ps_account e) s) as Hf.
  destruct (getUniqueColorIndex (ps_account e) s) as [i s1].
  simpl in Hf. destruct Hf as (_ & ? & ? & Hoc & ? & ? & ? & _).
  simpl. rewrite Hoc. destruct (obstaclesCreated s); simpl; done.
Qed.

(** One snapshot entry registers its id when it is not the local id and
    carries a position; it never unregisters anybody. *)
Lemma applyPlayerState_registry s e :
  registryIds (applyPlayerState s e)
  = registryIds s
    ∪ (if decide (ps_account e ≠ myAccount s ∧ hasPosition e)
       then {[ps_account e]} else ∅).
Proof.
  unfold registryIds, applyPlayerState.
  destruct (decide (ps_account e = myAccount s)) as [Heq|Hne].
  { rewrite decide_False by tauto. set_solver. }
  destruct (decide (hasPosition e)) as [Hp|Hp].
  - rewrite decide_True by done.
    destruct Hp as [[x Hx] [y Hy]]. rewrite Hx, Hy.
    destruct (otherPlayers s !! ps_account e) as [p|] eqn:Hk.
    + simpl. rewrite dom_insert_L.
      assert (ps_account e ∈ dom (otherPlayers s))
        by (apply elem_of_dom; eauto).
      set_solver.
    + pose proof (getUniqueColorIndex_fields (ps_account e) s) as Hf.
      destruct (getUniqueColorIndex (ps_account e) s) as [i s1].
      simpl in Hf. destruct Hf as (Ho & _).
      simpl. destruct (obstaclesCreated s1); simpl;
        rewrite dom_insert_L, Ho; set_solver.
  - rewrite decide_False by tauto.
    destruct (ps_x e) as [x|] eqn:Hx, (ps_y e) as [y|] eqn:Hy;
      try set_solver.
    exfalso. apply Hp. unfold hasPosition. rewrite Hx, Hy. eauto.
Qed.

Lemma applyAll_fields l s :
  myAccount (foldl applyPlayerState s l) = myAccount s
  ∧ damagedPlayers (foldl applyPlayerState s l) = damagedPlayers s
  ∧ hitPlayers (foldl applyPlayerState s l) = hitPlayers s
  ∧ outbox (foldl applyPlayerState s l) = outbox s
  ∧ player (foldl applyPlayerState s l) = player s.
Proof.
  revert s. induction l as [|e l IH]; intros s; [done|].
  simpl. destruct (IH (applyPlayerState s e)) as (-> & -> & -> & -> & ->).
  apply applyPlayerState_fields.
Qed.

Lemma applyAll_registry l s :
  registryIds (foldl applyPlayerState s l)
  = registryIds s ∪ (positionedIds l ∖ {[myAccount s]}).
Proof.
  revert s. induction l as [|e l IH]; intros s.
  - unfold positionedIds. simpl. set_solver.
  - simpl. rewrite IH, applyPlayerState_registry.
    destruct (applyPlayerState_fields s e) as (-> & _).
    unfold positionedIds. rewrite filter_cons.
    destruct (decide (hasPosition e)) as [Hp|Hp].
    + rewrite fmap_cons, list_to_set_cons.
      destruct (decide (ps_account e ≠ myAccount s ∧ hasPosition e))
        as [[Hne _]|Hn].
      * set_solver.
      * assert (ps_account e = myAccount s) as Heq.
        { destruct (decide (ps_account e = myAccount s)); [done|tauto]. }
        set_solver.
    + rewrite decide_False by tauto. set_solver.
Qed.

Lemma removeIfDeparted_lookup cur s a k :
  otherPlayers (removeIfDeparted cur s a) !! k
  = (if decide (k = a ∧ k ∉ cur) then None else otherPlayers s !! k)
  ∧ damagedPlayers (removeIfDeparted cur s a) !! k
    = (if decide (k = a ∧ k ∉ cur) then None else damagedPlayers s !! k).
Proof.
  unfold removeIfDeparted. destruct (decide (a ∈ cur)) as [Ha|Ha].
  - rewrite !decide_False by (intros [-> ?]; done). done.
  - cbn [otherPlayers damagedPlayers set_otherPlayers set_damagedPlayers
         set_usedColorIndices].
    destruct (decide (k = a)) as [->|Hne].
    + rewrite !decide_True by done. by rewrite !lookup_delete_eq.
    + rewrite !decide_False by tauto. by rewrite !lookup_delete_ne.
Qed.

(** The second loop, over any list of visited keys. *)
Lemma removeDeparted_lookup cur ks s k :
  otherPlayers (foldl (removeIfDeparted cur) s ks) !! k
  = (if decide (k ∈ ks ∧ k ∉ cur) then None else otherPlayers s !! k)
  ∧ damagedPlayers (foldl (removeIfDeparted cur) s ks) !! k
    = (if decide (k ∈ ks ∧ k ∉ cur) then None else damagedPlayers s !! k).
Proof.
  revert s. induction ks as [|a ks IH]; intros s; cbn [foldl].
  - rewrite !decide_False by (intros [Hin _]; inversion Hin). done.
  - destruct (IH (removeIfDeparted cur s a)) as [E1 E2].
    rewrite E1, E2. clear IH E1 E2.
    destruct (removeIfDeparted_lookup cur s a k) as [-> ->].
    split; repeat case_decide; try done;
      exfalso; rewrite elem_of_cons in *; tauto.
Qed.

Lemma removeDeparted_fields cur ks s :
  myAccount (foldl (removeIfDeparted cur) s ks) = myAccount s
  ∧ hitPlayers (foldl (removeIfDeparted cur) s ks) = hitPlayers s
  ∧ outbox (foldl (removeIfDeparted cur) s ks) = outbox s
  ∧ player (foldl (removeIfDeparted cur) s ks) = player s.
Proof.
  revert s. induction ks as [|a ks IH]; intros s; [done|].
  simpl. destruct (IH (removeIfDeparted cur s a)) as (-> & -> & -> & ->).
  unfold removeIfDeparted. destruct (decide _); done.
Qed.

Lemma elem_of_keys (m : gmap string P) k :
  k ∈ (map_to_list m).*1 ↔ is_Some (m !! k).
Proof.
  rewrite list_elem_of_fmap. split.
  - intros ([k' v] & -> & Hin). apply elem_of_map_to_list in Hin. eauto.
  - intros [v Hv]. exists (k, v). split; [done|].
    by apply elem_of_map_to_list.
Qed.

(** What a snapshot does to one registry entry and one overlay entry. *)
Lemma updatePlayerStates_lookup l s k :
  let s1 := foldl applyPlayerState s l in
  otherPlayers (updatePlayerStates (Some l) s) !! k
  = (if decide (k ∈ snapshotIds l) then otherPlayers s1 !! k else None)
  ∧ damagedPlayers (updatePlayerStates (Some l) s) !! k
    = (if decide (k ∈ registryIds s1 ∧ k ∉ snapshotIds l)
       then None else damagedPlayers s !! k).
Proof.
  intros s1. unfold updatePlayerStates. fold s1.
  destruct (removeDeparted_lookup (currentPlayerIds l)
              (map_to_list (otherPlayers s1)).*1 s1 k) as [-> ->].
  change (currentPlayerIds l) with (snapshotIds l).
  destruct (applyAll_fields l s) as (_ & Hd & _). fold s1 in Hd.
  rewrite Hd. unfold registryIds.
  split.
  - destruct (decide (k ∈ snapshotIds l)) as [Hin|Hout].
    + rewrite decide_False; [done|tauto].
    + destruct (otherPlayers s1 !! k) as [v|] eqn:Hk.
      * rewrite decide_True; [done|]. split; [|done].
        apply elem_of_keys. eauto.
      * by destruct (decide _).
  - apply decide_ext. rewrite elem_of_keys, elem_of_dom. tauto.
Qed.

Lemma positionedIds_subseteq l : positionedIds l ⊆ snapshotIds l.
Proof.
  unfold positionedIds, snapshotIds. intros k.
  rewrite !elem_of_list_to_set, !list_elem_of_fmap.
  intros (e & -> & He). apply list_elem_of_filter in He as [_ He]. eauto.
Qed.

(** The registry after a snapshot: the registered ids that appear in it,
    and the non-local ids of its positioned entries. *)
Lemma updatePlayerStates_registry l s :
  registryIds (updatePlayerStates (Some l) s)
  = (registryIds s ∩ snapshotIds l) ∪ (positionedIds l ∖ {[myAccount s]}).
Proof.
  pose proof (positionedIds_subseteq l) as Hsub.
  apply set_eq. intros k. unfold registryIds at 1.
  rewrite elem_of_dom.
  destruct (updatePlayerStates_lookup l s k) as [-> _].
  assert (is_Some (otherPlayers (foldl applyPlayerState s l) !! k)
          ↔ k ∈ registryIds s ∪ (positionedIds l ∖ {[myAccount s]}))
    as Hall.
  { rewrite <- applyAll_registry. unfold registryIds.
    by rewrite elem_of_dom. }
  destruct (decide (k ∈ snapshotIds l)) as [Hin|Hout].
  - rewrite Hall. set_solver.
  - split; [intros [? [=]]|]. set_solver.
Qed.

(** C1, as amended.  An entry without [x] or [y] registers nobody; its id
    still counts as present when departures are computed.  From a registry
    that does not hold the local id, the registry after a snapshot holds the
    ids already registered that appear in the snapshot, and the non-local
    ids of the entries that carry both coordinates; when every entry carries
    both, that is the snapshot's ids minus the local id. *)
Theorem registry_after_snapshot (l : list PlayerState) (s : Scene P) :
  myAccount s ∉ registryIds s →
  registryIds (updatePlayerStates (Some l) s)
  = (registryIds s ∩ snapshotIds l) ∪ (positionedIds l ∖ {[myAccount s]})
  ∧ (Forall hasPosition l →
     registryIds (updatePlayerStates (Some l) s)
     = snapshotIds l ∖ {[myAccount s]}).
Proof.
  intros Hinv. split; [apply updatePlayerStates_registry|].
  intros Hall. rewrite updatePlayerStates_registry.
  assert (positionedIds l = snapshotIds l) as ->.
  { unfold positionedIds, snapshotIds. f_equal. f_equal.
    clear -Hall. induction Hall as [|e l He _ IH]; [done|].
    rewrite filter_cons_True by done. by rewrite IH. }
  set_solver.
Qed.

(** With no overlay entry, the health given to a known player is
    [playerState.health || 100]. *)
Lemma resolvedHealth_no_overlay e s :
  damagedPlayers s !! ps_account e = None →
  resolvedHealth e s = JS.numOr (ps_health e) 100.
Proof. intros Hno. unfold resolvedHealth. by rewrite Hno. Qed.

End Roster.

(** ** Combat: hits, deaths and the de-duplication gate *)

Section Combat.

Context {P : Type} {ops : PlayerOps P}.
Implicit Types (s : Scene P) (Q : OutMsg → Prop) (X me : string).

Lemma preserved_refl s : preserved s s.
Proof. by repeat split. Qed.

Lemma preserved_trans s1 s2 s3 :
  preserved s1 s2 → preserved s2 s3 → preserved s1 s3.
Proof.
  intros (a1 & a2 & a3 & a4 & a5 & a6) (b1 & b2 & b3 & b4 & b5 & b6).
  repeat split; congruence.
Qed.

Lemma sends_refl Q s : sends Q s s.
Proof. exists []. split; [by rewrite app_nil_r | constructor]. Qed.

Lemma sends_trans Q s1 s2 s3 : sends Q s1 s2 → sends Q s2 s3 → sends Q s1 s3.
Proof.
  intros (l1 & E1 & F1) (l2 & E2 & F2). exists (l1 ++ l2). split.
  - by rewrite E2, E1, <- app_assoc.
  - by apply Forall_app.
Qed.

Lemma sends_same_outbox Q s s' : outbox s' = outbox s → sends Q s s'.
Proof. intros E. exists []. split; [by rewrite app_nil_r | constructor]. Qed.

Lemma remoteFunction_sends Q m s : Q m → sends Q s (remoteFunction m s).
Proof.
  intros Hm. unfold remoteFunction. destruct (server s).
  - exists [m]. split; [done | by repeat constructor].
  - apply sends_refl.
Qed.

Lemma remoteFunction_preserved m s : preserved s (remoteFunction m s).
Proof.
  unfold preserved, registryIds.
  destruct (remoteFunction_fields m s)
    as (_ & -> & _ & _ & -> & -> & -> & -> & _ & _ & -> & _).
  by repeat split.
Qed.


Lemma handlePlayerDeath_preserved playerId killerId rnd s :
  preserved s (handlePlayerDeath playerId killerId rnd s)
  ∧ hitPlayers (handlePlayerDeath playerId killerId rnd s) = hitPlayers s
  ∧ damagedPlayers (handlePlayerDeath playerId killerId rnd s)
    = damagedPlayers s
  ∧ projectiles (handlePlayerDeath playerId killerId rnd s) = projectiles s
  ∧ otherPlayers (handlePlayerDeath playerId killerId rnd s) = otherPlayers s.
Proof.
  unfold handlePlayerDeath, preserved, registryIds.
  destruct (decide _); [|by repeat split].
  destruct (player s); [|by repeat split].
  cbn [serverInitialized set_player].
  destruct (serverInitialized s) eqn:Hsi; [|by repeat split].
  match goal with |- context [remoteFunction ?m ?s1] =>
    destruct (remoteFunction_fields m s1)
      as (_ & -> & -> & -> & -> & -> & -> & -> & _ & -> & -> & _) end.
  by repeat split.
Qed.

(** The remote calls of the death handler: nothing, or one [playerDied] for
    the local id, in which case the local player was respawned and reset. *)
Lemma handlePlayerDeath_outbox playerId killerId rnd s :
  ∃ died,
    outbox (handlePlayerDeath playerId killerId rnd s) = outbox s ++ died
    ∧ (died = []
       ∨ (died = [PlayerDied playerId killerId] ∧ playerId = myAccount s
          ∧ ∃ p, player s = Some p
                 ∧ player (handlePlayerDeath playerId killerId rnd s)
                   = Some (pl_reset (pl_setPosition rnd.1 rnd.2 p)))).
Proof.
  unfold handlePlayerDeath.
  destruct (decide _) as [Hme|];
    [|exists []; split; [by rewrite app_nil_r | by left]].
  destruct (player s) as [p|] eqn:Hp;
    [|exists []; split; [by rewrite app_nil_r | by left]].
  cbn [serverInitialized set_player].
  destruct (serverInitialized s);
    [|exists []; split; [by rewrite app_nil_r | by left]].
  unfold remoteFunction. cbn [server set_player].
  destruct (server s);
    [|exists []; split; [by rewrite app_nil_r | by left]].
  exists [PlayerDied playerId killerId]. split; [done|].
  right. split; [done|]. split; [done|]. by exists p.
Qed.

Lemma notifyPlayerHit_preserved t a pid s :
  preserved s (notifyPlayerHit t a pid s)
  ∧ hitPlayers (notifyPlayerHit t a pid s) = hitPlayers s
  ∧ damagedPlayers (notifyPlayerHit t a pid s) = damagedPlayers s
  ∧ projectiles (notifyPlayerHit t a pid s) = projectiles s
  ∧ otherPlayers (notifyPlayerHit t a pid s) = otherPlayers s
  ∧ player (notifyPlayerHit t a pid s) = player s.
Proof.
  unfold notifyPlayerHit. destruct (serverInitialized s);
    [|split; [apply preserved_refl | by repeat split]].
  split; [apply remoteFunction_preserved|].
  match goal with |- context [remoteFunction ?m ?s1] =>
    destruct (remoteFunction_fields m s1)
      as (-> & -> & -> & -> & _ & _ & _ & _ & _ & -> & _) end.
  by repeat split.
Qed.

Lemma notifyPlayerHit_outbox t a pid s :
  ∃ hit, outbox (notifyPlayerHit t a pid s) = outbox s ++ hit
         ∧ (hit = [] ∨ hit = [PlayerHit t a pid 10]).
Proof.
  unfold notifyPlayerHit, remoteFunction.
  destruct (serverInitialized s), (server s);
    try (exists []; split; [by rewrite app_nil_r | by left]).
  exists [PlayerHit t a pid 10]. split; [done | by right].
Qed.

Lemma handlePlayerHit_preserved t a pid rnd s :
  preserved s (handlePlayerHit t a pid rnd s)
  ∧ hitPlayers (handlePlayerHit t a pid rnd s) = hitPlayers s
  ∧ projectiles (handlePlayerHit t a pid rnd s) = projectiles s.
Proof.
  unfold handlePlayerHit.
  destruct (decide (t = myAccount s)) as [Hme|Hne].
  - destruct (player s) as [p|];
      [|split; [apply preserved_refl | done]].
    set (s1 := set_player (Some (pl_damage 10 p)) s).
    assert (preserved s s1 ∧ hitPlayers s1 = hitPlayers s
            ∧ projectiles s1 = projectiles s) as (Hp1 & Hh1 & Hj1)
      by (by repeat split).
    destruct (decide (pl_health (pl_damage 10 p) ≤ 0)).
    + destruct (handlePlayerDeath_preserved t a rnd s1)
        as (Hp2 & Hh2 & _ & Hj2 & _).
      destruct (notifyPlayerHit_preserved t a pid
                  (handlePlayerDeath t a rnd s1))
        as (Hp3 & Hh3 & _ & Hj3 & _).
      split; [eauto using preserved_trans | split; congruence].
    + destruct (notifyPlayerHit_preserved t a pid s1)
        as (Hp3 & Hh3 & _ & Hj3 & _).
      split; [eauto using preserved_trans | split; congruence].
  - destruct (otherPlayers s !! t) as [tp|] eqn:Ht.
    + match goal with |- context [notifyPlayerHit t a pid ?s2] =>
        destruct (notifyPlayerHit_preserved t a pid s2)
          as (Hp3 & Hh3 & _ & Hj3 & _); set (s2' := s2) in * end.
      assert (preserved s s2') as Hp2.
      { unfold preserved, registryIds, s2'. simpl.
        rewrite dom_insert_lookup_L by eauto. by repeat split. }
      split; [eauto using preserved_trans | by split].
    + destruct (notifyPlayerHit_preserved t a pid s)
        as (Hp3 & Hh3 & _ & Hj3 & _). split; [done | by split].
Qed.

(** The remote calls of one hit: an optional [playerDied], then an optional
    [playerHit].  A [playerDied] is only sent when the target is the local
    id and the damage brought the local health to 0 or below; the local
    player is then respawned at the drawn point and reset. *)
Lemma handlePlayerHit_outbox t a pid rnd s :
  ∃ died hit,
    outbox (handlePlayerHit t a pid rnd s) = outbox s ++ died ++ hit
    ∧ (hit = [] ∨ hit = [PlayerHit t a pid 10])
    ∧ (died = []
       ∨ (died = [PlayerDied (myAccount s) a] ∧ t = myAccount s
          ∧ ∃ p, player s = Some p ∧ pl_health (pl_damage 10 p) ≤ 0
                 ∧ player (handlePlayerHit t a pid rnd s)
                   = Some (pl_reset
                             (pl_setPosition rnd.1 rnd.2 (pl_damage 10 p))))).
Proof.
  unfold handlePlayerHit.
  destruct (decide (t = myAccount s)) as [Hme|Hne].
  - destruct (player s) as [p|] eqn:Hpl.
    2:{ exists [], []. rewrite !app_nil_r. split; [done|]. split; by left. }
    set (s1 := set_player (Some (pl_damage 10 p)) s).
    destruct (decide (pl_health (pl_damage 10 p) ≤ 0)) as [Hdead|Halive].
    + destruct (handlePlayerDeath_outbox t a rnd s1) as (died & Ed & Hd).
      destruct (notifyPlayerHit_outbox t a pid (handlePlayerDeath t a rnd s1))
        as (hit & Eh & Hh).
      destruct (notifyPlayerHit_preserved t a pid
                  (handlePlayerDeath t a rnd s1)) as (_ & _ & _ & _ & _ & Hpl').
      exists died, hit. rewrite Eh, Ed, <- app_assoc.
      split; [done|]. split; [done|].
      destruct Hd as [->|(-> & _ & p' & Hp' & Hres)]; [by left|].
      right. subst t. split; [done|]. split; [done|].
      exists p. split; [done|]. split; [done|].
      rewrite Hpl', Hres. simpl in Hp'. by injection Hp' as <-.
    + destruct (notifyPlayerHit_outbox t a pid s1) as (hit & Eh & Hh).
      exists [], hit. rewrite Eh. split; [done|]. split; [done | by left].
  - destruct (otherPlayers s !! t) as [tp|].
    + match goal with |- context [notifyPlayerHit t a pid ?s2] =>
        destruct (notifyPlayerHit_outbox t a pid s2) as (hit & Eh & Hh) end.
      exists [], hit. rewrite Eh. split; [done|]. split; [done | by left].
    + destruct (notifyPlayerHit_outbox t a pid s) as (hit & Eh & Hh).
      exists [], hit. rewrite Eh. split; [done|]. split; [done | by left].
Qed.

Lemma handlePlayerHit_sends Q t a pid rnd s :
  Q (PlayerHit t a pid 10) → Q (PlayerDied (myAccount s) a) →
  sends Q s (handlePlayerHit t a pid rnd s).
Proof.
  intros Hhit Hdied.
  destruct (handlePlayerHit_outbox t a pid rnd s)
    as (died & hit & E & Hh & Hd).
  exists (died ++ hit). split; [done|]. apply Forall_app. split.
  - destruct Hd as [->|(-> & _)]; by repeat constructor.
  - destruct Hh as [->| ->]; by repeat constructor.
Qed.

Lemma hitsReported_app me X s s' sent :
  outbox s' = outbox s ++ sent →
  hitsReported me X s'
  = (hitsReported me X s
     + length (filter (λ m, isHitOn me X m = true) sent))%nat.
Proof.
  intros E. unfold hitsReported. by rewrite E, filter_app, length_app.
Qed.

Lemma sends_no_hit me X s s' :
  sends (λ m, isHitOn me X m = false) s s' →
  hitsReported me X s' = hitsReported me X s.
Proof.
  intros (sent & E & Hall). rewrite (hitsReported_app me X s s' sent E).
  assert (filter (λ m, isHitOn me X m = true) sent = []) as ->;
    [|simpl; lia].
  clear E. induction Hall as [|m l Hm _ IH]; [done|].
  rewrite filter_cons_False; [done | congruence].
Qed.

(** One hit reports at most one [playerHit]. *)
Lemma handlePlayerHit_reports_once me X t a pid rnd s :
  (hitsReported me X (handlePlayerHit t a pid rnd s)
   ≤ hitsReported me X s + 1)%nat.
Proof.
  destruct (handlePlayerHit_outbox t a pid rnd s)
    as (died & hit & E & Hh & Hd).
  rewrite (hitsReported_app me X s _ _ E), filter_app, length_app.
  assert (filter (λ m, isHitOn me X m = true) died = []) as ->.
  { destruct Hd as [->|(-> & _)]; [done|].
    rewrite filter_cons_False; [done | simpl; congruence]. }
  destruct Hh as [->| ->]; [simpl; lia|].
  rewrite filter_cons. destruct (decide _); simpl; lia.
Qed.

(** *** The hitbox loop *)

Lemma meleeCheck_preserved tk s id :
  preserved s (meleeCheck tk s id)
  ∧ projectiles (meleeCheck tk s id) = projectiles s.
Proof.
  unfold meleeCheck.
  destruct (decide _); [split; [apply preserved_refl | done]|].
  destruct (tk_hitboxOverlaps tk id);
    [|split; [apply preserved_refl | done]].
  match goal with |- context [handlePlayerHit ?t ?a ?p ?r ?s1] =>
    destruct (handlePlayerHit_preserved t a p r s1) as (Hp & _ & Hj) end.
  split; [|done].
  eapply preserved_trans; [|exact Hp]. by repeat split.
Qed.

(** The gate: a callback of the hitbox loop never raises the budget of any
    target; it spends the target's own unit when it grants the hit. *)
Lemma meleeCheck_budget X tk s id :
  (hitBudget (myAccount s) X (meleeCheck tk s id)
   ≤ hitBudget (myAccount s) X s)%nat.
Proof.
  unfold meleeCheck.
  destruct (decide (id ∈ hitPlayers s)) as [Hin|Hout]; [done|].
  destruct (tk_hitboxOverlaps tk id); [|done].
  set (s1 := set_hitPlayers ({[id]} ∪ hitPlayers s) s).
  set (s' := handlePlayerHit id (myAccount s) "melee_attack"
               (tk_respawn tk id) s1).
  destruct (handlePlayerHit_preserved id (myAccount s) "melee_attack"
              (tk_respawn tk id) s1) as (_ & Hh & _).
  fold s' in Hh. unfold hitBudget. rewrite Hh.
  cbn [hitPlayers set_hitPlayers s1].
  destruct (decide (id = X)) as [->|Hne].
  - rewrite decide_True by set_solver. rewrite decide_False by done.
    pose proof (handlePlayerHit_reports_once (myAccount s) X X (myAccount s)
                  "melee_attack" (tk_respawn tk X) s1) as Hle.
    fold s' in Hle.
    change (hitsReported (myAccount s) X s1)
      with (hitsReported (myAccount s) X s) in Hle. lia.
  - assert (hitsReported (myAccount s) X s' = hitsReported (myAccount s) X s)
      as ->.
    { change (hitsReported (myAccount s) X s)
        with (hitsReported (myAccount s) X s1).
      apply sends_no_hit. apply handlePlayerHit_sends; simpl; [|done].
      rewrite bool_decide_eq_false_2 by done. done. }
    destruct (decide (X ∈ hitPlayers s)) as [Hx|Hx].
    + rewrite decide_True by set_solver. lia.
    + rewrite decide_False by set_solver. lia.
Qed.

Lemma meleeCheck_sends Q tk s id :
  (∀ t a pid, Q (PlayerHit t a pid 10)) →
  (∀ a, Q (PlayerDied (myAccount s) a)) →
  sends Q s (meleeCheck tk s id).
Proof.
  intros Hhit Hdied. unfold meleeCheck.
  destruct (decide _); [apply sends_refl|].
  destruct (tk_hitboxOverlaps tk id); [|apply sends_refl].
  eapply sends_trans;
    [|apply handlePlayerHit_sends; [apply Hhit | apply Hdied]].
  by apply sends_same_outbox.
Qed.

Lemma meleeFold tk ks s :
  preserved s (foldl (meleeCheck tk) s ks)
  ∧ projectiles (foldl (meleeCheck tk) s ks) = projectiles s
  ∧ (∀ X, (hitBudget (myAccount s) X (foldl (meleeCheck tk) s ks)
           ≤ hitBudget (myAccount s) X s)%nat)
  ∧ (∀ Q, (∀ t a pid, Q (PlayerHit t a pid 10)) →
          (∀ a, Q (PlayerDied (myAccount s) a)) →
          sends Q s (foldl (meleeCheck tk) s ks)).
Proof.
  revert s. induction ks as [|id ks IH]; intros s; cbn [foldl].
  - split; [apply preserved_refl|]. split; [done|].
    split; [done | intros; apply sends_refl].
  - destruct (IH (meleeCheck tk s id)) as (Hp & Hj & Hb & Hs).
    destruct (meleeCheck_preserved tk s id) as (Hp1 & Hj1).
    assert (myAccount (meleeCheck tk s id) = myAccount s) as Hme
      by apply Hp1.
    rewrite Hme in Hb, Hs.
    split; [eauto using preserved_trans|]. split; [congruence|]. split.
    + intros X. specialize (Hb X).
      pose proof (meleeCheck_budget X tk s id). lia.
    + intros Q Hhit Hdied.
      eapply sends_trans; [by apply meleeCheck_sends | by apply Hs].
Qed.

(** *** The projectile loop *)

Lemma projectileCheck_effect tk s entry :
  preserved s (projectileCheck tk s entry)
  ∧ hitPlayers (projectileCheck tk s entry) = hitPlayers s
  ∧ (∀ Q, (∀ a pid, a ≠ myAccount s → Q (PlayerHit (myAccount s) a pid 10)) →
          (∀ a, Q (PlayerDied (myAccount s) a)) →
          sends Q s (projectileCheck tk s entry)).
Proof.
  destruct entry as [id pr]. unfold projectileCheck.
  set (s1 := match player s with
             | Some _ => _
             | None => s
             end).
  assert (preserved s s1 ∧ hitPlayers s1 = hitPlayers s
          ∧ ∀ Q, (∀ a pid, a ≠ myAccount s →
                    Q (PlayerHit (myAccount s) a pid 10)) →
                 (∀ a, Q (PlayerDied (myAccount s) a)) → sends Q s s1)
    as (Hp1 & Hh1 & Hs1).
  { unfold s1. destruct (player s);
      [|split; [apply preserved_refl | split; [done | intros; apply sends_refl]]].
    destruct (decide _) as [Hown|];
      [|split; [apply preserved_refl | split; [done | intros; apply sends_refl]]].
    destruct (tk_overlapsPlayer tk id);
      [|split; [apply preserved_refl | split; [done | intros; apply sends_refl]]].
    destruct (handlePlayerHit_preserved (myAccount s) (proj_ownerId pr) id
                (tk_respawn tk id) s) as (Hp & Hh & _).
    split; [|split; [done|]].
    - eapply preserved_trans; [exact Hp|]. by repeat split.
    - intros Q Hhit Hdied. eapply sends_trans.
      + apply handlePlayerHit_sends; [by apply Hhit | apply Hdied].
      + by apply sends_same_outbox. }
  set (s2 := if tk_overlapsObstacles tk id then _ else s1).
  assert (preserved s1 s2 ∧ hitPlayers s2 = hitPlayers s1
          ∧ outbox s2 = outbox s1) as (Hp2 & Hh2 & Ho2).
  { unfold s2. destruct (tk_overlapsObstacles tk id); by repeat split. }
  match goal with |- context [if ?c then ?a else ?b] =>
    set (s3 := if c then a else b) end.
  assert (preserved s2 s3 ∧ hitPlayers s3 = hitPlayers s2
          ∧ outbox s3 = outbox s2) as (Hp3 & Hh3 & Ho3).
  { unfold s3. case_decide; by repeat split. }
  split; [eauto using preserved_trans|]. split; [congruence|].
  intros Q Hhit Hdied.
  eapply sends_trans; [by apply Hs1|].
  apply sends_same_outbox. congruence.
Qed.

Lemma projectileFold tk entries s :
  preserved s (foldl (projectileCheck tk) s entries)
  ∧ hitPlayers (foldl (projectileCheck tk) s entries) = hitPlayers s
  ∧ (∀ Q, (∀ a pid, a ≠ myAccount s → Q (PlayerHit (myAccount s) a pid 10)) →
          (∀ a, Q (PlayerDied (myAccount s) a)) →
          sends Q s (foldl (projectileCheck tk) s entries)).
Proof.
  revert s. induction entries as [|entry entries IH]; intros s; cbn [foldl].
  - split; [apply preserved_refl|]. split; [done|].
    intros; apply sends_refl.
  - destruct (IH (projectileCheck tk s entry)) as (Hp & Hh & Hs).
    destruct (projectileCheck_effect tk s entry) as (Hp1 & Hh1 & Hs1).
    assert (myAccount (projectileCheck tk s entry) = myAccount s) as Hme
      by apply Hp1.
    rewrite Hme in Hs.
    split; [eauto using preserved_trans|]. split; [congruence|].
    intros Q Hhit Hdied.
    eapply sends_trans; [by apply Hs1 | by apply Hs].
Qed.

(** *** The frame update *)

Lemma hitBudget_same me X s s' :
  outbox s' = outbox s → hitPlayers s' = hitPlayers s →
  hitBudget me X s' = hitBudget me X s.
Proof. intros Ho Hh. unfold hitBudget, hitsReported. by rewrite Ho, Hh. Qed.

Lemma hitBudget_no_hit me X s s' :
  sends (λ m, isHitOn me X m = false) s s' → hitPlayers s' = hitPlayers s →
  hitBudget me X s' = hitBudget me X s.
Proof.
  intros Hs Hh. unfold hitBudget. by rewrite (sends_no_hit _ _ _ _ Hs), Hh.
Qed.

Lemma updatePlayerOnServer_effect s :
  preserved s (updatePlayerOnServer s)
  ∧ hitPlayers (updatePlayerOnServer s) = hitPlayers s
  ∧ attackHitbox (updatePlayerOnServer s) = attackHitbox s
  ∧ (∀ Q, (∀ x y a h n, Q (UpdatePlayerPosition x y a h n)) →
          sends Q s (updatePlayerOnServer s)).
Proof.
  unfold updatePlayerOnServer.
  destruct (player s), (server s) eqn:Hsv;
    try (split; [apply preserved_refl|];
         split; [done|]; split; [done|]; intros; apply sends_refl).
  destruct (serverInitialized s);
    [|split; [apply preserved_refl|];
      split; [done|]; split; [done|]; intros; apply sends_refl].
  split; [apply remoteFunction_preserved|].
  match goal with |- context [remoteFunction ?m ?s1] =>
    destruct (remoteFunction_fields m s1)
      as (_ & _ & _ & -> & _ & _ & _ & _ & _ & _ & _ & ->) end.
  split; [done|]. split; [done|].
  intros Q HQ. by apply remoteFunction_sends.
Qed.

Lemma handleSpacebarAttack_effect now s :
  preserved s (handleSpacebarAttack now s)
  ∧ (∀ Q, (∀ i x y d o n, Q (PlayerAttack i x y d o n)) →
          sends Q s (handleSpacebarAttack now s)).
Proof.
  unfold handleSpacebarAttack.
  destruct (player s); [|split; [apply preserved_refl | intros; apply sends_refl]].
  destruct (serverInitialized s);
    [|split; [apply preserved_refl | intros; apply sends_refl]].
  cbn [negb]. split.
  - eapply preserved_trans; [|apply remoteFunction_preserved].
    by repeat split.
  - intros Q HQ. eapply sends_trans; [|apply remoteFunction_sends, HQ].
    by apply sends_same_outbox.
Qed.

Lemma pushPosition_effect time s :
  preserved s (pushPosition time s)
  ∧ hitPlayers (pushPosition time s) = hitPlayers s
  ∧ (∀ Q, (∀ x y a h n, Q (UpdatePlayerPosition x y a h n)) →
          sends Q s (pushPosition time s)).
Proof.
  unfold pushPosition.
  destruct (_ && _);
    [|split; [apply preserved_refl|];
      split; [done | intros; apply sends_refl]].
  destruct (updatePlayerOnServer_effect s) as (Hp & Hh & _ & Hs).
  split; [|split; [done|]].
  - eapply preserved_trans; [exact Hp|]. by repeat split.
  - intros Q HQ. eapply sends_trans; [by apply Hs|].
    by apply sends_same_outbox.
Qed.

Lemma checkAttackKey_effect tk s :
  preserved s (checkAttackKey tk s)
  ∧ (∀ Q, (∀ i x y d o n, Q (PlayerAttack i x y d o n)) →
          sends Q s (checkAttackKey tk s)).
Proof.
  unfold checkAttackKey.
  destruct (_ && _ && _);
    [|split; [apply preserved_refl | intros; apply sends_refl]].
  apply handleSpacebarAttack_effect.
Qed.

Lemma pushPosition_keys time s :
  spaceKey (pushPosition time s) = spaceKey s
  ∧ attackCooldown (pushPosition time s) = attackCooldown s.
Proof.
  unfold pushPosition, updatePlayerOnServer, remoteFunction.
  destruct (_ && _); [|done].
  destruct (player s), (server s); try done.
  by destruct (serverInitialized s).
Qed.

Lemma checkAttackKey_idle tk s :
  ¬ (spaceKey s = true ∧ tk_spaceJustDown tk = true
     ∧ attackCooldown s = false) →
  checkAttackKey tk s = s.
Proof.
  intros Hno. unfold checkAttackKey.
  destruct (spaceKey s), (tk_spaceJustDown tk), (attackCooldown s);
    try done.
  exfalso. by apply Hno.
Qed.

Lemma checkHitbox_effect tk s :
  preserved s (checkHitbox tk s)
  ∧ (∀ X, (hitBudget (myAccount s) X (checkHitbox tk s)
           ≤ hitBudget (myAccount s) X s)%nat)
  ∧ (∀ Q, (∀ t a pid, Q (PlayerHit t a pid 10)) →
          (∀ a, Q (PlayerDied (myAccount s) a)) →
          sends Q s (checkHitbox tk s)).
Proof.
  unfold checkHitbox, meleePass.
  destruct (attackHitbox s).
  - destruct (meleeFold tk (map_to_list (otherPlayers s)).*1 s)
      as (Hp & _ & Hb & Hs). done.
  - split; [apply preserved_refl|].
    split; [done | intros; apply sends_refl].
Qed.

Lemma preserved_myAccount s s' : preserved s s' → myAccount s' = myAccount s.
Proof. by intros (? & _). Qed.

Lemma update_effect time tk s :
  preserved s (update time tk s)
  ∧ (∀ Q, (∀ x y a h n, Q (UpdatePlayerPosition x y a h n)) →
          (∀ i x y d o n, Q (PlayerAttack i x y d o n)) →
          (∀ t a pid, Q (PlayerHit t a pid 10)) →
          (∀ a, Q (PlayerDied (myAccount s) a)) →
          sends Q s (update time tk s)).
Proof.
  unfold update.
  set (s1 := match player s with Some _ => _ | None => s end).
  assert (preserved s s1
          ∧ ∀ Q, (∀ x y a h n, Q (UpdatePlayerPosition x y a h n)) →
                 (∀ i x y d o n, Q (PlayerAttack i x y d o n)) →
                 (∀ t a pid, Q (PlayerHit t a pid 10)) →
                 (∀ a, Q (PlayerDied (myAccount s) a)) → sends Q s s1)
    as (Hp1 & Hs1).
  { unfold s1. destruct (player s) as [p|];
      [|split; [apply preserved_refl | intros; apply sends_refl]].
    set (a := set_player (Some (tk_localUpdate tk p)) s).
    assert (preserved s a ∧ outbox a = outbox s) as (Hpa & Hoa)
      by (by repeat split).
    destruct (pushPosition_effect time a) as (Hpb & _ & Hsb).
    destruct (checkAttackKey_effect tk (pushPosition time a)) as (Hpc & Hsc).
    destruct (checkHitbox_effect tk (checkAttackKey tk (pushPosition time a)))
      as (Hpd & _ & Hsd).
    rewrite (preserved_myAccount _ _ Hpc), (preserved_myAccount _ _ Hpb),
      (preserved_myAccount _ _ Hpa) in Hsd.
    split; [eauto using preserved_trans|].
    intros Q HU HA HH HD.
    eapply sends_trans; [by apply sends_same_outbox|].
    eapply sends_trans; [by apply Hsb|].
    eapply sends_trans; [by apply Hsc | by apply Hsd]. }
  set (s2 := set_otherPlayers _ s1).
  assert (preserved s1 s2 ∧ outbox s2 = outbox s1) as (Hp2 & Ho2).
  { unfold s2, preserved, registryIds. cbn. rewrite dom_fmap_L.
    by repeat split. }
  destruct (projectileFold tk (map_to_list (projectiles s2)) s2)
    as (Hp3 & _ & Hs3).
  rewrite (preserved_myAccount _ _ Hp2), (preserved_myAccount _ _ Hp1) in Hs3.
  unfold projectilePass.
  split; [eauto using preserved_trans|].
  intros Q HU HA HH HD.
  eapply sends_trans; [by apply Hs1|].
  eapply sends_trans; [by apply sends_same_outbox|].
  apply Hs3; [intros; apply HH | done].
Qed.

(** A frame that does not reach [handleSpacebarAttack] never raises the
    budget of any target. *)
Lemma update_budget X time tk s :
  ¬ callsAttack s (Update time tk) →
  (hitBudget (myAccount s) X (update time tk s)
   ≤ hitBudget (myAccount s) X s)%nat.
Proof.
  intros Hno. unfold update.
  set (s1 := match player s with Some _ => _ | None => s end).
  assert (myAccount s1 = myAccount s
          ∧ (hitBudget (myAccount s) X s1
             ≤ hitBudget (myAccount s) X s)%nat) as (Hme1 & Hb1).
  { unfold s1. destruct (player s) as [p|] eqn:Hpl; [|done].
    set (a := set_player (Some (tk_localUpdate tk p)) s).
    rewrite (checkAttackKey_idle tk (pushPosition time a)).
    2:{ destruct (pushPosition_keys time a) as [-> ->].
        intros (Hk & Hd & Hc). apply Hno. cbn. rewrite Hpl. eauto. }
    destruct (pushPosition_effect time a) as (Hpb & Hhb & Hsb).
    destruct (checkHitbox_effect tk (pushPosition time a)) as (Hpd & Hbd & _).
    assert (myAccount (pushPosition time a) = myAccount s) as Hmb
      by apply Hpb.
    split; [by rewrite (preserved_myAccount _ _ Hpd)|].
    specialize (Hbd X). rewrite Hmb in Hbd.
    assert (hitBudget (myAccount s) X (pushPosition time a)
            = hitBudget (myAccount s) X s) as Hbb.
    { change (hitBudget (myAccount s) X s)
        with (hitBudget (myAccount s) X a).
      apply hitBudget_no_hit; [by apply Hsb | done]. }
    lia. }
  set (s2 := set_otherPlayers _ s1).
  destruct (projectileFold tk (map_to_list (projectiles s2)) s2)
    as (_ & Hh3 & Hs3).
  unfold projectilePass.
  rewrite (hitBudget_no_hit (myAccount s) X s2); [done| |done].
  apply Hs3; [|done].
  intros a pid Ha. simpl.
  change (myAccount s2) with (myAccount s1) in *. rewrite Hme1 in *.
  rewrite (bool_decide_eq_false_2 (a = myAccount s)) by done.
  apply andb_false_r.
Qed.

(** *** The remaining methods *)

Lemma quiet_steady s s' : quiet s s' → steady s s'.
Proof.
  intros ((Hme & _ & _ & Hoc & _) & Hh & Ho).
  repeat split; try done. by rewrite Hoc.
Qed.

Lemma handleProjectileFired_quiet data active physics now s :
  quiet s (handleProjectileFired data active physics now s).
Proof.
  unfold handleProjectileFired.
  destruct (_ || _); [by repeat split|].
  destruct (decide _); by repeat split.
Qed.

Lemma projectileCollided_quiet id s : quiet s (projectileCollided id s).
Proof. by repeat split. Qed.

Lemma handlePowerupSpawned_quiet data active s :
  quiet s (handlePowerupSpawned data active s).
Proof.
  unfold handlePowerupSpawned.
  destruct (_ || _); [by repeat split|].
  destruct (powerups s); by repeat split.
Qed.

Lemma syncPowerups_quiet l s :
  quiet s (syncPowerups l s)
  ∧ colliders (syncPowerups l s) = colliders s.
Proof.
  unfold syncPowerups.
  destruct (powerups s); [|by repeat split].
  destruct (negb _); by repeat split.
Qed.

Lemma hitboxTimer_quiet s : quiet s (hitboxTimer s).
Proof. unfold hitboxTimer. destruct (attackHitbox s); by repeat split. Qed.

Lemma cooldownTimer_quiet s : quiet s (cooldownTimer s).
Proof. by repeat split. Qed.

Lemma createObstaclesFromServer_steady obstacleData s :
  steady s (createObstaclesFromServer obstacleData s)
  ∧ registryIds (createObstaclesFromServer obstacleData s) = registryIds s.
Proof.
  unfold createObstaclesFromServer.
  destruct (_ || _) eqn:Hguard; [by repeat split|].
  apply orb_false_iff in Hguard as [_ Hoc].
  cbn [player createBorderObstacles set_obstacles].
  destruct (player s); repeat split; try done; cbn; congruence.
Qed.

Lemma onRoomState_steady state s :
  steady s (onRoomState state s)
  ∧ registryIds (onRoomState state s) = registryIds s.
Proof.
  unfold onRoomState.
  destruct state as [st|]; [|by repeat split].
  destruct (rs_obstacles st); [|by repeat split].
  destruct (negb _); [|by repeat split].
  apply createObstaclesFromServer_steady.
Qed.

Lemma steady_trans s1 s2 s3 : steady s1 s2 → steady s2 s3 → steady s1 s3.
Proof.
  intros (a1 & a2 & a3 & a4) (b1 & b2 & b3 & b4).
  repeat split; try congruence. auto.
Qed.

Lemma updateRoomState_steady roomState s :
  steady s (updateRoomState roomState s)
  ∧ registryIds (updateRoomState roomState s) = registryIds s.
Proof.
  unfold updateRoomState.
  set (s1 := match rs_powerups roomState with
             | Some l => syncPowerups l s
             | None => s
             end).
  assert (quiet s s1) as Hq.
  { unfold s1. destruct (rs_powerups roomState);
      [apply syncPowerups_quiet | by repeat split]. }
  assert (registryIds s1 = registryIds s) as Hr by apply Hq.
  apply quiet_steady in Hq.
  destruct (rs_obstacles roomState) as [obs|]; [|done].
  destruct (negb _); [|done].
  destruct (createObstaclesFromServer_steady obs s1) as [Hs Hr2].
  split; [eauto using steady_trans | congruence].
Qed.

Lemma applyAll_flag l s :
  obstaclesCreated (foldl applyPlayerState s l) = obstaclesCreated s.
Proof.
  revert s. induction l as [|e l IH]; intros s; [done|].
  cbn [foldl]. rewrite IH. unfold applyPlayerState.
  destruct (decide _); [done|].
  destruct (ps_x e), (ps_y e); try done.
  destruct (otherPlayers s !! ps_account e); [done|].
  pose proof (getUniqueColorIndex_fields (ps_account e) s) as Hf.
  destruct (getUniqueColorIndex (ps_account e) s) as [i s1].
  simpl in Hf. destruct Hf as (_ & _ & _ & Hoc & _).
  cbn. destruct (obstaclesCreated s1) eqn:E; cbn; congruence.
Qed.

Lemma removeDeparted_flag cur ks s :
  obstaclesCreated (foldl (removeIfDeparted cur) s ks) = obstaclesCreated s.
Proof.
  revert s. induction ks as [|a ks IH]; intros s; [done|].
  cbn [foldl]. rewrite IH. unfold removeIfDeparted.
  by destruct (decide _).
Qed.

Lemma updatePlayerStates_steady playerStates s :
  steady s (updatePlayerStates playerStates s).
Proof.
  destruct playerStates as [l|]; [|by repeat split].
  unfold updatePlayerStates, steady.
  match goal with |- context [foldl (removeIfDeparted ?c) ?s1 ?ks] =>
    destruct (removeDeparted_fields c ks s1) as (-> & -> & -> & _);
    rewrite (removeDeparted_flag c ks s1) end.
  destruct (applyAll_fields l s) as (-> & _ & -> & -> & _).
  rewrite applyAll_flag. by repeat split.
Qed.

Lemma create_effect rx ry s :
  myAccount (create rx ry s) = myAccount s
  ∧ registryIds (create rx ry s) = registryIds s
  ∧ hitPlayers (create rx ry s) = hitPlayers s
  ∧ obstaclesCreated (create rx ry s) = obstaclesCreated s
  ∧ (∀ Q, (∀ x y a h n, Q (UpdatePlayerPosition x y a h n)) →
          sends Q s (create rx ry s)).
Proof.
  unfold create. set (s4 := set_spaceKey true _).
  change (serverInitialized s4) with (serverInitialized s).
  destruct (serverInitialized s).
  - destruct (updatePlayerOnServer_effect s4)
      as ((Hme & Hr & _ & Hoc & _) & Hh & _ & Hs).
    split; [exact Hme|]. split; [exact Hr|]. split; [exact Hh|].
    split; [exact Hoc|].
    intros Q HQ. specialize (Hs Q HQ).
    destruct Hs as (sent & E & Hall). exists sent. split; [exact E|done].
  - repeat split. intros. by apply sends_same_outbox.
Qed.

Lemma setGameData_effect data active s :
  registryIds (setGameData data active s) = registryIds s
  ∧ obstaclesCreated (setGameData data active s) = obstaclesCreated s
  ∧ (∀ Q, (∀ x y a h n, Q (UpdatePlayerPosition x y a h n)) →
          sends Q s (setGameData data active s)).
Proof.
  unfold setGameData.
  destruct (JS.strTruthy _);
    [|repeat split; intros; by apply sends_same_outbox].
  destruct active;
    [|repeat split; intros; by apply sends_same_outbox].
  match goal with |- context [updatePlayerOnServer ?s1] =>
    destruct (updatePlayerOnServer_effect s1)
      as ((_ & Hr & _ & Hoc & _) & _ & _ & Hs) end.
  split; [exact Hr|]. split; [exact Hoc|].
  intros Q HQ. specialize (Hs Q HQ).
  destruct Hs as (sent & E & Hall). exists sent. split; [exact E|done].
Qed.

(** *** Steps and runs *)

Lemma step_myAccount s e :
  keepsAccount e → myAccount (step s e) = myAccount s.
Proof.
  destruct e; cbn [step keepsAccount]; intros Hk.
  - done.
  - apply create_effect.
  - apply update_effect.
  - apply handleProjectileFired_quiet.
  - done.
  - apply handlePowerupSpawned_quiet.
  - apply onRoomState_steady.
  - apply updateRoomState_steady.
  - apply updatePlayerStates_steady.
  - apply hitboxTimer_quiet.
  - done.
Qed.

Lemma step_flag s e :
  obstaclesCreated s = true → obstaclesCreated (step s e) = true.
Proof.
  intros Hoc. destruct e; cbn [step].
  - destruct (setGameData_effect data sceneActive s) as (_ & -> & _). done.
  - destruct (create_effect rx ry s) as (_ & _ & _ & -> & _). done.
  - destruct (update_effect time tk s) as ((_ & _ & _ & -> & _) & _). done.
  - destruct (handleProjectileFired_quiet data sceneActive physics now s)
      as ((_ & _ & _ & -> & _) & _). done.
  - done.
  - destruct (handlePowerupSpawned_quiet data sceneActive s)
      as ((_ & _ & _ & -> & _) & _). done.
  - by apply onRoomState_steady.
  - by apply updateRoomState_steady.
  - by apply updatePlayerStates_steady.
  - destruct (hitboxTimer_quiet s) as ((_ & _ & _ & -> & _) & _). done.
  - done.
Qed.

Lemma run_flag s events :
  obstaclesCreated s = true → obstaclesCreated (run s events) = true.
Proof.
  revert s. induction events as [|e events IH]; intros s Hoc; [done|].
  apply IH. by apply step_flag.
Qed.

Lemma step_budget X s e :
  betweenAttacks s e →
  myAccount (step s e) = myAccount s
  ∧ (hitBudget (myAccount s) X (step s e)
     ≤ hitBudget (myAccount s) X s)%nat.
Proof.
  intros [Hk Hb].
  split; [by apply step_myAccount|].
  assert (∀ s', steady s s' →
            (hitBudget (myAccount s) X s' ≤ hitBudget (myAccount s) X s)%nat)
    as Hsteady.
  { intros s' (_ & Hh & Ho & _). by rewrite (hitBudget_same _ _ s s'). }
  destruct e; cbn [step keepsAccount] in *.
  - done.
  - destruct (create_effect rx ry s) as (_ & _ & Hh & _ & Hs).
    rewrite (hitBudget_no_hit (myAccount s) X s); [done| |done].
    by apply Hs.
  - by apply update_budget.
  - apply Hsteady, quiet_steady, handleProjectileFired_quiet.
  - apply Hsteady, quiet_steady, projectileCollided_quiet.
  - apply Hsteady, quiet_steady, handlePowerupSpawned_quiet.
  - apply Hsteady, onRoomState_steady.
  - apply Hsteady, updateRoomState_steady.
  - apply Hsteady, updatePlayerStates_steady.
  - apply Hsteady, quiet_steady, hitboxTimer_quiet.
  - apply Hsteady, quiet_steady, cooldownTimer_quiet.
Qed.

Lemma run_budget X events s :
  attackFree s events →
  (hitBudget (myAccount s) X (run s events)
   ≤ hitBudget (myAccount s) X s)%nat.
Proof.
  revert s. induction events as [|e events IH]; intros s Hfree; [done|].
  destruct Hfree as [He Hrest].
  cbn [run foldl]. destruct (step_budget X s e He) as (Hme & Hle).
  specialize (IH (step s e) Hrest). rewrite Hme in IH. unfold run in IH. lia.
Qed.

(** C4. Between two attacks (no frame reaches [handleSpacebarAttack]),
    however many frames run their overlap checks and whatever else
    happens, at most one hit on a given target is routed, and none when the
    target is already in the hit set; a granted hit puts the target into
    the hit set; spawning an attack empties the hit set. *)
Theorem hit_granted_at_most_once (X : string) (s : Scene P)
  (events : list (Event P)) :
  attackFree s events →
  (hitsReported (myAccount s) X (run s events)
   ≤ hitsReported (myAccount s) X s + 1)%nat
  ∧ (X ∈ hitPlayers s →
     (hitsReported (myAccount s) X (run s events)
      ≤ hitsReported (myAccount s) X s)%nat)
  ∧ (∀ tk, tk_hitboxOverlaps tk X = true → X ∈ hitPlayers (meleeCheck tk s X))
  ∧ (∀ now, is_Some (player s) → serverInitialized s = true →
       hitPlayers (handleSpacebarAttack now s) = ∅).
Proof.
  intros Hall. pose proof (run_budget X events s Hall) as Hb.
  unfold hitBudget in Hb. split; [|split; [|split]].
  - destruct (decide (X ∈ hitPlayers s)),
             (decide (X ∈ hitPlayers (run s events))); lia.
  - intros Hin. rewrite (decide_True _ _ Hin) in Hb.
    destruct (decide (X ∈ hitPlayers (run s events))); lia.
  - intros tk Hov. unfold meleeCheck.
    destruct (decide (X ∈ hitPlayers s)) as [Hin|Hout]; [done|].
    rewrite Hov.
    match goal with |- context [handlePlayerHit ?t ?a ?p ?r ?s1] =>
      destruct (handlePlayerHit_preserved t a p r s1) as (_ & -> & _) end.
    cbn. set_solver.
  - intros now [p Hp] Hsi. unfold handleSpacebarAttack.
    rewrite Hp, Hsi. cbn [negb].
    match goal with |- context [remoteFunction ?m ?s1] =>
      destruct (remoteFunction_fields m s1) as (_ & _ & _ & -> & _) end.
    done.
Qed.

(** C9. Every event other than a change of session data keeps the local id
    out of the registry; this covers roster snapshots, damage to registered
    players and the per-frame update of the registry. *)
Theorem local_id_never_registered (s : Scene P) (e : Event P) :
  keepsAccount e →
  myAccount s ∉ registryIds s →
  myAccount (step s e) ∉ registryIds (step s e).
Proof.
  intros Hk Hinv. rewrite (step_myAccount s e Hk).
  destruct e; cbn [step keepsAccount] in *.
  - done.
  - by destruct (create_effect rx ry s) as (_ & -> & _).
  - by destruct (update_effect time tk s) as ((_ & -> & _) & _).
  - by destruct (handleProjectileFired_quiet data sceneActive physics now s)
      as ((_ & -> & _) & _).
  - done.
  - by destruct (handlePowerupSpawned_quiet data sceneActive s)
      as ((_ & -> & _) & _).
  - by destruct (onRoomState_steady state s) as (_ & ->).
  - by destruct (updateRoomState_steady roomState s) as (_ & ->).
  - destruct playerStates as [l|]; [|done].
    rewrite updatePlayerStates_registry. set_solver.
  - by destruct (hitboxTimer_quiet s) as ((_ & -> & _) & _).
  - done.
Qed.



End Combat.

(** ** Projectile lifetime *)

Section Projectiles.

Context {P : Type} {ops : PlayerOps P}.
Implicit Types (s : Scene P) (tk : Tick P).


(** A callback of the projectile loop deletes its own entry or nothing, and
    deletes it when the projectile is older than 2000 ms. *)
Lemma projectileCheck_projectiles tk s id pr :
  (projectiles (projectileCheck tk s (id, pr)) = projectiles s
   ∨ projectiles (projectileCheck tk s (id, pr)) = delete id (projectiles s))
  ∧ (tk_dateNow tk id - proj_creationTime pr > 2000 →
     projectiles (projectileCheck tk s (id, pr)) = delete id (projectiles s)).
Proof.
  unfold projectileCheck.
  set (s1 := match player s with Some _ => _ | None => s end).
  assert (projectiles s1 = projectiles s
          ∨ projectiles s1 = delete id (projectiles s)) as H1.
  { unfold s1. destruct (player s); [|by left].
    destruct (decide _); [|by left].
    destruct (tk_overlapsPlayer tk id); [|by left].
    right. cbn.
    by destruct (handlePlayerHit_preserved (myAccount s) (proj_ownerId pr) id
                   (tk_respawn tk id) s) as (_ & _ & ->). }
  set (s2 := if tk_overlapsObstacles tk id then _ else s1).
  assert (projectiles s2 = projectiles s
          ∨ projectiles s2 = delete id (projectiles s)) as H2.
  { unfold s2. destruct (tk_overlapsObstacles tk id); [|done].
    right. cbn. destruct H1 as [-> | ->]; [done|].
    apply delete_delete_eq. }
  case_decide as Hage.
  - cbn. assert (delete id (projectiles s2) = delete id (projectiles s)) as ->.
    { destruct H2 as [-> | ->]; [done | apply delete_delete_eq]. }
    split; [by right | done].
  - split; [done | by intros].
Qed.


Lemma update_projectiles_before_pass time tk s :
  let s1 :=
    match player s with
    | Some p =>
        checkHitbox tk
          (checkAttackKey tk
             (pushPosition time (set_player (Some (tk_localUpdate tk p)) s)))
    | None => s
    end in
  projectiles s1 = projectiles s.
Proof.
  cbn zeta. destruct (player s) as [p|]; [|done].
  set (a := set_player (Some (tk_localUpdate tk p)) s).
  assert (projectiles (pushPosition time a) = projectiles s) as Hb.
  { unfold pushPosition, updatePlayerOnServer. destruct (_ && _); [|done].
    destruct (player a), (server a); try done.
    destruct (serverInitialized a); [|done]. cbn.
    match goal with |- context [remoteFunction ?m ?s1] =>
      by destruct (remoteFunction_fields m s1) as (_ & _ & -> & _) end. }
  assert (projectiles (checkAttackKey tk (pushPosition time a))
          = projectiles s) as Hc.
  { rewrite <- Hb. unfold checkAttackKey, handleSpacebarAttack.
    destruct (_ && _ && _); [|done].
    destruct (player _); [|done]. destruct (negb _); [done|].
    match goal with |- context [remoteFunction ?m ?s1] =>
      by destruct (remoteFunction_fields m s1) as (_ & _ & -> & _) end. }
  rewrite <- Hc. unfold checkHitbox, meleePass.
  destruct (attackHitbox _); [|done].
  apply meleeFold.
Qed.


End Projectiles.

(** ** World bootstrap *)

Section Bootstrap.

Context {P : Type} {ops : PlayerOps P}.
Implicit Types (s : Scene P).

Lemma createObstaclesFromServer_done obstacleData s :
  obstaclesCreated s = true → createObstaclesFromServer obstacleData s = s.
Proof.
  intros Hoc. unfold createObstaclesFromServer.
  by rewrite Hoc, orb_true_r.
Qed.

Lemma onRoomState_done state s :
  obstaclesCreated s = true → onRoomState state s = s.
Proof.
  intros Hoc. unfold onRoomState.
  destruct state as [st|]; [|done].
  destruct (rs_obstacles st); [|done]. by rewrite Hoc.
Qed.

(** The first bootstrap, with the assets loaded and the local player
    created: border first, then the server's blocks, and the flag is set. *)
Lemma createObstaclesFromServer_first obstacleData s :
  assetsLoaded s = true → obstaclesCreated s = false → is_Some (player s) →
  obstacles (createObstaclesFromServer obstacleData s)
  = borderObstacles ++ serverObstacles obstacleData
  ∧ obstaclesCreated (createObstaclesFromServer obstacleData s) = true.
Proof.
  intros Ha Hoc [p Hp]. unfold createObstaclesFromServer.
  rewrite Ha, Hoc. cbn. by rewrite Hp.
Qed.

(** C6. Once the bootstrap flag is set, whatever happens next the flag
    stays set, and a later bootstrap attempt, direct or through either
    room-state path and with any obstacle list, leaves the geometry and
    its colliders as they are (the direct call and the subscription
    callback leave the whole scene as it is). *)
Theorem bootstrap_happens_once (s : Scene P) (events : list (Event P)) :
  obstaclesCreated s = true →
  obstaclesCreated (run s events) = true
  ∧ (∀ obstacleData,
       createObstaclesFromServer obstacleData (run s events) = run s events)
  ∧ (∀ state, onRoomState state (run s events) = run s events)
  ∧ (∀ roomState,
       obstacles (updateRoomState roomState (run s events))
       = obstacles (run s events)
       ∧ colliders (updateRoomState roomState (run s events))
         = colliders (run s events)
       ∧ obstaclesCreated (updateRoomState roomState (run s events)) = true).
Proof.
  intros Hoc. pose proof (run_flag s events Hoc) as Hrun.
  split; [done|]. split; [|split].
  - intros. by apply createObstaclesFromServer_done.
  - intros. by apply onRoomState_done.
  - intros roomState. unfold updateRoomState.
    set (s1 := match rs_powerups roomState with
               | Some l => syncPowerups l (run s events)
               | None => run s events
               end).
    assert (obstacles s1 = obstacles (run s events)
            ∧ colliders s1 = colliders (run s events)
            ∧ obstaclesCreated s1 = true) as (Ho & Hc & Hf).
    { unfold s1. destruct (rs_powerups roomState); [|done].
      destruct (syncPowerups_quiet l (run s events))
        as (((_ & _ & -> & -> & _) & _) & ->). done. }
    destruct (rs_obstacles roomState); [|done].
    by rewrite Hf.
Qed.

End Bootstrap.

(** ** The health overlay *)

Section Overlay.

Context {P : Type} {ops : PlayerOps P}.
Implicit Types (s : Scene P) (X : string).

(** Goals stating that a method leaves a field alone: unfold the remote
    call, split on the guards, compute. *)
Ltac same_field :=
  unfold remoteFunction;
  repeat match goal with
         | |- context [match ?x with _ => _ end] => destruct x eqn:?
         end;
  try reflexivity.

Lemma updatePlayerOnServer_overlay s :
  damagedPlayers (updatePlayerOnServer s) = damagedPlayers s.
Proof. unfold updatePlayerOnServer. same_field. Qed.

Lemma handlePlayerHit_overlay X t a pid rnd s :
  is_Some (damagedPlayers s !! X) →
  is_Some (damagedPlayers (handlePlayerHit t a pid rnd s) !! X).
Proof.
  intros Hx. unfold handlePlayerHit.
  destruct (decide (t = myAccount s)).
  - destruct (player s) as [p|]; [|done].
    match goal with |- context [notifyPlayerHit t a pid ?s2] =>
      destruct (notifyPlayerHit_preserved t a pid s2) as (_ & _ & -> & _) end.
    destruct (decide _); [|done].
    match goal with |- context [handlePlayerDeath t a rnd ?s1] =>
      by destruct (handlePlayerDeath_preserved t a rnd s1)
        as (_ & _ & -> & _) end.
  - destruct (otherPlayers s !! t).
    + match goal with |- context [notifyPlayerHit t a pid ?s2] =>
        destruct (notifyPlayerHit_preserved t a pid s2)
          as (_ & _ & -> & _) end.
      cbn. apply lookup_insert_is_Some. destruct (decide (t = X)); auto.
    + by destruct (notifyPlayerHit_preserved t a pid s) as (_ & _ & -> & _).
Qed.

Lemma meleeFold_overlay X tk ks s :
  is_Some (damagedPlayers s !! X) →
  is_Some (damagedPlayers (foldl (meleeCheck tk) s ks) !! X).
Proof.
  revert s. induction ks as [|id ks IH]; intros s Hx; [done|].
  cbn [foldl]. apply IH. unfold meleeCheck.
  destruct (decide _); [done|]. destruct (tk_hitboxOverlaps tk id); [|done].
  by apply handlePlayerHit_overlay.
Qed.

Lemma projectileFold_overlay X tk entries s :
  is_Some (damagedPlayers s !! X) →
  is_Some (damagedPlayers (foldl (projectileCheck tk) s entries) !! X).
Proof.
  revert s. induction entries as [|[id pr] entries IH]; intros s Hx; [done|].
  cbn [foldl]. apply IH. unfold projectileCheck.
  set (s1 := match player s with Some _ => _ | None => s end).
  assert (is_Some (damagedPlayers s1 !! X)) as H1.
  { unfold s1. destruct (player s); [|done].
    destruct (decide _); [|done].
    destruct (tk_overlapsPlayer tk id); [|done].
    cbn. by apply handlePlayerHit_overlay. }
  destruct (tk_overlapsObstacles tk id); case_decide; done.
Qed.

Lemma update_overlay X time tk s :
  is_Some (damagedPlayers s !! X) →
  is_Some (damagedPlayers (update time tk s) !! X).
Proof.
  intros Hx. unfold update, projectilePass.
  apply projectileFold_overlay. cbn [damagedPlayers set_otherPlayers].
  destruct (player s) as [p|]; [|done].
  set (a := set_player (Some (tk_localUpdate tk p)) s).
  assert (is_Some (damagedPlayers (pushPosition time a) !! X)) as Hb.
  { unfold pushPosition. destruct (_ && _); [|done].
    cbn [damagedPlayers set_lastPositionUpdate].
    by rewrite updatePlayerOnServer_overlay. }
  assert (is_Some
            (damagedPlayers (checkAttackKey tk (pushPosition time a)) !! X))
    as Hc.
  { unfold checkAttackKey, handleSpacebarAttack.
    destruct (_ && _ && _); [|done].
    destruct (player _); [|done]. destruct (negb _); [done|].
    unfold remoteFunction. cbn. by destruct (server _). }
  unfold checkHitbox, meleePass. destruct (attackHitbox _); [|done].
  by apply meleeFold_overlay.
Qed.

Lemma step_overlay_other X s e :
  (∀ playerStates, e ≠ UpdatePlayerStates playerStates) →
  is_Some (damagedPlayers s !! X) →
  is_Some (damagedPlayers (step s e) !! X).
Proof.
  intros Hne Hx. destruct e; cbn [step].
  - unfold setGameData. destruct (JS.strTruthy _); [|done].
    destruct sceneActive; [|done]. by rewrite updatePlayerOnServer_overlay.
  - unfold create. set (s4 := set_spaceKey true _).
    change (serverInitialized s4) with (serverInitialized s).
    destruct (serverInitialized s); [|done].
    cbn [damagedPlayers set_assetsLoaded].
    by rewrite updatePlayerOnServer_overlay.
  - by apply update_overlay.
  - unfold handleProjectileFired. destruct (_ || _); [done|].
    by destruct (decide _).
  - done.
  - unfold handlePowerupSpawned. destruct (_ || _); [done|].
    by destruct (powerups s).
  - unfold onRoomState, createObstaclesFromServer.
    same_field; done.
  - unfold updateRoomState, createObstaclesFromServer, syncPowerups.
    same_field; done.
  - by destruct (Hne playerStates).
  - unfold hitboxTimer. by destruct (attackHitbox s).
  - done.
Qed.
(** A snapshot keeps an overlay entry, unless its participant was
    registered, is absent from the snapshot and leaves the registry. *)
Lemma updatePlayerStates_overlay X h l s :
  damagedPlayers s !! X = Some h →
  damagedPlayers (updatePlayerStates (Some l) s) !! X = Some h
  ∨ (damagedPlayers (updatePlayerStates (Some l) s) !! X = None
     ∧ X ∈ registryIds s ∧ (X ∉ snapshotIds l)
     ∧ (X ∉ registryIds (updatePlayerStates (Some l) s))).
Proof.
  intros Hov.
  destruct (updatePlayerStates_lookup l s X) as [Ho Hd].
  cbn zeta in Ho, Hd. rewrite Hd.
  destruct (decide (X ∈ registryIds (foldl applyPlayerState s l)
                    ∧ X ∉ snapshotIds l)) as [[Hreg Hout]|Hn];
    [|by left].
  right. split; [done|]. split; [|split; [done|]].
  - rewrite applyAll_registry in Hreg.
    apply elem_of_union in Hreg as [Hreg|Hpos]; [done|].
    exfalso. apply Hout.
    apply elem_of_difference in Hpos as [Hpos _].
    by apply positionedIds_subseteq.
  - unfold registryIds. rewrite elem_of_dom, Ho.
    rewrite decide_False by done. by intros [? [=]].
Qed.

(** C2. While the overlay holds [h] for [X]: the health resolved for [X] is
    [h] at every point of a snapshot's first loop, whatever health the
    entry reports; a known [X] with a positioned entry gets health [h];
    after a snapshot the overlay still holds [h] for [X], unless [X] was
    registered, is absent from the snapshot and has been removed from the
    registry; and no event of any kind drops the entry of [X] without
    removing [X] from the registry. *)
Theorem overlay_is_sticky (X : string) (h : Z) (s : Scene P)
  (l : list PlayerState) :
  damagedPlayers s !! X = Some h →
  (∀ processed e, ps_account e = X →
     resolvedHealth e (foldl applyPlayerState s processed) = h)
  ∧ (∀ e p x y, ps_account e = X → X ≠ myAccount s →
       otherPlayers s !! X = Some p → ps_x e = Some x → ps_y e = Some y →
       otherPlayers (applyPlayerState s e) !! X
       = Some (pl_setHealth h (pl_moveTo x y p)))
  ∧ (damagedPlayers (updatePlayerStates (Some l) s) !! X = Some h
     ∨ (damagedPlayers (updatePlayerStates (Some l) s) !! X = None
        ∧ X ∈ registryIds s ∧ (X ∉ snapshotIds l)
        ∧ (X ∉ registryIds (updatePlayerStates (Some l) s))))
  ∧ (∀ event, is_Some (damagedPlayers (step s event) !! X)
              ∨ (X ∈ registryIds s ∧ (X ∉ registryIds (step s event)))).
Proof.
  intros Hov. split; [|split; [|split]].
  - intros processed e He. unfold resolvedHealth.
    destruct (applyAll_fields processed s) as (_ & -> & _).
    by rewrite He, Hov.
  - intros e p x y He Hne Hp Hx Hy. unfold applyPlayerState.
    rewrite He, decide_False, Hx, Hy, Hp by done.
    cbn [otherPlayers set_otherPlayers]. rewrite lookup_insert_eq.
    unfold resolvedHealth. by rewrite He, Hov.
  - by apply updatePlayerStates_overlay.
  - intros event.
    destruct event;
      try (left; apply step_overlay_other; [done | eauto]).
    destruct playerStates as [l'|]; [|left; cbn; eauto].
    cbn [step].
    destruct (updatePlayerStates_overlay X h l' s Hov)
      as [->|(_ & Hreg & _ & Hgone)]; [left; eauto | by right].
Qed.

End Overlay.

(** ** Scenarios *)

(** C1, as stated, fails: a snapshot whose only entry lacks a position
    leaves the registry empty although its id set is {"p1"}. *)
Lemma snapshot_entry_without_position :
  registryIds (updatePlayerStates (Some [entry "p1" None None None]) joined)
  ≠ snapshotIds [entry "p1" None None None] ∖ {[myAccount joined]}.
Proof.
  intros Heq. apply (f_equal (λ X, bool_decide ("p1" ∈ X))) in Heq.
  vm_compute in Heq. discriminate.
Qed.

Lemma registry_after_snapshot_witness :
  let l := [entry "p1" (Some 300) (Some 400) None; entry "p2" None None None] in
  (myAccount joined ∉ registryIds joined)
  ∧ registryIds (updatePlayerStates (Some l) joined)
    = (registryIds joined ∩ snapshotIds l)
      ∪ (positionedIds l ∖ {[myAccount joined]})
  ∧ (Forall hasPosition l →
     registryIds (updatePlayerStates (Some l) joined)
     = snapshotIds l ∖ {[myAccount joined]}).
Proof.
  intros l.
  assert (myAccount joined ∉ registryIds joined) as Hinv.
  { apply (bool_decide_unpack _). vm_compute. exact I. }
  split; [exact Hinv|].
  apply (registry_after_snapshot l joined Hinv).
Defined.

(** C3. A known player without overlay entry whose snapshot entry reports
    health 0 ends with health 100: [playerState.health || 100] takes 0 for
    absent. *)
Theorem zero_health_becomes_default :
  damagedPlayers withP1 !! "p1" = None
  ∧ is_Some (otherPlayers withP1 !! "p1")
  ∧ resolvedHealth (entry "p1" (Some 300) (Some 400) (Some 0)) withP1 = 100
  ∧ pl_health <$>
      otherPlayers
        (updatePlayerStates
           (Some [entry "p1" (Some 300) (Some 400) (Some 0)]) withP1)
      !! "p1"
    = Some 100.
Proof. vm_compute. repeat split; eauto. Qed.

Lemma color_indices_distinct_witness :
  usedColorIndices joined = ∅
  ∧ (length ["p1"; "p2"; "p3"] ≤ 8)%nat
  ∧ NoDup (allocateAll ["p1"; "p2"; "p3"] joined).1
  ∧ Forall (λ i, 1 ≤ i ≤ 8) (allocateAll ["p1"; "p2"; "p3"] joined).1.
Proof.
  assert (usedColorIndices joined = ∅) as Hempty by reflexivity.
  assert (length ["p1"; "p2"; "p3"] ≤ 8)%nat as Hlen by (simpl; lia).
  split; [exact Hempty|]. split; [exact Hlen|].
  apply (color_indices_distinct ["p1"; "p2"; "p3"] joined Hempty Hlen).
Defined.

(** Eight arrivals in a row receive the indices 1 to 8 in order. *)
Example eight_arrivals :
  (allocateAll ["a"; "b"; "c"; "d"; "e"; "f"; "g"; "h"] joined).1
  = [1; 2; 3; 4; 5; 6; 7; 8].
Proof. vm_compute. reflexivity. Qed.

(** Frames that follow the attack of [attacked], the hitbox still
    overlapping "p1" and the attack key going down again during the
    cooldown, then the hitbox timer and a roster snapshot. *)
Lemma hit_granted_at_most_once_witness :
  let events :=
    [Update 1016 (p1Tick true 1016); Update 1032 (p1Tick false 1032);
     HitboxTimer;
     UpdatePlayerStates
       (Some [entry "p1" (Some 300) (Some 400) (Some 100)])] in
  attackFree attacked events
  ∧ (hitsReported (myAccount attacked) "p1" (run attacked events)
     ≤ hitsReported (myAccount attacked) "p1" attacked + 1)%nat
  ∧ ("p1" ∈ hitPlayers attacked →
     (hitsReported (myAccount attacked) "p1" (run attacked events)
      ≤ hitsReported (myAccount attacked) "p1" attacked)%nat)
  ∧ (∀ tk, tk_hitboxOverlaps tk "p1" = true →
           "p1" ∈ hitPlayers (meleeCheck tk attacked "p1"))
  ∧ (∀ now, is_Some (player attacked) → serverInitialized attacked = true →
       hitPlayers (handleSpacebarAttack now attacked) = ∅).
Proof.
  intros events.
  assert (attackFree attacked events) as Hall.
  { vm_compute. repeat split; try exact I; intuition discriminate. }
  split; [exact Hall|].
  apply (hit_granted_at_most_once "p1" attacked events Hall).
Defined.

(** The spec's scenario: one attack, three frames of overlap, exactly one
    reported hit and an overlay entry of 90 that a later snapshot reporting
    100 does not displace. *)
Example three_overlaps_one_hit :
  let s := run attacked
             [Update 1016 (p1Tick false 1016);
              Update 1032 (p1Tick false 1032);
              UpdatePlayerStates
                (Some [entry "p1" (Some 300) (Some 400) (Some 100)])] in
  hitsReported "me" "p1" s = 1%nat
  ∧ damagedPlayers s !! "p1" = Some 90
  ∧ pl_health <$> otherPlayers s !! "p1" = Some 90.
Proof. vm_compute. repeat split; reflexivity. Qed.

(** When "p1" leaves, its overlay entry goes with it; back in a later
    snapshot, its health comes from the snapshot. *)
Example overlay_dropped_on_departure :
  let gone := updatePlayerStates (Some []) attacked in
  let back :=
    updatePlayerStates
      (Some [entry "p1" (Some 300) (Some 400) (Some 70)])
      (updatePlayerStates
         (Some [entry "p1" (Some 300) (Some 400) (Some 80)]) gone) in
  damagedPlayers gone !! "p1" = None
  ∧ otherPlayers gone !! "p1" = None
  ∧ pl_health <$> otherPlayers back !! "p1" = Some 70.
Proof. vm_compute. repeat split; reflexivity. Qed.



Lemma bootstrap_happens_once_witness :
  let events : list (Event SpecPlayer) :=
    [RoomStateChanged (Some laterRoomState); UpdateRoomState laterRoomState] in
  obstaclesCreated bootstrapped = true
  ∧ obstaclesCreated (run bootstrapped events) = true
  ∧ (∀ obstacleData,
       createObstaclesFromServer obstacleData (run bootstrapped events)
       = run bootstrapped events)
  ∧ (∀ state, onRoomState state (run bootstrapped events)
              = run bootstrapped events)
  ∧ (∀ roomState,
       obstacles (updateRoomState roomState (run bootstrapped events))
       = obstacles (run bootstrapped events)
       ∧ colliders (updateRoomState roomState (run bootstrapped events))
         = colliders (run bootstrapped events)
       ∧ obstaclesCreated (updateRoomState roomState (run bootstrapped events))
         = true).
Proof.
  intros events.
  assert (obstaclesCreated bootstrapped = true) as Hoc by reflexivity.
  split; [exact Hoc|].
  apply (bootstrap_happens_once bootstrapped events Hoc).
Defined.

(** Two room states with different obstacle lists: the geometry is the
    border (160 blocks) plus the two blocks of the first list, before and
    after the second one arrives by either path. *)
Example second_obstacle_list_ignored :
  let later := run bootstrapped
                 [RoomStateChanged (Some laterRoomState);
                  UpdateRoomState laterRoomState] in
  obstacles bootstrapped = borderObstacles ++ [(300, 300); (700, 900)]
  ∧ length (obstacles bootstrapped) = 162%nat
  ∧ obstacles later = obstacles bootstrapped
  ∧ colliders later = colliders bootstrapped.
Proof. vm_compute. repeat split; reflexivity. Qed.

Lemma local_id_never_registered_witness :
  let e : Event SpecPlayer :=
    UpdatePlayerStates
      (Some [entry "me" (Some 1) (Some 1) None;
             entry "p1" (Some 2) (Some 2) None]) in
  keepsAccount e
  ∧ (myAccount joined ∉ registryIds joined)
  ∧ (myAccount (step joined e) ∉ registryIds (step joined e)).
Proof.
  intros e.
  assert (keepsAccount e) as Hk by exact I.
  assert (myAccount joined ∉ registryIds joined) as Hinv.
  { apply (bool_decide_unpack _). vm_compute. exact I. }
  split; [exact Hk|]. split; [exact Hinv|].
  apply (local_id_never_registered joined e Hk Hinv).
Defined.

(** The one event left out of C9: session data that arrives after a roster
    snapshot rebinds the local id, here to an id the registry already
    holds. *)
Example session_data_after_roster :
  let early : Scene SpecPlayer :=
    updatePlayerStates (Some [entry "me" (Some 1) (Some 1) None])
      initialScene in
  let named :=
    setGameData
      {| gd_playerName := "Me"; gd_roomId := "arena";
         gd_server := Some {| sv_account := Some "me" |} |} false early in
  (myAccount early ∉ registryIds early)
  ∧ myAccount named ∈ registryIds named.
Proof.
  split; apply (bool_decide_unpack _); vm_compute; exact I.
Qed.

(** Ten projectile hits kill the local player: the tenth sends the only
    [playerDied], for the local id, and the player is back at full health
    at the respawn point. *)
Example local_death_reported :
  let hits := (λ i, (i, {| proj_id := i; proj_ownerId := "p1";
                           proj_creationTime := 0 |}))
              <$> ["1"; "2"; "3"; "4"; "5"; "6"; "7"; "8"; "9"; "10"] in
  let tk : Tick SpecPlayer :=
    {| tk_localUpdate := id; tk_remoteUpdate := id;
       tk_spaceJustDown := false; tk_attackNow := 0;
       tk_hitboxOverlaps := λ _, false; tk_overlapsPlayer := λ _, true;
       tk_overlapsObstacles := λ _, false; tk_dateNow := λ _, 0;
       tk_respawn := λ _, (150, 250) |} in
  let s := foldl (projectileCheck tk) joined hits in
  filter isPlayerDied (outbox s) = [PlayerDied "me" "p1"]
  ∧ (pl_health <$> player s, pl_x <$> player s, pl_y <$> player s)
    = (Some 100, Some 150, Some 250).
Proof. vm_compute. split; reflexivity. Qed.


Lemma overlay_is_sticky_witness :
  let l := [entry "p1" (Some 310) (Some 400) (Some 100)] in
  damagedPlayers attacked !! "p1" = Some 90
  ∧ (∀ processed e, ps_account e = "p1" →
       resolvedHealth e (foldl applyPlayerState attacked processed) = 90)
  ∧ (∀ e p x y, ps_account e = "p1" → "p1" ≠ myAccount attacked →
       otherPlayers attacked !! "p1" = Some p →
       ps_x e = Some x → ps_y e = Some y →
       otherPlayers (applyPlayerState attacked e) !! "p1"
       = Some (pl_setHealth 90 (pl_moveTo x y p)))
  ∧ (damagedPlayers (updatePlayerStates (Some l) attacked) !! "p1" = Some 90
     ∨ (damagedPlayers (updatePlayerStates (Some l) attacked) !! "p1" = None
        ∧ "p1" ∈ registryIds attacked ∧ ("p1" ∉ snapshotIds l)
        ∧ ("p1" ∉ registryIds (updatePlayerStates (Some l) attacked))))
  ∧ (∀ event, is_Some (damagedPlayers (step attacked event) !! "p1")
              ∨ ("p1" ∈ registryIds attacked
                 ∧ ("p1" ∉ registryIds (step attacked event)))).
Proof.
  intros l.
  assert (damagedPlayers attacked !! "p1" = Some 90) as Hov
    by (vm_compute; reflexivity).
  split; [exact Hov|].
  apply (overlay_is_sticky "p1" 90 attacked l Hov).
Defined.


(** * Further properties of the scene *)

(** ** The string hash as arithmetic *)

Lemma toInt32_congr x y :
  x mod 2 ^ 32 = y mod 2 ^ 32 → JS.toInt32 x = JS.toInt32 y.
Proof.
  intros Hxy. unfold JS.toInt32. f_equal.
  rewrite (Z.add_mod x), (Z.add_mod y), Hxy by lia. reflexivity.
Qed.

Lemma toInt32_mod x : JS.toInt32 x mod 2 ^ 32 = x mod 2 ^ 32.
Proof.
  unfold JS.toInt32.
  change (2 ^ 32) with 4294967296. change (2 ^ 31) with 2147483648.
  pose proof (Z.div_mod (x + 2147483648) 4294967296 ltac:(lia)) as Hd.
  pose proof (Z.mod_pos_bound (x + 2147483648) 4294967296 ltac:(lia)) as Hb.
  replace ((x + 2147483648) mod 4294967296 - 2147483648)
    with (x + (- ((x + 2147483648) / 4294967296)) * 4294967296) by lia.
  apply Z.mod_add. lia.
Qed.

Lemma toInt32_range x : - 2 ^ 31 ≤ JS.toInt32 x < 2 ^ 31.
Proof.
  unfold JS.toInt32.
  pose proof (Z.mod_pos_bound (x + 2 ^ 31) (2 ^ 32) ltac:(lia)). lia.
Qed.

Lemma hashStep_toInt32 h c :
  hashStep (JS.toInt32 h) c = JS.toInt32 (31 * h + c).
Proof.
  unfold hashStep, JS.andSelf, JS.shl5. rewrite Z.land_diag.
  apply toInt32_congr.
  rewrite <- Z.add_mod_idemp_l, <- Zminus_mod_idemp_l by lia.
  rewrite toInt32_mod.
  rewrite <- (Z.mul_mod_idemp_l (JS.toInt32 (JS.toInt32 h))) by lia.
  rewrite !toInt32_mod.
  rewrite Z.mul_mod_idemp_l, Zminus_mod_idemp_l by lia.
  rewrite <- (Zminus_mod_idemp_r _ (JS.toInt32 h)), toInt32_mod.
  rewrite Zminus_mod_idemp_r, Z.add_mod_idemp_l by lia.
  f_equal. lia.
Qed.

Lemma hashFold_toInt32 codes h :
  foldl hashStep (JS.toInt32 h) codes
  = JS.toInt32 (foldl (λ a c, 31 * a + c) h codes).
Proof.
  revert h. induction codes as [|c codes IH]; intros h; [done|].
  cbn [foldl]. by rewrite hashStep_toInt32, IH.
Qed.

(** X1. [hashCode] is the polynomial hash with multiplier 31 over the
    character codes, wrapped to a signed 32-bit integer. *)
Theorem hashCode_polynomial (str : string) :
  hashCode str = JS.toInt32 (polyHash (JS.charCodes str))
  ∧ - 2 ^ 31 ≤ hashCode str < 2 ^ 31.
Proof.
  assert (hashCode str = JS.toInt32 (polyHash (JS.charCodes str))) as Heq.
  { unfold hashCode, polyHash.
    change 0 with (JS.toInt32 0) at 1. apply hashFold_toInt32. }
  split; [exact Heq|]. rewrite Heq. apply toInt32_range.
Qed.

(** ** Colour indices *)

Section MoreColors.

Context {P : Type} {ops : PlayerOps P}.
Implicit Types (s : Scene P) (used : gset Z) (c : list Z).

Lemma fallbackColorIndex_range playerId : 1 ≤ fallbackColorIndex playerId ≤ 8.
Proof.
  unfold fallbackColorIndex, JS.rem.
  pose proof (Z.rem_bound_abs (hashCode playerId) 8 ltac:(lia)) as Hb.
  pose proof (Z.abs_nonneg (Z.rem (hashCode playerId) 8)).
  change (Z.abs 8) with 8 in Hb. lia.
Qed.

Lemma firstUnused_prefix c used i :
  firstUnused c used = Some i →
  ∃ pre post, c = pre ++ i :: post ∧ ∀ j, j ∈ pre → j ∈ used.
Proof.
  induction c as [|a c IH]; simpl; [discriminate|].
  destruct (decide (a ∈ used)) as [Hin|Hout].
  - intros Hc. destruct (IH Hc) as (pre & post & -> & Hpre).
    exists (a :: pre), post. split; [done|].
    intros j [->|Hj]%elem_of_cons; auto.
  - intros [= ->]. exists [], c. split; [done|]. intros j Hj. inversion Hj.
Qed.

Lemma firstUnused_full c used :
  (∀ j, j ∈ c → j ∈ used) → firstUnused c used = None.
Proof.
  induction c as [|a c IH]; intros Hall; simpl; [done|].
  rewrite decide_True by (apply Hall; by left).
  apply IH. intros j Hj. apply Hall. by right.
Qed.

Lemma getUniqueColorIndex_used playerId s :
  1 ≤ (getUniqueColorIndex playerId s).1 ≤ 8
  ∧ (usedColorIndices (getUniqueColorIndex playerId s).2 = usedColorIndices s
     ∨ usedColorIndices (getUniqueColorIndex playerId s).2
       = {[(getUniqueColorIndex playerId s).1]} ∪ usedColorIndices s).
Proof.
  unfold getUniqueColorIndex.
  destruct (firstUnused colorCandidates (usedColorIndices s)) as [i|] eqn:E.
  - cbn. split; [|by right].
    apply firstUnused_Some in E as [Hc _].
    unfold colorCandidates in Hc. apply elem_of_seqZ in Hc. lia.
  - cbn. split; [apply fallbackColorIndex_range | by left].
Qed.

(** X2. Whatever is in use, the index handed out lies in 1..8 (also on the
    hash fallback, whose remainder may be negative before [Math.abs]); it
    is added to the indices in use on the scan path, and the fallback
    path marks nothing. *)
Theorem color_index_in_range (playerId : string) (s : Scene P) :
  1 ≤ (getUniqueColorIndex playerId s).1 ≤ 8
  ∧ 1 ≤ fallbackColorIndex playerId ≤ 8
  ∧ (usedColorIndices (getUniqueColorIndex playerId s).2 = usedColorIndices s
     ∨ usedColorIndices (getUniqueColorIndex playerId s).2
       = {[(getUniqueColorIndex playerId s).1]} ∪ usedColorIndices s).
Proof.
  destruct (getUniqueColorIndex_used playerId s) as [Hr Hu].
  split; [exact Hr|]. split; [apply fallbackColorIndex_range | exact Hu].
Qed.

(** X3. The scan hands out the lowest index that is free; the hash fallback
    is taken exactly when all of 1..8 are in use, and then nothing is
    marked. *)
Theorem lowest_free_color_first (playerId : string) (s : Scene P) :
  (∀ j, 1 ≤ j ≤ 8 → j ∉ usedColorIndices s →
     ((getUniqueColorIndex playerId s).1 ∉ usedColorIndices s)
     ∧ (getUniqueColorIndex playerId s).1 ≤ j
     ∧ usedColorIndices (getUniqueColorIndex playerId s).2
       = {[(getUniqueColorIndex playerId s).1]} ∪ usedColorIndices s)
  ∧ ((∀ j, 1 ≤ j ≤ 8 → j ∈ usedColorIndices s) →
     getUniqueColorIndex playerId s = (fallbackColorIndex playerId, s)).
Proof.
  unfold getUniqueColorIndex. split.
  - intros j Hj Hfree.
    destruct (firstUnused colorCandidates (usedColorIndices s)) as [i|] eqn:E.
    + cbn. pose proof (firstUnused_Some _ _ _ E) as [Hc Hi].
      split; [done|]. split; [|done].
      destruct (firstUnused_prefix _ _ _ E) as (pre & post & Heq & Hpre).
      destruct (decide (i ≤ j)) as [|Hlt]; [done|]. exfalso. apply Hfree.
      apply Hpre.
      assert (colorCandidates !! length pre = Some i) as Hi'.
      { rewrite Heq. by apply list_lookup_middle. }
      unfold colorCandidates in Hi'. apply lookup_seqZ in Hi' as [Hi' _].
      assert (colorCandidates !! Z.to_nat (j - 1) = Some j) as Hj'.
      { unfold colorCandidates. apply lookup_seqZ. lia. }
      rewrite Heq, lookup_app_l in Hj' by lia.
      by eapply list_elem_of_lookup_2.
    + exfalso. apply firstUnused_None in E.
      assert (j ∈ filter (λ i, i ∉ usedColorIndices s) colorCandidates) as Hin.
      { apply list_elem_of_filter. split; [done|].
        unfold colorCandidates. apply elem_of_seqZ. lia. }
      rewrite E in Hin. inversion Hin.
  - intros Hfull. rewrite firstUnused_full; [done|].
    intros j Hj. apply Hfull.
    unfold colorCandidates in Hj. apply elem_of_seqZ in Hj. lia.
Qed.

End MoreColors.

(** ** What the combat steps leave alone *)

(** Goals about the fields of a scene after a method without loops: split
    on every guard, compute. *)
Ltac split_guards :=
  repeat match goal with
         | |- context [match ?x with _ => _ end] => destruct x eqn:?
         end.

Section CombatFrames.

Context {P : Type} {ops : PlayerOps P}.
Implicit Types (s : Scene P).

Lemma combatFrame_refl s : combatFrame s s.
Proof. by repeat split. Qed.

Lemma combatFrame_trans s1 s2 s3 :
  combatFrame s1 s2 → combatFrame s2 s3 → combatFrame s1 s3.
Proof.
  intros (a1 & a2 & a3 & a4 & a5 & a6 & a7 & a8 & a9)
         (b1 & b2 & b3 & b4 & b5 & b6 & b7 & b8 & b9).
  repeat split; try congruence. auto.
Qed.

Lemma handlePlayerHit_frame t a pid rnd s :
  combatFrame s (handlePlayerHit t a pid rnd s).
Proof.
  unfold combatFrame, handlePlayerHit, handlePlayerDeath, notifyPlayerHit,
    remoteFunction.
  split_guards; cbn; repeat split; eauto;
    try (intros [? ?]; discriminate).
Qed.

Lemma meleeCheck_frame tk s id : combatFrame s (meleeCheck tk s id).
Proof.
  unfold meleeCheck.
  destruct (decide _); [apply combatFrame_refl|].
  destruct (tk_hitboxOverlaps tk id); [|apply combatFrame_refl].
  eapply combatFrame_trans; [|apply handlePlayerHit_frame].
  by repeat split.
Qed.

Lemma meleeFold_frame tk ks s : combatFrame s (foldl (meleeCheck tk) s ks).
Proof.
  revert s. induction ks as [|id ks IH]; intros s; [apply combatFrame_refl|].
  cbn [foldl]. eapply combatFrame_trans; [apply meleeCheck_frame | apply IH].
Qed.

Lemma projectileCheck_frame tk s entry :
  combatFrame s (projectileCheck tk s entry).
Proof.
  destruct entry as [id pr]. unfold projectileCheck.
  set (s1 := match player s with Some _ => _ | None => s end).
  assert (combatFrame s s1) as H1.
  { unfold s1. destruct (player s); [|apply combatFrame_refl].
    destruct (decide _); [|apply combatFrame_refl].
    destruct (tk_overlapsPlayer tk id); [|apply combatFrame_refl].
    eapply combatFrame_trans; [apply handlePlayerHit_frame|].
    by repeat split. }
  eapply combatFrame_trans; [exact H1|].
  destruct (tk_overlapsObstacles tk id); case_decide; by repeat split.
Qed.

Lemma projectileFold_frame tk entries s :
  combatFrame s (foldl (projectileCheck tk) s entries).
Proof.
  revert s. induction entries as [|e entries IH]; intros s;
    [apply combatFrame_refl|].
  cbn [foldl].
  eapply combatFrame_trans; [apply projectileCheck_frame | apply IH].
Qed.

(** The frame update writes neither the colour bookkeeping, the colliders,
    the load flag, the key nor the powerups, and keeps the local player. *)
Lemma update_frame time tk s :
  usedColorIndices (update time tk s) = usedColorIndices s
  ∧ colliders (update time tk s) = colliders s
  ∧ assetsLoaded (update time tk s) = assetsLoaded s
  ∧ spaceKey (update time tk s) = spaceKey s
  ∧ powerups (update time tk s) = powerups s
  ∧ (is_Some (player s) → is_Some (player (update time tk s))).
Proof.
  unfold update, projectilePass.
  set (s1 := match player s with Some _ => _ | None => s end).
  assert (usedColorIndices s1 = usedColorIndices s
          ∧ colliders s1 = colliders s
          ∧ assetsLoaded s1 = assetsLoaded s
          ∧ spaceKey s1 = spaceKey s
          ∧ powerups s1 = powerups s
          ∧ (is_Some (player s) → is_Some (player s1)))
    as (a1 & a2 & a3 & a4 & a5 & a6).
  { unfold s1. destruct (player s) as [p|]; [|by repeat split].
    set (a := set_player (Some (tk_localUpdate tk p)) s).
    set (c := checkAttackKey tk (pushPosition time a)).
    assert (usedColorIndices c = usedColorIndices s
            ∧ colliders c = colliders s
            ∧ assetsLoaded c = assetsLoaded s
            ∧ spaceKey c = spaceKey s
            ∧ powerups c = powerups s
            ∧ is_Some (player c)) as (c1 & c2 & c3 & c4 & c5 & c6).
    { unfold c, checkAttackKey, handleSpacebarAttack, createAttackHitbox,
        pushPosition, updatePlayerOnServer, remoteFunction.
      split_guards; cbn; repeat split; eauto;
        try (intros [? ?]; discriminate). }
    unfold checkHitbox, meleePass. fold c.
    destruct (attackHitbox c); [|by repeat split].
    destruct (meleeFold_frame tk (map_to_list (otherPlayers c)).*1 c)
      as (-> & -> & -> & -> & -> & _ & _ & _ & Hpl).
    repeat split; auto. }
  set (s2 := set_otherPlayers _ s1).
  destruct (projectileFold_frame tk (map_to_list (projectiles s2)) s2)
    as (-> & -> & -> & -> & -> & _ & _ & _ & Hpl).
  repeat split; try done. intros Hp. apply Hpl. cbn. auto.
Qed.

End CombatFrames.

(** ** Invariants of the bookkeeping *)

Section Invariants.

Context {P : Type} {ops : PlayerOps P}.
Implicit Types (s : Scene P) (e : Event P).

Lemma applyPlayerState_colors s entry :
  colorsInRange s → colorsInRange (applyPlayerState s entry).
Proof.
  intros Hinv. unfold applyPlayerState.
  destruct (decide _); [done|].
  destruct (ps_x entry), (ps_y entry); try done.
  destruct (otherPlayers s !! ps_account entry); [done|].
  destruct (getUniqueColorIndex_used (ps_account entry) s) as [Hr Hu].
  destruct (getUniqueColorIndex (ps_account entry) s) as [i s1].
  cbn in Hr, Hu.
  assert (colorsInRange s1) as H1.
  { intros j Hj. destruct Hu as [Hu|Hu]; rewrite Hu in Hj; [by apply Hinv|].
    apply elem_of_union in Hj as [->%elem_of_singleton|Hj];
      [done | by apply Hinv]. }
  cbn. destruct (obstaclesCreated s1); exact H1.
Qed.

Lemma removeIfDeparted_colors cur s id :
  colorsInRange s → colorsInRange (removeIfDeparted cur s id).
Proof.
  intros Hinv. unfold removeIfDeparted. destruct (decide _); [done|].
  intros j Hj. cbn in Hj. apply Hinv. set_solver.
Qed.

Lemma updatePlayerStates_colors playerStates s :
  colorsInRange s → colorsInRange (updatePlayerStates playerStates s).
Proof.
  intros Hinv. destruct playerStates as [l|]; [|done].
  unfold updatePlayerStates.
  assert (colorsInRange (foldl applyPlayerState s l)) as H1.
  { clear -Hinv. revert s Hinv. induction l as [|entry l IH]; intros s Hinv;
      [done|].
    cbn [foldl]. by apply IH, applyPlayerState_colors. }
  generalize (map_to_list (otherPlayers (foldl applyPlayerState s l))).*1.
  revert H1. generalize (foldl applyPlayerState s l).
  intros s1 H1 ks. revert s1 H1.
  induction ks as [|id ks IH]; intros s1 H1; [done|].
  cbn [foldl]. by apply IH, removeIfDeparted_colors.
Qed.

Lemma step_colors s e : colorsInRange s → colorsInRange (step s e).
Proof.
  intros Hinv. destruct e; cbn [step].
  - unfold setGameData, updatePlayerOnServer, remoteFunction.
    split_guards; exact Hinv.
  - unfold create, updatePlayerOnServer, remoteFunction.
    cbn. split_guards; exact Hinv.
  - intros i Hi. apply Hinv.
    by destruct (update_frame time tk s) as (<- & _).
  - unfold handleProjectileFired, createProjectile. split_guards; exact Hinv.
  - exact Hinv.
  - unfold handlePowerupSpawned. split_guards; exact Hinv.
  - unfold onRoomState, createObstaclesFromServer.
    split_guards; exact Hinv.
  - unfold updateRoomState, createObstaclesFromServer, syncPowerups.
    split_guards; exact Hinv.
  - by apply updatePlayerStates_colors.
  - unfold hitboxTimer. split_guards; exact Hinv.
  - exact Hinv.
Qed.

(** X4. Every colour index marked as in use is one of 1..8, in every scene
    that can be reached: allocation marks scan indices only, release only
    unmarks, and nothing else writes the set. *)
Theorem colors_stay_in_range (s : Scene P) (events : list (Event P)) :
  colorsInRange s → colorsInRange (run s events).
Proof.
  revert s. induction events as [|e events IH]; intros s Hinv; [done|].
  cbn [run foldl]. apply IH. by apply step_colors.
Qed.

(** *** Overlay entries belong to registered participants *)

Lemma handlePlayerHit_overlayRegistered t a pid rnd s :
  overlayRegistered s → overlayRegistered (handlePlayerHit t a pid rnd s).
Proof.
  unfold overlayRegistered, registryIds. intros Hinv.
  unfold handlePlayerHit, handlePlayerDeath, notifyPlayerHit, remoteFunction.
  split_guards; cbn; try exact Hinv;
    (rewrite dom_insert_L, dom_insert_lookup_L by eauto;
     apply union_least; [|exact Hinv];
     apply singleton_subseteq_l, elem_of_dom; eauto).
Qed.

Lemma meleeFold_overlayRegistered tk ks s :
  overlayRegistered s → overlayRegistered (foldl (meleeCheck tk) s ks).
Proof.
  revert s. induction ks as [|id ks IH]; intros s Hinv; [done|].
  cbn [foldl]. apply IH. unfold meleeCheck.
  destruct (decide _); [done|]. destruct (tk_hitboxOverlaps tk id); [|done].
  by apply handlePlayerHit_overlayRegistered.
Qed.

Lemma projectileFold_overlayRegistered tk entries s :
  overlayRegistered s →
  overlayRegistered (foldl (projectileCheck tk) s entries).
Proof.
  revert s. induction entries as [|[id pr] entries IH]; intros s Hinv;
    [done|].
  cbn [foldl]. apply IH. unfold projectileCheck.
  set (s1 := match player s with Some _ => _ | None => s end).
  assert (overlayRegistered s1) as H1.
  { unfold s1. destruct (player s); [|done].
    destruct (decide _); [|done].
    destruct (tk_overlapsPlayer tk id); [|done].
    by apply (handlePlayerHit_overlayRegistered (myAccount s)
                (proj_ownerId pr) id (tk_respawn tk id) s). }
  destruct (tk_overlapsObstacles tk id); case_decide; exact H1.
Qed.

Lemma update_overlayRegistered time tk s :
  overlayRegistered s → overlayRegistered (update time tk s).
Proof.
  intros Hinv. unfold update, projectilePass.
  apply projectileFold_overlayRegistered.
  set (s1 := match player s with Some _ => _ | None => s end).
  assert (overlayRegistered s1) as H1.
  { unfold s1. destruct (player s) as [p|]; [|done].
    set (c := checkAttackKey tk _).
    assert (overlayRegistered c) as Hc.
    { unfold c, checkAttackKey, handleSpacebarAttack, createAttackHitbox,
        pushPosition, updatePlayerOnServer, remoteFunction.
      split_guards; exact Hinv. }
    unfold checkHitbox, meleePass. destruct (attackHitbox c); [|done].
    by apply meleeFold_overlayRegistered. }
  unfold overlayRegistered, registryIds in *. cbn. by rewrite dom_fmap_L.
Qed.

Lemma updatePlayerStates_overlayRegistered playerStates s :
  overlayRegistered s → overlayRegistered (updatePlayerStates playerStates s).
Proof.
  intros Hinv. destruct playerStates as [l|]; [|done].
  unfold overlayRegistered. intros k Hk.
  apply elem_of_dom in Hk.
  destruct (updatePlayerStates_lookup l s k) as [_ Hd]. cbn zeta in Hd.
  rewrite Hd in Hk.
  destruct (decide (k ∈ registryIds (foldl applyPlayerState s l)
                    ∧ k ∉ snapshotIds l)) as [|Hn];
    [by destruct Hk|].
  assert (k ∈ registryIds s) as Hreg by (by apply Hinv, elem_of_dom).
  rewrite updatePlayerStates_registry.
  apply elem_of_union_l, elem_of_intersection. split; [done|].
  destruct (decide (k ∈ snapshotIds l)) as [|Hout]; [done|].
  exfalso. apply Hn. split; [|done].
  rewrite applyAll_registry. by apply elem_of_union_l.
Qed.

Lemma step_overlayRegistered s e :
  overlayRegistered s → overlayRegistered (step s e).
Proof.
  intros Hinv. destruct e; cbn [step].
  - unfold setGameData, updatePlayerOnServer, remoteFunction.
    split_guards; exact Hinv.
  - unfold create, updatePlayerOnServer, remoteFunction.
    cbn. split_guards; exact Hinv.
  - by apply update_overlayRegistered.
  - unfold handleProjectileFired, createProjectile. split_guards; exact Hinv.
  - exact Hinv.
  - unfold handlePowerupSpawned. split_guards; exact Hinv.
  - unfold onRoomState, createObstaclesFromServer.
    split_guards; exact Hinv.
  - unfold updateRoomState, createObstaclesFromServer, syncPowerups.
    split_guards; exact Hinv.
  - by apply updatePlayerStates_overlayRegistered.
  - unfold hitboxTimer. split_guards; exact Hinv.
  - exact Hinv.
Qed.

(** X5. Only registered participants have an overlay entry, in every scene
    that can be reached: damage is recorded for registered targets only,
    and a departure drops the entry together with the participant. *)
Theorem overlay_only_for_registered (s : Scene P) (events : list (Event P)) :
  overlayRegistered s → overlayRegistered (run s events).
Proof.
  revert s. induction events as [|e events IH]; intros s Hinv; [done|].
  cbn [run foldl]. apply IH. by apply step_overlayRegistered.
Qed.

(** *** A generic frame rule for the loops *)

Lemma foldl_frame {A B : Type} (R : A → A → Prop) (f : A → B → A) :
  (∀ a, R a a) → (∀ a b c, R a b → R b c → R a c) →
  (∀ a b, R a (f a b)) → ∀ l a, R a (foldl f a l).
Proof.
  intros Hrefl Htrans Hstep l.
  induction l as [|b l IH]; intros a; [apply Hrefl|].
  cbn [foldl]. eapply Htrans; [apply Hstep | apply IH].
Qed.

(** Roster processing writes the registry, the overlay, the colour set and
    the colliders, and nothing else. *)
Lemma updatePlayerStates_frame playerStates s :
  let s' := updatePlayerStates playerStates s in
  projectiles s' = projectiles s ∧ assetsLoaded s' = assetsLoaded s
  ∧ player s' = player s ∧ powerups s' = powerups s
  ∧ spaceKey s' = spaceKey s ∧ attackCooldown s' = attackCooldown s
  ∧ attackHitbox s' = attackHitbox s
  ∧ lastPositionUpdate s' = lastPositionUpdate s
  ∧ serverInitialized s' = serverInitialized s ∧ server s' = server s
  ∧ obstacles s' = obstacles s.
Proof.
  destruct playerStates as [l|]; [|by repeat split].
  cbn zeta. unfold updatePlayerStates.
  set (R := λ a b : Scene P,
         projectiles b = projectiles a ∧ assetsLoaded b = assetsLoaded a
         ∧ player b = player a ∧ powerups b = powerups a
         ∧ spaceKey b = spaceKey a ∧ attackCooldown b = attackCooldown a
         ∧ attackHitbox b = attackHitbox a
         ∧ lastPositionUpdate b = lastPositionUpdate a
         ∧ serverInitialized b = serverInitialized a ∧ server b = server a
         ∧ obstacles b = obstacles a).
  assert (∀ a, R a a) as Hrefl by (by repeat split).
  assert (∀ a b c, R a b → R b c → R a c) as Htrans.
  { intros a b c (a1&a2&a3&a4&a5&a6&a7&a8&a9&a10&a11)
                  (b1&b2&b3&b4&b5&b6&b7&b8&b9&b10&b11).
    repeat split; congruence. }
  change (R s (foldl (removeIfDeparted (currentPlayerIds l))
                 (foldl applyPlayerState s l)
                 (map_to_list (otherPlayers (foldl applyPlayerState s l))).*1)).
  eapply Htrans.
  - apply (foldl_frame R applyPlayerState Hrefl Htrans).
    intros a entry. unfold R, applyPlayerState, getUniqueColorIndex.
    destruct (firstUnused _ _); split_guards; by repeat split.
  - apply (foldl_frame R _ Hrefl Htrans).
    intros a id. unfold R, removeIfDeparted. split_guards; by repeat split.
Qed.

(** *** The projectile table *)

Lemma projectileFold_sub tk entries s id pr :
  projectiles (foldl (projectileCheck tk) s entries) !! id = Some pr →
  projectiles s !! id = Some pr.
Proof.
  revert s. induction entries as [|[id' pr'] entries IH]; intros s; [done|].
  cbn [foldl]. intros Hk. apply IH in Hk.
  destruct (projectileCheck_projectiles tk s id' pr') as [[Heq|Heq] _];
    rewrite Heq in Hk; [done|].
  by apply lookup_delete_Some in Hk as [_ Hk].
Qed.

Lemma update_projectiles_sub time tk s id pr :
  projectiles (update time tk s) !! id = Some pr →
  projectiles s !! id = Some pr.
Proof.
  unfold update, projectilePass. intros Hk.
  apply projectileFold_sub in Hk. cbn in Hk.
  by rewrite <- (update_projectiles_before_pass time tk s).
Qed.

Lemma step_foreignProjectiles s e :
  keepsAccount e → foreignProjectiles s → foreignProjectiles (step s e).
Proof.
  intros Hk Hinv. destruct e; cbn [step keepsAccount] in *.
  - done.
  - unfold create, updatePlayerOnServer, remoteFunction.
    cbn. split_guards; exact Hinv.
  - intros id pr Hpr. apply update_projectiles_sub in Hpr.
    destruct (update_effect time tk s) as ((-> & _) & _). by apply Hinv.
  - unfold handleProjectileFired, createProjectile.
    split_guards; try exact Hinv.
    intros id pr. cbn.
    destruct (decide (id = pj_id data)) as [->|Hne].
    + rewrite lookup_insert_eq. by intros [= <-].
    + rewrite lookup_insert_ne by done. apply Hinv.
  - intros id' pr. cbn. intros [_ Hpr]%lookup_delete_Some. by apply Hinv.
  - unfold handlePowerupSpawned. split_guards; exact Hinv.
  - unfold onRoomState, createObstaclesFromServer.
    split_guards; exact Hinv.
  - unfold updateRoomState, createObstaclesFromServer, syncPowerups.
    split_guards; exact Hinv.
  - intros id pr.
    destruct (updatePlayerStates_frame playerStates s) as (-> & _).
    destruct (updatePlayerStates_steady playerStates s) as (-> & _).
    apply Hinv.
  - unfold hitboxTimer. split_guards; exact Hinv.
  - exact Hinv.
Qed.

(** X6. Under one session identity, the projectile table is keyed by the
    projectile's own id and never holds a projectile of the local player:
    a [projectileFired] notification for an own projectile is dropped, and
    nothing else inserts. *)
Theorem own_projectiles_never_stored (s : Scene P) (events : list (Event P)) :
  Forall keepsAccount events →
  foreignProjectiles s → foreignProjectiles (run s events).
Proof.
  intros Hall. revert s.
  induction Hall as [|e events He _ IH]; intros s Hinv; [done|].
  cbn [run foldl]. apply IH. by apply step_foreignProjectiles.
Qed.

(** *** A started scene has its player *)

Lemma step_sceneStarted s e : sceneStarted s → sceneStarted (step s e).
Proof.
  intros Hinv. destruct e; cbn [step].
  - unfold setGameData, updatePlayerOnServer, remoteFunction.
    split_guards; exact Hinv.
  - unfold create, updatePlayerOnServer, remoteFunction, sceneStarted.
    cbn. split_guards; cbn; intros _; repeat split; eauto.
  - unfold sceneStarted.
    destruct (update_frame time tk s) as (_ & _ & -> & -> & -> & Hpl).
    intros Ha. destruct (Hinv Ha) as (? & ? & ?). auto.
  - unfold handleProjectileFired, createProjectile. split_guards; exact Hinv.
  - exact Hinv.
  - unfold handlePowerupSpawned.
    split_guards; try exact Hinv.
    unfold sceneStarted. cbn. intros Ha.
    destruct (Hinv Ha) as (? & ? & ?). eauto.
  - unfold onRoomState, createObstaclesFromServer.
    split_guards; exact Hinv.
  - unfold updateRoomState, createObstaclesFromServer, syncPowerups.
    split_guards; try exact Hinv;
      (unfold sceneStarted; cbn; intros Ha;
       destruct (Hinv Ha) as (? & ? & ?); eauto).
  - unfold sceneStarted.
    destruct (updatePlayerStates_frame playerStates s)
      as (_ & -> & -> & -> & -> & _).
    exact Hinv.
  - unfold hitboxTimer. split_guards; exact Hinv.
  - exact Hinv.
Qed.

Lemma run_sceneStarted s events : sceneStarted s → sceneStarted (run s events).
Proof.
  revert s. induction events as [|e events IH]; intros s Hinv; [done|].
  cbn [run foldl]. apply IH. by apply step_sceneStarted.
Qed.


(** *** Colliders against the bootstrapped world *)

Lemma applyPlayerState_collidersCover s entry :
  collidersCover s → collidersCover (applyPlayerState s entry).
Proof.
  intros Hinv. unfold applyPlayerState.
  destruct (decide _); [done|].
  destruct (ps_x entry) as [x|], (ps_y entry) as [y|]; try done.
  destruct (otherPlayers s !! ps_account entry) as [p|] eqn:Hk.
  - unfold collidersCover, registryIds in *. cbn.
    by rewrite dom_insert_lookup_L by eauto.
  - pose proof (getUniqueColorIndex_fields (ps_account entry) s) as Hf.
    destruct (getUniqueColorIndex (ps_account entry) s) as [i s1].
    cbn in Hf. destruct Hf as (Ho & _ & _ & Hoc & _ & _ & _ & Hc).
    unfold collidersCover, registryIds in *. cbn.
    destruct (obstaclesCreated s1) eqn:Hflag; cbn; rewrite ?Hflag;
      [|discriminate].
    intros _. symmetry in Hoc. destruct (Hinv Hoc) as [Hl Hr].
    rewrite Hc, Ho, dom_insert_L. split.
    + apply elem_of_app. by left.
    + intros id [->%elem_of_singleton|Hid]%elem_of_union;
        apply elem_of_app; [right; by left | left; by apply Hr].
Qed.

Lemma removeIfDeparted_collidersCover cur s id :
  collidersCover s → collidersCover (removeIfDeparted cur s id).
Proof.
  intros Hinv. unfold removeIfDeparted. destruct (decide _); [done|].
  unfold collidersCover, registryIds in *. cbn.
  intros Hflag. destruct (Hinv Hflag) as [Hl Hr]. split; [done|].
  intros k Hk. apply Hr. rewrite dom_delete_L in Hk. set_solver.
Qed.

Lemma updatePlayerStates_collidersCover playerStates s :
  collidersCover s → collidersCover (updatePlayerStates playerStates s).
Proof.
  intros Hinv. destruct playerStates as [l|]; [|done].
  unfold updatePlayerStates.
  assert (collidersCover (foldl applyPlayerState s l)) as H1.
  { clear -Hinv. revert s Hinv.
    induction l as [|entry l IH]; intros s Hinv; [done|].
    cbn [foldl]. by apply IH, applyPlayerState_collidersCover. }
  generalize (map_to_list (otherPlayers (foldl applyPlayerState s l))).*1.
  revert H1. generalize (foldl applyPlayerState s l).
  intros s1 H1 ks. revert s1 H1.
  induction ks as [|id ks IH]; intros s1 H1; [done|].
  cbn [foldl]. by apply IH, removeIfDeparted_collidersCover.
Qed.

Lemma createObstaclesFromServer_collidersCover obstacleData s :
  collidersCover s → collidersCover (createObstaclesFromServer obstacleData s).
Proof.
  intros Hinv. unfold createObstaclesFromServer.
  destruct (_ || _) eqn:Hguard; [done|].
  apply orb_false_iff in Hguard as [_ Hoc].
  cbn. destruct (player s); unfold collidersCover, registryIds; cbn.
  - intros _. split.
    + apply elem_of_app. left. apply elem_of_app. right. by left.
    + intros id Hid. apply elem_of_app. right.
      apply list_elem_of_fmap. exists id. split; [done|].
      apply elem_of_dom in Hid as [q Hq].
      apply list_elem_of_fmap. exists (id, q). split; [done|].
      by apply elem_of_map_to_list.
  - rewrite Hoc. discriminate.
Qed.

Lemma step_collidersCover s e :
  keepsGeometry e → collidersCover s → collidersCover (step s e).
Proof.
  intros Hk Hinv. destruct e; cbn [step keepsGeometry] in *.
  - unfold setGameData, updatePlayerOnServer, remoteFunction.
    split_guards; exact Hinv.
  - done.
  - unfold collidersCover.
    destruct (update_frame time tk s) as (_ & -> & _).
    destruct (update_effect time tk s) as ((_ & -> & _ & -> & _) & _).
    exact Hinv.
  - unfold handleProjectileFired, createProjectile.
    split_guards; try exact Hinv.
    unfold collidersCover, registryIds in *. cbn. intros Hflag.
    destruct (Hinv Hflag) as [Hl Hr].
    split; [|intros id Hid]; apply elem_of_app; left; auto.
  - exact Hinv.
  - unfold handlePowerupSpawned. split_guards; exact Hinv.
  - unfold onRoomState. split_guards; try exact Hinv.
    by apply createObstaclesFromServer_collidersCover.
  - unfold updateRoomState.
    set (s1 := match rs_powerups roomState with
               | Some l => syncPowerups l s
               | None => s
               end).
    assert (collidersCover s1) as H1.
    { unfold s1, syncPowerups. split_guards; exact Hinv. }
    split_guards; try exact H1.
    by apply createObstaclesFromServer_collidersCover.
  - by apply updatePlayerStates_collidersCover.
  - unfold hitboxTimer. split_guards; exact Hinv.
  - exact Hinv.
Qed.

(** X8. Without a scene restart, once the world is bootstrapped the local
    player and every registered participant have a collider against the
    obstacles: the bootstrap registers everybody present, and a newcomer
    registers its own when it is created. *)
Theorem everybody_collides_after_bootstrap (s : Scene P)
  (events : list (Event P)) :
  Forall keepsGeometry events →
  collidersCover s → collidersCover (run s events).
Proof.
  intros Hall. revert s.
  induction Hall as [|e events He _ IH]; intros s Hinv; [done|].
  cbn [run foldl]. apply IH. by apply step_collidersCover.
Qed.

(** *** The session flag *)

Lemma step_serverInitialized s e :
  keepsAccount e → serverInitialized (step s e) = serverInitialized s.
Proof.
  intros Hk. destruct e; cbn [step keepsAccount] in *.
  - done.
  - unfold create, updatePlayerOnServer, remoteFunction.
    cbn. split_guards; cbn; congruence.
  - apply update_effect.
  - apply handleProjectileFired_quiet.
  - done.
  - apply handlePowerupSpawned_quiet.
  - unfold onRoomState, createObstaclesFromServer.
    split_guards; cbn; congruence.
  - unfold updateRoomState, createObstaclesFromServer, syncPowerups.
    split_guards; cbn; congruence.
  - apply updatePlayerStates_frame.
  - apply hitboxTimer_quiet.
  - done.
Qed.

Lemma step_session_monotone s e :
  serverInitialized s = true → serverInitialized (step s e) = true.
Proof.
  intros Hsi.
  destruct e; try (rewrite step_serverInitialized by exact I; exact Hsi).
  cbn [step]. unfold setGameData, updatePlayerOnServer, remoteFunction.
  split_guards; cbn; done.
Qed.

Lemma run_session_monotone s events :
  serverInitialized s = true → serverInitialized (run s events) = true.
Proof.
  revert s. induction events as [|e events IH]; intros s Hsi; [done|].
  cbn [run foldl]. by apply IH, step_session_monotone.
Qed.

Lemma handlePlayerHit_silent t a pid rnd s :
  serverInitialized s = false →
  outbox (handlePlayerHit t a pid rnd s) = outbox s
  ∧ serverInitialized (handlePlayerHit t a pid rnd s) = false.
Proof.
  intros Hsi.
  unfold handlePlayerHit, handlePlayerDeath, notifyPlayerHit, remoteFunction.
  split_guards; cbn in *; first [congruence | done].
Qed.

Lemma meleeFold_silent tk ks s :
  serverInitialized s = false →
  outbox (foldl (meleeCheck tk) s ks) = outbox s.
Proof.
  revert s. induction ks as [|id ks IH]; intros s Hsi; [done|].
  cbn [foldl].
  assert (outbox (meleeCheck tk s id) = outbox s
          ∧ serverInitialized (meleeCheck tk s id) = false) as [Ho Hs].
  { unfold meleeCheck. destruct (decide _); [done|].
    destruct (tk_hitboxOverlaps tk id); [|done].
    by apply (handlePlayerHit_silent id (myAccount s) "melee_attack"
                (tk_respawn tk id)
                (set_hitPlayers ({[id]} ∪ hitPlayers s) s)). }
  by rewrite IH.
Qed.

Lemma projectileFold_silent tk entries s :
  serverInitialized s = false →
  outbox (foldl (projectileCheck tk) s entries) = outbox s.
Proof.
  revert s. induction entries as [|[id pr] entries IH]; intros s Hsi; [done|].
  cbn [foldl].
  assert (outbox (projectileCheck tk s (id, pr)) = outbox s
          ∧ serverInitialized (projectileCheck tk s (id, pr)) = false)
    as [Ho Hs].
  { unfold projectileCheck.
    destruct (handlePlayerHit_silent (myAccount s) (proj_ownerId pr) id
                (tk_respawn tk id) s Hsi) as [Ho Hs].
    split_guards; cbn; done. }
  by rewrite IH.
Qed.

Lemma update_silent time tk s :
  serverInitialized s = false → outbox (update time tk s) = outbox s.
Proof.
  intros Hsi. unfold update, projectilePass.
  set (s1 := match player s with Some _ => _ | None => s end).
  assert (outbox s1 = outbox s ∧ serverInitialized s1 = false) as [Ho Hs].
  { unfold s1. destruct (player s) as [p|]; [|done].
    set (c := checkAttackKey tk _).
    assert (c = set_player (Some (tk_localUpdate tk p)) s) as Hc.
    { unfold c, checkAttackKey, handleSpacebarAttack, pushPosition.
      cbn. repeat (rewrite Hsi; cbn). by split_guards. }
    unfold checkHitbox, meleePass. rewrite Hc.
    destruct (attackHitbox _); [|done].
    rewrite meleeFold_silent by done. split; [done|].
    match goal with |- serverInitialized (foldl _ ?a ?ks) = _ =>
      destruct (meleeFold tk ks a) as ((_ & _ & _ & _ & -> & _) & _) end.
    done. }
  rewrite projectileFold_silent; done.
Qed.

Lemma step_silent s e :
  serverInitialized (step s e) = false → outbox (step s e) = outbox s.
Proof.
  destruct e; cbn [step].
  - unfold setGameData, updatePlayerOnServer, remoteFunction.
    split_guards; cbn; done.
  - unfold create, updatePlayerOnServer, remoteFunction.
    cbn. split_guards; cbn; congruence.
  - intros Hsi. apply update_silent.
    by destruct (update_effect time tk s) as ((_ & _ & _ & _ & <- & _) & _).
  - intros _. apply handleProjectileFired_quiet.
  - done.
  - intros _. apply handlePowerupSpawned_quiet.
  - intros _. apply onRoomState_steady.
  - intros _. apply updateRoomState_steady.
  - intros _. apply updatePlayerStates_steady.
  - intros _. apply hitboxTimer_quiet.
  - done.
Qed.

(** X9. Nothing is sent before the session is set up: while
    [serverInitialized] is still false at the end of a run, the log of
    remote calls is what it was at its start. *)
Theorem nothing_sent_before_session (s : Scene P) (events : list (Event P)) :
  serverInitialized (run s events) = false →
  outbox (run s events) = outbox s.
Proof.
  revert s. induction events as [|e events IH]; intros s Hend; [done|].
  cbn [run foldl] in *.
  assert (serverInitialized (step s e) = false) as Hstep.
  { destruct (serverInitialized (step s e)) eqn:E; [|done].
    pose proof (run_session_monotone (step s e) events E) as Hm.
    unfold run in Hm. congruence. }
  change (foldl step (step s e) events) with (run (step s e) events) in *.
  rewrite (IH (step s e) Hend). by apply step_silent.
Qed.

Lemma step_account_known s e :
  (serverInitialized s = true → myAccount s ≠ "") →
  serverInitialized (step s e) = true → myAccount (step s e) ≠ "".
Proof.
  intros Hinv.
  destruct e;
    try (rewrite step_serverInitialized, step_myAccount by exact I;
         exact Hinv).
  - cbn [step]. unfold setGameData. cbn [server set_server].
    destruct (gd_server data) as [sv|]; [|exact Hinv].
    destruct (sv_account sv) as [[|c r]|]; cbn [JS.strTruthy];
      try exact Hinv.
    intros _. destruct sceneActive; [|cbn; done].
    rewrite (preserved_myAccount _ _
               (proj1 (updatePlayerOnServer_effect _))).
    cbn. done.
Qed.

(** X10. The session flag is never reset, and in every scene reached from
    the constructed one it implies a non-empty local account id: session
    data without a server or with an empty account leaves flag and id as
    they are. *)
Theorem session_set_up_for_good (events : list (Event P)) :
  (∀ s, serverInitialized s = true →
        serverInitialized (run s events) = true)
  ∧ (serverInitialized (run initialScene events) = true →
     myAccount (run initialScene events) ≠ "").
Proof.
  split; [intros s; apply run_session_monotone|].
  assert (∀ s, (serverInitialized s = true → myAccount s ≠ "") →
               serverInitialized (run s events) = true →
               myAccount (run s events) ≠ "") as Hrun.
  { induction events as [|e events IH]; intros s Hinv; [done|].
    cbn [run foldl]. apply IH. by apply step_account_known. }
  apply Hrun. intros [=].
Qed.

End Invariants.

(** ** What one frame sends and grants *)

Section FrameUpdate.

Context {P : Type} {ops : PlayerOps P}.
Implicit Types (s : Scene P) (e : Event P) (f : OutMsg → bool).

Lemma countSent_app f s s' sent :
  outbox s' = outbox s ++ sent →
  countSent f s'
  = (countSent f s + length (filter (λ m, f m = true) sent))%nat.
Proof. intros E. unfold countSent. by rewrite E, filter_app, length_app. Qed.

Lemma countSent_none f s s' :
  sends (λ m, f m = false) s s' → countSent f s' = countSent f s.
Proof.
  intros (sent & E & Hall). rewrite (countSent_app f s s' sent E).
  assert (filter (λ m, f m = true) sent = []) as ->; [|simpl; lia].
  clear E. induction Hall as [|m l Hm _ IH]; [done|].
  rewrite filter_cons_False; [done | congruence].
Qed.

Lemma countSent_same f s s' :
  outbox s' = outbox s → countSent f s' = countSent f s.
Proof. intros E. unfold countSent. by rewrite E. Qed.

(** The phases of a frame after the position push and the attack key: the
    hitbox loop, the update of the remote players and the projectile
    loop. *)
Lemma update_tail tk s :
  let s' := projectilePass tk
              (set_otherPlayers
                 (tk_remoteUpdate tk <$> otherPlayers (checkHitbox tk s))
                 (checkHitbox tk s)) in
  combatFrame s s'
  ∧ ∀ Q, (∀ t a pid, Q (PlayerHit t a pid 10)) →
         (∀ a, Q (PlayerDied (myAccount s) a)) → sends Q s s'.
Proof.
  cbn zeta. unfold projectilePass.
  set (d := checkHitbox tk s). set (s2 := set_otherPlayers _ d).
  assert (combatFrame s d) as Hfd.
  { unfold d, checkHitbox, meleePass. destruct (attackHitbox s);
      [apply meleeFold_frame | apply combatFrame_refl]. }
  destruct (checkHitbox_effect tk s) as (Hpd & _ & Hsd). fold d in Hpd, Hsd.
  destruct (projectileFold tk (map_to_list (projectiles s2)) s2)
    as (_ & _ & Hs3).
  change (myAccount s2) with (myAccount d) in Hs3.
  rewrite (preserved_myAccount _ _ Hpd) in Hs3.
  split.
  - eapply combatFrame_trans; [exact Hfd|].
    eapply combatFrame_trans; [|apply projectileFold_frame].
    by repeat split.
  - intros Q Hhit Hdied.
    eapply sends_trans; [by apply Hsd|].
    eapply sends_trans; [by apply sends_same_outbox|].
    apply Hs3; [intros; apply Hhit | done].
Qed.

Lemma update_unfold time tk s p :
  player s = Some p →
  update time tk s
  = projectilePass tk
      (set_otherPlayers
         (tk_remoteUpdate tk
            <$> otherPlayers
                  (checkHitbox tk
                     (checkAttackKey tk
                        (pushPosition time
                           (set_player (Some (tk_localUpdate tk p)) s)))))
         (checkHitbox tk
            (checkAttackKey tk
               (pushPosition time
                  (set_player (Some (tk_localUpdate tk p)) s))))).
Proof. intros Hp. unfold update. by rewrite Hp. Qed.

Lemma update_unfold_none time tk s :
  player s = None →
  update time tk s
  = projectilePass tk
      (set_otherPlayers (tk_remoteUpdate tk <$> otherPlayers s) s).
Proof. intros Hp. unfold update. by rewrite Hp. Qed.

Lemma projectilePass_no_player tk s :
  player s = None →
  outbox (projectilePass tk s) = outbox s
  ∧ hitPlayers (projectilePass tk s) = hitPlayers s
  ∧ damagedPlayers (projectilePass tk s) = damagedPlayers s
  ∧ otherPlayers (projectilePass tk s) = otherPlayers s.
Proof.
  unfold projectilePass. generalize (map_to_list (projectiles s)).
  intros entries. revert s.
  induction entries as [|[id pr] entries IH]; intros s Hp; [done|].
  cbn [foldl].
  assert (player (projectileCheck tk s (id, pr)) = None
          ∧ outbox (projectileCheck tk s (id, pr)) = outbox s
          ∧ hitPlayers (projectileCheck tk s (id, pr)) = hitPlayers s
          ∧ damagedPlayers (projectileCheck tk s (id, pr)) = damagedPlayers s
          ∧ otherPlayers (projectileCheck tk s (id, pr)) = otherPlayers s)
    as (H1 & H2 & H3 & H4 & H5).
  { unfold projectileCheck. rewrite Hp. split_guards; by repeat split. }
  destruct (IH _ H1) as (-> & -> & -> & ->). by repeat split.
Qed.

(** X11. Before the local player exists, a frame sends nothing and hits
    nobody: it only updates the remote players and runs the projectile
    loop, which removes projectiles without routing any hit. *)
Theorem frame_without_player_is_silent (time : Z) (tk : Tick P)
  (s : Scene P) :
  player s = None →
  outbox (update time tk s) = outbox s
  ∧ hitPlayers (update time tk s) = hitPlayers s
  ∧ damagedPlayers (update time tk s) = damagedPlayers s
  ∧ otherPlayers (update time tk s) = tk_remoteUpdate tk <$> otherPlayers s
  ∧ player (update time tk s) = None.
Proof.
  intros Hp. rewrite (update_unfold_none time tk s Hp).
  set (s2 := set_otherPlayers _ s).
  destruct (projectilePass_no_player tk s2 Hp) as (-> & -> & -> & ->).
  repeat split.
  unfold projectilePass.
  apply (foldl_frame (λ a b : Scene P, player a = None → player b = None));
    [done | auto | |done].
  intros a [id pr] Ha. unfold projectileCheck. rewrite Ha.
  split_guards; done.
Qed.

(** *** The position throttle *)

Lemma pushPosition_count time s :
  (countSent isPosition (pushPosition time s)
   ≤ countSent isPosition s + 1)%nat
  ∧ (time - lastPositionUpdate s ≤ positionUpdateInterval →
     pushPosition time s = s)
  ∧ (serverInitialized s = true →
     time - lastPositionUpdate s > positionUpdateInterval →
     lastPositionUpdate (pushPosition time s) = time
     ∧ (is_Some (player s) → is_Some (server s) →
        countSent isPosition (pushPosition time s)
        = (countSent isPosition s + 1)%nat)).
Proof.
  unfold pushPosition. split; [|split].
  - destruct (_ && _); [|lia].
    unfold updatePlayerOnServer, remoteFunction, countSent.
    split_guards; cbn; rewrite ?filter_app, ?length_app; cbn;
      repeat case_decide; cbn; lia.
  - intros Hle. rewrite bool_decide_eq_false_2 by lia.
    by rewrite andb_false_r.
  - intros Hsi Hgt. rewrite Hsi, bool_decide_eq_true_2 by done. cbn.
    split; [done|]. intros [p Hp] [sv Hsv].
    unfold updatePlayerOnServer, remoteFunction, countSent.
    rewrite Hp, Hsv, Hsi. cbn. rewrite ?Hsv. cbn.
    rewrite filter_app, length_app. cbn.
    case_decide; [cbn; lia | done].
Qed.

Lemma after_push tk s :
  let s' := projectilePass tk
              (set_otherPlayers
                 (tk_remoteUpdate tk
                    <$> otherPlayers (checkHitbox tk (checkAttackKey tk s)))
                 (checkHitbox tk (checkAttackKey tk s))) in
  countSent isPosition s' = countSent isPosition s
  ∧ lastPositionUpdate s' = lastPositionUpdate s.
Proof.
  cbn zeta.
  destruct (update_tail tk (checkAttackKey tk s))
    as ((_ & _ & _ & _ & _ & _ & _ & Hl & _) & Hs).
  cbn zeta in Hl, Hs. rewrite Hl.
  rewrite (countSent_none isPosition (checkAttackKey tk s))
    by (by apply Hs).
  destruct (checkAttackKey_effect tk s) as (_ & Hsc).
  rewrite (countSent_none isPosition s) by (by apply Hsc).
  split; [done|].
  unfold checkAttackKey, handleSpacebarAttack, createAttackHitbox,
    remoteFunction.
  split_guards; reflexivity.
Qed.

(** X12. The position push of a frame is throttled: a frame sends at most
    one [updatePlayerPosition]; a frame no later than 50 ms after the last
    push sends none and leaves the push time alone; a frame later than
    that, with the session set up, moves the push time to the frame time
    (and sends one call when the server handle is there). *)
Theorem position_push_throttled (time : Z) (tk : Tick P) (s : Scene P) :
  is_Some (player s) →
  (countSent isPosition (update time tk s)
   ≤ countSent isPosition s + 1)%nat
  ∧ (time - lastPositionUpdate s ≤ positionUpdateInterval →
     countSent isPosition (update time tk s) = countSent isPosition s
     ∧ lastPositionUpdate (update time tk s) = lastPositionUpdate s)
  ∧ (serverInitialized s = true →
     time - lastPositionUpdate s > positionUpdateInterval →
     lastPositionUpdate (update time tk s) = time
     ∧ (is_Some (server s) →
        countSent isPosition (update time tk s)
        = (countSent isPosition s + 1)%nat)).
Proof.
  intros [p Hp]. rewrite (update_unfold time tk s p Hp).
  set (a := set_player (Some (tk_localUpdate tk p)) s).
  destruct (after_push tk (pushPosition time a)) as [Hc Hl].
  cbn zeta in Hc, Hl. rewrite Hc, Hl.
  destruct (pushPosition_count time a) as (H1 & H2 & H3).
  split; [exact H1|]. split.
  - intros Hle. by rewrite (H2 Hle).
  - intros Hsi Hgt. destruct (H3 Hsi Hgt) as [H4 H5].
    split; [exact H4|]. intros Hsv. apply H5; [cbn; eauto | exact Hsv].
Qed.

(** *** The attack cooldown *)

Lemma update_cooldown time tk s :
  attackCooldown s = true →
  attackCooldown (update time tk s) = true
  ∧ countSent isAttack (update time tk s) = countSent isAttack s.
Proof.
  intros Hcd. destruct (player s) as [p|] eqn:Hp.
  - rewrite (update_unfold time tk s p Hp).
    set (a := set_player (Some (tk_localUpdate tk p)) s).
    destruct (pushPosition_keys time a) as [_ Hcb].
    rewrite (checkAttackKey_idle tk (pushPosition time a))
      by (rewrite Hcb; cbn; intros (_ & _ & Hc); congruence).
    destruct (update_tail tk (pushPosition time a))
      as ((_ & _ & _ & _ & _ & Hc & _) & Hs).
    cbn zeta in Hc, Hs. rewrite Hc, Hcb.
    split; [exact Hcd|].
    rewrite (countSent_none isAttack (pushPosition time a)) by (by apply Hs).
    destruct (pushPosition_effect time a) as (_ & _ & Hsb).
    by rewrite (countSent_none isAttack a) by (by apply Hsb).
  - rewrite (update_unfold_none time tk s Hp).
    set (s2 := set_otherPlayers _ s).
    destruct (projectilePass_no_player tk s2 Hp) as (Ho & _).
    rewrite (countSent_same isAttack s2) by done.
    split; [|done].
    destruct (projectileFold_frame tk (map_to_list (projectiles s2)) s2)
      as (_ & _ & _ & _ & _ & Hc & _).
    unfold projectilePass. by rewrite Hc.
Qed.

Lemma step_cooldown s e :
  keepsCooldown e → attackCooldown s = true →
  attackCooldown (step s e) = true
  ∧ countSent isAttack (step s e) = countSent isAttack s.
Proof.
  intros Hk Hcd. destruct e; cbn [step keepsCooldown] in *.
  - split.
    + unfold setGameData, updatePlayerOnServer, remoteFunction.
      split_guards; exact Hcd.
    + apply countSent_none. by apply setGameData_effect.
  - split.
    + unfold create, updatePlayerOnServer, remoteFunction.
      cbn. split_guards; exact Hcd.
    + apply countSent_none. by apply create_effect.
  - by apply update_cooldown.
  - split; [|apply countSent_same, handleProjectileFired_quiet].
    unfold handleProjectileFired, createProjectile. split_guards; exact Hcd.
  - by split.
  - split; [|apply countSent_same, handlePowerupSpawned_quiet].
    unfold handlePowerupSpawned. split_guards; exact Hcd.
  - split; [|apply countSent_same, onRoomState_steady].
    unfold onRoomState, createObstaclesFromServer. split_guards; exact Hcd.
  - split; [|apply countSent_same, updateRoomState_steady].
    unfold updateRoomState, createObstaclesFromServer, syncPowerups.
    split_guards; exact Hcd.
  - split; [|apply countSent_same, updatePlayerStates_steady].
    destruct (updatePlayerStates_frame playerStates s)
      as (_ & _ & _ & _ & _ & -> & _). exact Hcd.
  - split; [|apply countSent_same, hitboxTimer_quiet].
    unfold hitboxTimer. split_guards; exact Hcd.
  - done.
Qed.

(** X13. The cooldown is the guard of the attack: spawning an attack raises
    it, and until the cooldown timer fires it stays raised and no further
    [playerAttack] is sent, however often the key goes down. *)
Theorem one_attack_per_cooldown (s : Scene P) (events : list (Event P)) :
  Forall keepsCooldown events →
  attackCooldown s = true →
  attackCooldown (run s events) = true
  ∧ countSent isAttack (run s events) = countSent isAttack s
  ∧ (∀ now s0, is_Some (player s0) → serverInitialized s0 = true →
       attackCooldown (handleSpacebarAttack now s0) = true).
Proof.
  intros Hall Hcd.
  assert (attackCooldown (run s events) = true
          ∧ countSent isAttack (run s events) = countSent isAttack s)
    as [H1 H2].
  { revert s Hcd. induction Hall as [|e events He _ IH]; intros s Hcd; [done|].
    cbn [run foldl]. destruct (step_cooldown s e He Hcd) as [Hc Hn].
    destruct (IH (step s e) Hc) as [Hc' Hn']. unfold run in *.
    split; [done | congruence]. }
  split; [exact H1|]. split; [exact H2|].
  intros now s0 [p Hp] Hsi. unfold handleSpacebarAttack, remoteFunction.
  rewrite Hp, Hsi. cbn. by split_guards.
Qed.

(** *** Who gets hit *)




(** *** The shape of the calls a frame sends *)

Lemma meleeFold_shape tk ks s Q :
  (∀ t, Q (PlayerHit t (myAccount s) "melee_attack" 10)) →
  (∀ a, Q (PlayerDied (myAccount s) a)) →
  sends Q s (foldl (meleeCheck tk) s ks).
Proof.
  revert s. induction ks as [|id ks IH]; intros s Hhit Hdied;
    [apply sends_refl|].
  cbn [foldl].
  destruct (meleeCheck_preserved tk s id) as ((Hme & _) & _).
  eapply sends_trans; [|apply IH; rewrite Hme; done].
  unfold meleeCheck.
  destruct (decide _); [apply sends_refl|].
  destruct (tk_hitboxOverlaps tk id); [|apply sends_refl].
  eapply sends_trans;
    [|apply handlePlayerHit_sends; [apply Hhit | apply Hdied]].
  by apply sends_same_outbox.
Qed.

Lemma update_shape time tk s :
  sends (hitShape (myAccount s)) s (update time tk s).
Proof.
  destruct (player s) as [p|] eqn:Hp.
  - rewrite (update_unfold time tk s p Hp).
    set (a := set_player (Some (tk_localUpdate tk p)) s).
    destruct (pushPosition_effect time a) as (Hpb & _ & Hsb).
    destruct (checkAttackKey_effect tk (pushPosition time a)) as (Hpc & Hsc).
    set (c := checkAttackKey tk (pushPosition time a)) in *.
    assert (myAccount c = myAccount s) as Hme.
    { rewrite (preserved_myAccount _ _ Hpc).
      by rewrite (preserved_myAccount _ _ Hpb). }
    eapply sends_trans; [by apply (sends_same_outbox _ s a)|].
    eapply sends_trans; [by apply Hsb|].
    eapply sends_trans; [by apply Hsc|].
    destruct (checkHitbox_effect tk c) as (Hpd & _ & _).
    apply (sends_trans _ c (checkHitbox tk c)).
    { unfold checkHitbox, meleePass. destruct (attackHitbox c);
        [|apply sends_refl].
      apply meleeFold_shape; rewrite Hme; cbn; [|done].
      intros t. split; [done|]. by left. }
    set (d := checkHitbox tk c) in *. set (s2 := set_otherPlayers _ d).
    apply (sends_trans _ d s2); [by apply sends_same_outbox|].
    unfold projectilePass.
    destruct (projectileFold tk (map_to_list (projectiles s2)) s2)
      as (_ & _ & Hs3).
    assert (myAccount s2 = myAccount s) as Hme2.
    { change (myAccount s2) with (myAccount d).
      by rewrite (preserved_myAccount _ _ Hpd). }
    apply Hs3; rewrite Hme2; cbn; [|done].
    intros att pid Hne. split; [done|]. by right.
  - rewrite (update_unfold_none time tk s Hp).
    set (s2 := set_otherPlayers _ s).
    destruct (projectilePass_no_player tk s2 Hp) as (Ho & _).
    by apply sends_same_outbox.
Qed.

(** X15. Every [playerHit] the scene ever sends carries damage 10 and is
    either a melee hit by the local player, tagged "melee_attack", or a
    projectile hit on the local player by somebody else. *)
Theorem hits_have_two_shapes (s : Scene P) (e : Event P) :
  sends (hitShape (myAccount s)) s (step s e).
Proof.
  destruct e; cbn [step].
  - by apply setGameData_effect.
  - by apply create_effect.
  - apply update_shape.
  - apply sends_same_outbox, handleProjectileFired_quiet.
  - by apply sends_same_outbox.
  - apply sends_same_outbox, handlePowerupSpawned_quiet.
  - apply sends_same_outbox, onRoomState_steady.
  - apply sends_same_outbox, updateRoomState_steady.
  - apply sends_same_outbox, updatePlayerStates_steady.
  - apply sends_same_outbox, hitboxTimer_quiet.
  - by apply sends_same_outbox.
Qed.

End FrameUpdate.


(** ** Projectile lifetime and the idle hitbox *)

Section Lifetimes.

Context {P : Type} {ops : PlayerOps P}.
Implicit Types (s : Scene P).

Lemma projectileCheck_keeps tk s id' pr' id :
  id' ≠ id
  ∨ (tk_overlapsPlayer tk id' = false ∧ tk_overlapsObstacles tk id' = false
     ∧ tk_dateNow tk id' - proj_creationTime pr' ≤ 2000) →
  projectiles (projectileCheck tk s (id', pr')) !! id = projectiles s !! id.
Proof.
  intros [Hne | (Hp & Ho & Hage)].
  - destruct (projectileCheck_projectiles tk s id' pr') as [[-> | ->] _];
      [done|].
    by rewrite lookup_delete_ne.
  - unfold projectileCheck. rewrite Hp, Ho.
    rewrite (decide_False (P := _ > 2000)) by lia.
    by split_guards.
Qed.

Lemma projectileFold_keeps tk entries s id pr :
  (∀ pr', (id, pr') ∈ entries → pr' = pr) →
  tk_overlapsPlayer tk id = false → tk_overlapsObstacles tk id = false →
  tk_dateNow tk id - proj_creationTime pr ≤ 2000 →
  projectiles (foldl (projectileCheck tk) s entries) !! id
  = projectiles s !! id.
Proof.
  intros Hent Hp Ho Hage. revert s.
  induction entries as [|[id' pr'] entries IH]; intros s; [done|].
  cbn [foldl]. rewrite IH.
  - apply projectileCheck_keeps.
    destruct (decide (id' = id)) as [->|]; [right|by left].
    rewrite (Hent pr') by set_solver. done.
  - intros pr'' Hin. apply Hent. set_solver.
Qed.

(** X16. A frame adds no projectile, and a stored projectile that overlaps
    neither the local player nor an obstacle and is at most 2000 ms old is
    still stored, unchanged, when the frame ends. *)
Theorem live_projectile_survives (time : Z) (tk : Tick P) (s : Scene P)
  (id : string) (pr : Projectile) :
  projectiles s !! id = Some pr →
  tk_overlapsPlayer tk id = false →
  tk_overlapsObstacles tk id = false →
  tk_dateNow tk id - proj_creationTime pr ≤ 2000 →
  projectiles (update time tk s) !! id = Some pr
  ∧ ∀ id' pr', projectiles (update time tk s) !! id' = Some pr' →
               projectiles s !! id' = Some pr'.
Proof.
  intros Hlive Hp Ho Hage. split; [|apply update_projectiles_sub].
  unfold update. pose proof (update_projectiles_before_pass time tk s) as H1.
  cbn zeta in H1.
  set (s1 := match player s with Some _ => _ | None => s end) in *.
  set (s2 := set_otherPlayers _ s1).
  assert (projectiles s2 = projectiles s) as H2 by exact H1.
  unfold projectilePass.
  rewrite (projectileFold_keeps tk _ s2 id pr); try done.
  - by rewrite H2.
  - intros pr' Hin. apply elem_of_map_to_list in Hin.
    rewrite H2, Hlive in Hin. congruence.
Qed.

Lemma handlePlayerHit_local a pid rnd s :
  otherPlayers (handlePlayerHit (myAccount s) a pid rnd s) = otherPlayers s
  ∧ damagedPlayers (handlePlayerHit (myAccount s) a pid rnd s)
    = damagedPlayers s.
Proof.
  unfold handlePlayerHit. rewrite decide_True by done.
  destruct (player s) as [p|]; [|done].
  set (s1 := set_player _ s).
  set (s2 := if decide _ then _ else s1).
  destruct (notifyPlayerHit_preserved (myAccount s) a pid s2)
    as (_ & _ & -> & _ & -> & _).
  unfold s2. case_decide; [|done].
  destruct (handlePlayerDeath_preserved (myAccount s) a rnd s1)
    as (_ & _ & -> & _ & ->). done.
Qed.

Lemma projectileCheck_remote tk s entry :
  otherPlayers (projectileCheck tk s entry) = otherPlayers s
  ∧ damagedPlayers (projectileCheck tk s entry) = damagedPlayers s.
Proof.
  destruct entry as [id pr]. unfold projectileCheck.
  destruct (handlePlayerHit_local (proj_ownerId pr) id (tk_respawn tk id) s)
    as [Ho Hd].
  split_guards; cbn; by rewrite ?Ho, ?Hd.
Qed.

Lemma projectileFold_remote tk entries s :
  otherPlayers (foldl (projectileCheck tk) s entries) = otherPlayers s
  ∧ damagedPlayers (foldl (projectileCheck tk) s entries) = damagedPlayers s.
Proof.
  revert s. induction entries as [|entry entries IH]; intros s; [done|].
  cbn [foldl]. destruct (IH (projectileCheck tk s entry)) as [-> ->].
  apply projectileCheck_remote.
Qed.

Lemma pushPosition_remote time s :
  otherPlayers (pushPosition time s) = otherPlayers s
  ∧ damagedPlayers (pushPosition time s) = damagedPlayers s
  ∧ attackHitbox (pushPosition time s) = attackHitbox s.
Proof.
  unfold pushPosition, updatePlayerOnServer, remoteFunction.
  by split_guards.
Qed.

(** X17. The projectile loop never touches a remote participant, and with
    no live hitbox and no attack spawned in the frame nobody is hit: the
    hit set and the overlay stay as they are, and the participants only
    receive their own per-frame update. *)
Theorem no_hitbox_no_remote_damage (time : Z) (tk : Tick P) (s : Scene P) :
  attackHitbox s = None →
  ¬ callsAttack s (Update time tk) →
  hitPlayers (update time tk s) = hitPlayers s
  ∧ damagedPlayers (update time tk s) = damagedPlayers s
  ∧ otherPlayers (update time tk s) = tk_remoteUpdate tk <$> otherPlayers s
  ∧ (∀ s0, otherPlayers (projectilePass tk s0) = otherPlayers s0
           ∧ damagedPlayers (projectilePass tk s0) = damagedPlayers s0).
Proof.
  intros Hbox Hno.
  assert (∀ s0, otherPlayers (projectilePass tk s0) = otherPlayers s0
                ∧ damagedPlayers (projectilePass tk s0) = damagedPlayers s0)
    as Hpass by (intros s0; apply projectileFold_remote).
  split; [|split; [|split]]; [| | |exact Hpass].
  all: destruct (player s) as [p|] eqn:Hpl.
  all: try (rewrite (update_unfold_none time tk s Hpl);
            set (s2 := set_otherPlayers _ s);
            destruct (Hpass s2) as [Ho Hd];
            destruct (projectileFold tk (map_to_list (projectiles s2)) s2)
              as (_ & Hh & _);
            first [exact Hh | exact Hd | exact Ho]).
  all: rewrite (update_unfold time tk s p Hpl).
  all: set (a := set_player (Some (tk_localUpdate tk p)) s).
  all: destruct (pushPosition_remote time a) as (Hpo & Hpd & Hpb).
  all: destruct (pushPosition_keys time a) as (Hk1 & Hk2).
  all: destruct (pushPosition_effect time a) as (_ & Hph & _).
  all: rewrite (checkAttackKey_idle tk (pushPosition time a))
         by (rewrite Hk1, Hk2; intros (H1 & H2 & H3); apply Hno; cbn;
             by rewrite Hpl).
  all: assert (checkHitbox tk (pushPosition time a) = pushPosition time a)
         as -> by (unfold checkHitbox; rewrite Hpb;
                  change (attackHitbox a) with (attackHitbox s);
                  by rewrite Hbox).
  all: set (s2 := set_otherPlayers _ (pushPosition time a)).
  all: destruct (Hpass s2) as [Ho Hd].
  all: destruct (projectileFold tk (map_to_list (projectiles s2)) s2)
         as (_ & Hh & _).
  - unfold projectilePass. rewrite Hh. exact Hph.
  - rewrite Hd. exact Hpd.
  - rewrite Ho. cbn. by rewrite Hpo.
Qed.

End Lifetimes.

(** ** Snapshots that change no membership *)

Section StableSnapshots.

Context {P : Type} {ops : PlayerOps P}.
Implicit Types (s : Scene P).

Lemma applyPlayerState_known s e :
  (ps_account e ≠ myAccount s → hasPosition e →
   ps_account e ∈ registryIds s) →
  usedColorIndices (applyPlayerState s e) = usedColorIndices s
  ∧ colliders (applyPlayerState s e) = colliders s
  ∧ registryIds (applyPlayerState s e) = registryIds s.
Proof.
  intros Hknown. split; [|split].
  3: { rewrite applyPlayerState_registry. case_decide as Hc; [|set_solver].
       destruct Hc as [Hne Hpos]. specialize (Hknown Hne Hpos). set_solver. }
  all: unfold applyPlayerState; case_decide as Hme; [done|].
  all: destruct (ps_x e) as [x|] eqn:Hx; [|done].
  all: destruct (ps_y e) as [y|] eqn:Hy; [|done].
  all: destruct (otherPlayers s !! ps_account e) eqn:Hl; [done|].
  all: exfalso; apply not_elem_of_dom in Hl; apply Hl, Hknown; [done|].
  all: unfold hasPosition; by rewrite Hx, Hy.
Qed.

Lemma positionedIds_cons e l :
  positionedIds (e :: l)
  = (if decide (hasPosition e) then {[ps_account e]} else ∅)
    ∪ positionedIds l.
Proof.
  unfold positionedIds. rewrite filter_cons.
  case_decide; cbn; set_solver.
Qed.

Lemma applyAll_known l s :
  positionedIds l ∖ {[myAccount s]} ⊆ registryIds s →
  usedColorIndices (foldl applyPlayerState s l) = usedColorIndices s
  ∧ colliders (foldl applyPlayerState s l) = colliders s.
Proof.
  revert s. induction l as [|e l IH]; intros s Hsub; [done|].
  cbn [foldl]. rewrite positionedIds_cons in Hsub.
  destruct (applyPlayerState_known s e) as (Hu & Hc & Hr).
  { intros Hne Hpos. apply Hsub. rewrite decide_True by done. set_solver. }
  destruct (applyPlayerState_fields s e) as (Hme & _).
  destruct (IH (applyPlayerState s e)) as [-> ->]; [|done].
  rewrite Hme, Hr. set_solver.
Qed.

Lemma applyPlayerState_colors_grow s e :
  usedColorIndices s ⊆ usedColorIndices (applyPlayerState s e).
Proof.
  unfold applyPlayerState. case_decide; [done|].
  destruct (ps_x e); [|done]. destruct (ps_y e); [|done].
  destruct (otherPlayers s !! ps_account e); [done|].
  destruct (getUniqueColorIndex_used (ps_account e) s) as [_ Hused].
  destruct (getUniqueColorIndex (ps_account e) s) as [i s1].
  cbn [fst snd] in Hused.
  assert (usedColorIndices s ⊆ usedColorIndices s1) as Hsub
    by (destruct Hused as [-> | ->]; set_solver).
  by split_guards.
Qed.

Lemma applyAll_colors_grow l s :
  usedColorIndices s ⊆ usedColorIndices (foldl applyPlayerState s l).
Proof.
  revert s. induction l as [|e l IH]; intros s; [done|].
  cbn [foldl]. etrans; [apply (applyPlayerState_colors_grow s e)|apply IH].
Qed.

Lemma removeDeparted_none cur ks s :
  (∀ k, k ∈ ks → k ∈ cur) → foldl (removeIfDeparted cur) s ks = s.
Proof.
  revert s. induction ks as [|k ks IH]; intros s Hin; [done|].
  cbn [foldl]. unfold removeIfDeparted at 2.
  rewrite decide_True by (apply Hin; set_solver).
  apply IH. intros k' Hk'. apply Hin. set_solver.
Qed.

Lemma snapshot_keeps_everybody l s :
  registryIds s ⊆ snapshotIds l →
  updatePlayerStates (Some l) s = foldl applyPlayerState s l.
Proof.
  intros Hsub. unfold updatePlayerStates. apply removeDeparted_none.
  intros k Hk. apply elem_of_keys, elem_of_dom in Hk.
  change (k ∈ registryIds (foldl applyPlayerState s l)) in Hk.
  rewrite applyAll_registry in Hk.
  pose proof (positionedIds_subseteq l) as Hpos.
  change (currentPlayerIds l) with (snapshotIds l). set_solver.
Qed.

(** X18. A snapshot that lists every registered participant removes
    nobody: it is the first loop alone, the overlay is untouched, and no
    colour index and no participant is lost. *)
Theorem snapshot_without_departure (l : list PlayerState) (s : Scene P) :
  registryIds s ⊆ snapshotIds l →
  updatePlayerStates (Some l) s = foldl applyPlayerState s l
  ∧ damagedPlayers (updatePlayerStates (Some l) s) = damagedPlayers s
  ∧ usedColorIndices s ⊆ usedColorIndices (updatePlayerStates (Some l) s)
  ∧ registryIds s ⊆ registryIds (updatePlayerStates (Some l) s).
Proof.
  intros Hsub. rewrite (snapshot_keeps_everybody l s Hsub).
  split; [done|split; [|split]].
  - by destruct (applyAll_fields l s) as (_ & -> & _).
  - apply applyAll_colors_grow.
  - rewrite applyAll_registry. set_solver.
Qed.

(** X19. Processing the same snapshot a second time changes no membership:
    nobody is created or removed, no colour index is taken or released, no
    collider is added, and the overlay stays as it is. *)
Theorem repeated_snapshot_is_stable (l : list PlayerState) (s : Scene P) :
  let s1 := updatePlayerStates (Some l) s in
  let s2 := updatePlayerStates (Some l) s1 in
  registryIds s2 = registryIds s1
  ∧ usedColorIndices s2 = usedColorIndices s1
  ∧ damagedPlayers s2 = damagedPlayers s1
  ∧ colliders s2 = colliders s1.
Proof.
  intros s1 s2.
  pose proof (updatePlayerStates_registry l s) as Hreg. fold s1 in Hreg.
  destruct (updatePlayerStates_steady (Some l) s) as (Hme & _). fold s1 in Hme.
  pose proof (positionedIds_subseteq l) as Hpos.
  assert (registryIds s1 ⊆ snapshotIds l) as Hall by set_solver.
  assert (positionedIds l ∖ {[myAccount s1]} ⊆ registryIds s1) as Hknown
    by (rewrite Hme; set_solver).
  unfold s2. rewrite (snapshot_keeps_everybody l s1 Hall).
  destruct (applyAll_known l s1 Hknown) as [-> ->].
  destruct (applyAll_fields l s1) as (_ & -> & _).
  rewrite applyAll_registry. repeat split. set_solver.
Qed.

End StableSnapshots.

(** ** Room state: powerups and the two bootstrap paths *)

Section RoomStates.

Context {P : Type} {ops : PlayerOps P}.
Implicit Types (s : Scene P).

Lemma step_powerupsDormant s e : powerupsDormant s → powerupsDormant (step s e).
Proof.
  intros Hinv. destruct e; cbn [step].
  - unfold setGameData, updatePlayerOnServer, remoteFunction.
    split_guards; exact Hinv.
  - unfold create, updatePlayerOnServer, remoteFunction, powerupsDormant.
    cbn. split_guards; cbn; intros; done.
  - unfold powerupsDormant.
    destruct (update_frame time tk s) as (_ & _ & -> & _ & -> & _).
    exact Hinv.
  - unfold handleProjectileFired, createProjectile. split_guards; exact Hinv.
  - exact Hinv.
  - unfold handlePowerupSpawned.
    split_guards; try exact Hinv.
    unfold powerupsDormant. cbn. intros Ha. specialize (Hinv Ha). congruence.
  - unfold onRoomState, createObstaclesFromServer.
    split_guards; exact Hinv.
  - unfold updateRoomState, createObstaclesFromServer, syncPowerups.
    split_guards; try exact Hinv;
      (unfold powerupsDormant; cbn; intros Ha; cbn in *;
       rewrite ?Ha in *; cbn in *; congruence).
  - unfold powerupsDormant.
    destruct (updatePlayerStates_frame playerStates s)
      as (_ & -> & _ & -> & _).
    exact Hinv.
  - unfold hitboxTimer. split_guards; exact Hinv.
  - exact Hinv.
Qed.

Lemma run_powerupsDormant s events :
  powerupsDormant s → powerupsDormant (run s events).
Proof.
  revert s. induction events as [|e events IH]; intros s Hinv; [done|].
  cbn [run foldl]. apply IH. by apply step_powerupsDormant.
Qed.

(** X20. In every scene reached from the constructed one: before the assets
    are loaded there is no powerup group, and a powerup list or a spawn
    notification is dropped; afterwards a powerup list replaces the whole
    group by its well-formed entries, in order, while a spawn notification
    appends its entry unchecked. *)
Theorem powerups_follow_last_sync (events : list (Event P))
  (l : list PowerupDatum) :
  let s := run initialScene events in
  (assetsLoaded s = false →
   powerups s = None ∧ syncPowerups l s = s
   ∧ ∀ d active, handlePowerupSpawned d active s = s)
  ∧ (assetsLoaded s = true →
     powerups (syncPowerups l s) = Some (filter wellFormedPowerup l)
     ∧ ∀ d, ∃ g, powerups s = Some g
                 ∧ powerups (handlePowerupSpawned d true s)
                   = Some (g ++ [d])).
Proof.
  intros s.
  assert (powerupsDormant s) as Hdormant
    by (apply run_powerupsDormant; intros _; reflexivity).
  assert (sceneStarted s) as Hstarted
    by (apply run_sceneStarted; intros Hf; discriminate Hf).
  split.
  - intros Ha. specialize (Hdormant Ha). split; [done|]. split.
    + unfold syncPowerups. by rewrite Hdormant.
    + intros d active. unfold handlePowerupSpawned. rewrite Ha.
      by destruct active.
  - intros Ha. destruct (Hstarted Ha) as (_ & [g Hg] & _). split.
    + unfold syncPowerups. rewrite Hg, Ha. reflexivity.
    + intros d. exists g. split; [done|].
      unfold handlePowerupSpawned. rewrite Hg, Ha. reflexivity.
Qed.

Lemma syncPowerups_bootstrap l obs s :
  createObstaclesFromServer obs (syncPowerups l s)
  = syncPowerups l (createObstaclesFromServer obs s).
Proof.
  unfold createObstaclesFromServer, syncPowerups, createBorderObstacles.
  destruct s as [pl ? ? pw ? ? ? ? ? ? ? ? ? ? al oc ? ? ? ? ?].
  destruct pw, al, oc, pl; reflexivity.
Qed.

(** X21. [updateRoomState] is the subscription callback followed by the
    powerup sync: the two commute, so both paths build the same obstacles
    and colliders and reach the same bootstrap flag. *)
Theorem room_state_paths_agree (roomState : RoomState) (s : Scene P) :
  updateRoomState roomState s
  = match rs_powerups roomState with
    | Some l => syncPowerups l (onRoomState (Some roomState) s)
    | None => onRoomState (Some roomState) s
    end
  ∧ obstacles (updateRoomState roomState s)
    = obstacles (onRoomState (Some roomState) s)
  ∧ colliders (updateRoomState roomState s)
    = colliders (onRoomState (Some roomState) s)
  ∧ obstaclesCreated (updateRoomState roomState s)
    = obstaclesCreated (onRoomState (Some roomState) s).
Proof.
  assert (∀ l s0, obstacles (syncPowerups l s0) = obstacles s0
                  ∧ colliders (syncPowerups l s0) = colliders s0
                  ∧ obstaclesCreated (syncPowerups l s0)
                    = obstaclesCreated s0) as Hsync.
  { intros l s0. unfold syncPowerups. by split_guards. }
  assert (updateRoomState roomState s
          = match rs_powerups roomState with
            | Some l => syncPowerups l (onRoomState (Some roomState) s)
            | None => onRoomState (Some roomState) s
            end) as Heq.
  { unfold updateRoomState, onRoomState.
    destruct (rs_powerups roomState) as [l|]; [|done].
    destruct (rs_obstacles roomState) as [obs|]; [|done].
    destruct (Hsync l s) as (_ & _ & ->).
    destruct (obstaclesCreated s); cbn [negb]; [done|].
    apply syncPowerups_bootstrap. }
  split; [exact Heq|]. rewrite Heq.
  destruct (rs_powerups roomState) as [l|]; [|done].
  destruct (Hsync l (onRoomState (Some roomState) s)) as (-> & -> & ->).
  done.
Qed.

End RoomStates.

(** ** What a melee hit leaves behind *)

Section MeleeRecords.

Context {P : Type} {ops : PlayerOps P}.
Implicit Types (s : Scene P).






End MeleeRecords.

(** ** Projectiles that hit something *)

Section ProjectileHits.

Context {P : Type} {ops : PlayerOps P}.
Implicit Types (s : Scene P).






End ProjectileHits.

(** ** Further scenarios *)

Lemma lowest_free_color_first_witness :
  1 ≤ 2 ≤ 8
  ∧ (2 ∉ usedColorIndices withP1)
  ∧ ((getUniqueColorIndex "p2" withP1).1 ∉ usedColorIndices withP1)
  ∧ (getUniqueColorIndex "p2" withP1).1 ≤ 2
  ∧ usedColorIndices (getUniqueColorIndex "p2" withP1).2
    = {[(getUniqueColorIndex "p2" withP1).1]} ∪ usedColorIndices withP1.
Proof.
  assert (1 ≤ 2 ≤ 8) as Hj by lia.
  assert (2 ∉ usedColorIndices withP1) as Hfree.
  { apply (bool_decide_unpack _). vm_compute. exact I. }
  split; [exact Hj|]. split; [exact Hfree|].
  destruct (lowest_free_color_first "p2" withP1) as [Hscan _].
  apply (Hscan 2 Hj Hfree).
Defined.

Lemma colors_stay_in_range_witness :
  let events : list (Event SpecPlayer) :=
    [UpdatePlayerStates
       (Some [entry "p1" (Some 300) (Some 400) None;
              entry "p2" (Some 10) (Some 20) None]);
     UpdatePlayerStates (Some [entry "p2" (Some 10) (Some 20) None])] in
  colorsInRange withP1 ∧ colorsInRange (run withP1 events).
Proof.
  intros events.
  assert (colorsInRange withP1) as Hinv.
  { intros i Hi.
    assert (usedColorIndices withP1 = {[1]}) as E by (vm_compute; reflexivity).
    rewrite E in Hi. apply elem_of_singleton in Hi. lia. }
  split; [exact Hinv|].
  apply (colors_stay_in_range withP1 events Hinv).
Defined.

Lemma overlay_only_for_registered_witness :
  let events : list (Event SpecPlayer) :=
    [Update 1016 (p1Tick false 1016); UpdatePlayerStates (Some [])] in
  overlayRegistered attacked ∧ overlayRegistered (run attacked events).
Proof.
  intros events.
  assert (overlayRegistered attacked) as Hinv.
  { unfold overlayRegistered. apply (bool_decide_unpack _).
    vm_compute. exact I. }
  split; [exact Hinv|].
  apply (overlay_only_for_registered attacked events Hinv).
Defined.

Lemma own_projectiles_never_stored_witness :
  let own := {| pj_x := 0; pj_y := 0; pj_targetX := 10; pj_targetY := 10;
                pj_id := "b2"; pj_ownerId := "me" |} in
  let events : list (Event SpecPlayer) :=
    [ProjectileFired shot true true 0; ProjectileFired own true true 5;
     Update 16 (quietTick 16)] in
  Forall keepsAccount events
  ∧ foreignProjectiles joined
  ∧ foreignProjectiles (run joined events).
Proof.
  intros own events.
  assert (Forall keepsAccount events) as Hev by (repeat constructor).
  assert (foreignProjectiles joined) as Hinv.
  { intros id pr Hin.
    assert (projectiles joined = ∅) as E by reflexivity.
    rewrite E, lookup_empty in Hin. discriminate Hin. }
  split; [exact Hev|]. split; [exact Hinv|].
  apply (own_projectiles_never_stored joined events Hev Hinv).
Defined.


Lemma everybody_collides_after_bootstrap_witness :
  let s := onRoomState (Some firstRoomState) withP1 in
  let events : list (Event SpecPlayer) :=
    [UpdatePlayerStates
       (Some [entry "p1" (Some 300) (Some 400) None;
              entry "p2" (Some 10) (Some 20) None]);
     Update 16 (quietTick 16); UpdateRoomState laterRoomState] in
  Forall keepsGeometry events
  ∧ collidersCover s
  ∧ collidersCover (run s events).
Proof.
  intros s events.
  assert (Forall keepsGeometry events) as Hev by (repeat constructor).
  assert (collidersCover s) as Hinv.
  { intros _.
    assert (colliders s = [LocalBody; RemoteBody "p1"]) as Ec
      by (vm_compute; reflexivity).
    assert (registryIds s = {["p1"]}) as Er by (vm_compute; reflexivity).
    rewrite Ec, Er. split; [apply elem_of_cons; by left|].
    intros id Hid. apply elem_of_singleton in Hid. subst id.
    apply elem_of_cons. right. apply elem_of_cons. by left. }
  split; [exact Hev|]. split; [exact Hinv|].
  apply (everybody_collides_after_bootstrap s events Hev Hinv).
Defined.

Lemma nothing_sent_before_session_witness :
  let events : list (Event SpecPlayer) :=
    [Create 500 500;
     UpdatePlayerStates (Some [entry "p1" (Some 300) (Some 400) None]);
     Update 1000 (p1Tick true 1000)] in
  let s : Scene SpecPlayer := initialScene in
  serverInitialized (run s events) = false
  ∧ outbox (run s events) = outbox s.
Proof.
  intros events s.
  assert (serverInitialized (run s events) = false) as Hsi by reflexivity.
  split; [exact Hsi|].
  apply (nothing_sent_before_session s events Hsi).
Defined.

Lemma session_set_up_for_good_witness :
  let events : list (Event SpecPlayer) :=
    [SetGameData
       {| gd_playerName := "Me"; gd_roomId := "arena";
          gd_server := Some {| sv_account := Some "me" |} |} false;
     SetGameData
       {| gd_playerName := "Me"; gd_roomId := "arena";
          gd_server := None |} false] in
  serverInitialized joined = true
  ∧ serverInitialized (run joined events) = true
  ∧ serverInitialized (run initialScene events) = true
  ∧ myAccount (run initialScene events) ≠ "".
Proof.
  intros events.
  assert (serverInitialized joined = true) as H1 by reflexivity.
  assert (serverInitialized (run initialScene events) = true) as H2
    by reflexivity.
  destruct (session_set_up_for_good events) as [Hkeep Hknown].
  split; [exact H1|]. split; [exact (Hkeep joined H1)|].
  split; [exact H2|]. exact (Hknown H2).
Defined.

Lemma frame_without_player_is_silent_witness :
  let s : Scene SpecPlayer :=
    handleProjectileFired shot true true 0
      (updatePlayerStates (Some [entry "p1" (Some 300) (Some 400) None])
         initialScene) in
  let tk := p1Tick true 2500 in
  player s = None
  ∧ outbox (update 16 tk s) = outbox s
  ∧ hitPlayers (update 16 tk s) = hitPlayers s
  ∧ damagedPlayers (update 16 tk s) = damagedPlayers s
  ∧ otherPlayers (update 16 tk s) = tk_remoteUpdate tk <$> otherPlayers s
  ∧ player (update 16 tk s) = None.
Proof.
  intros s tk.
  assert (player s = None) as Hp by reflexivity.
  split; [exact Hp|].
  apply (frame_without_player_is_silent 16 tk s Hp).
Defined.

Lemma position_push_throttled_witness :
  let tk := quietTick 40 in
  is_Some (player joined)
  ∧ 40 - lastPositionUpdate joined ≤ positionUpdateInterval
  ∧ countSent isPosition (update 40 tk joined) = countSent isPosition joined
  ∧ lastPositionUpdate (update 40 tk joined) = lastPositionUpdate joined.
Proof.
  intros tk.
  assert (is_Some (player joined)) as Hp by (vm_compute; eauto).
  assert (40 - lastPositionUpdate joined ≤ positionUpdateInterval) as Hearly
    by (vm_compute; discriminate).
  split; [exact Hp|]. split; [exact Hearly|].
  destruct (position_push_throttled 40 tk joined Hp) as (_ & Hskip & _).
  apply (Hskip Hearly).
Defined.

Lemma one_attack_per_cooldown_witness :
  let events : list (Event SpecPlayer) :=
    [Update 1016 (p1Tick true 1016); HitboxTimer;
     Update 1400 (p1Tick true 1400)] in
  Forall keepsCooldown events
  ∧ attackCooldown attacked = true
  ∧ attackCooldown (run attacked events) = true
  ∧ countSent isAttack (run attacked events) = countSent isAttack attacked
  ∧ (∀ now (s0 : Scene SpecPlayer),
       is_Some (player s0) → serverInitialized s0 = true →
       attackCooldown (handleSpacebarAttack now s0) = true).
Proof.
  intros events.
  assert (Forall keepsCooldown events) as Hev by (repeat constructor).
  assert (attackCooldown attacked = true) as Hcd by reflexivity.
  split; [exact Hev|]. split; [exact Hcd|].
  apply (one_attack_per_cooldown attacked events Hev Hcd).
Defined.


Lemma live_projectile_survives_witness :
  let s0 := handleProjectileFired shot true true 0 joined in
  let pr := {| proj_id := "b1"; proj_ownerId := "p1";
               proj_creationTime := 0 |} in
  let tk := quietTick 2000 in
  projectiles s0 !! "b1" = Some pr
  ∧ tk_overlapsPlayer tk "b1" = false
  ∧ tk_overlapsObstacles tk "b1" = false
  ∧ tk_dateNow tk "b1" - proj_creationTime pr ≤ 2000
  ∧ projectiles (update 2000 tk s0) !! "b1" = Some pr
  ∧ ∀ id' pr', projectiles (update 2000 tk s0) !! id' = Some pr' →
               projectiles s0 !! id' = Some pr'.
Proof.
  intros s0 pr tk.
  assert (projectiles s0 !! "b1" = Some pr) as Hlive
    by (vm_compute; reflexivity).
  assert (tk_overlapsPlayer tk "b1" = false) as Hp by reflexivity.
  assert (tk_overlapsObstacles tk "b1" = false) as Ho by reflexivity.
  assert (tk_dateNow tk "b1" - proj_creationTime pr ≤ 2000) as Hage
    by (simpl; lia).
  split; [exact Hlive|]. split; [exact Hp|]. split; [exact Ho|].
  split; [exact Hage|].
  apply (live_projectile_survives 2000 tk s0 "b1" pr Hlive Hp Ho Hage).
Defined.

Lemma no_hitbox_no_remote_damage_witness :
  let tk := p1Tick false 16 in
  attackHitbox withP1 = None
  ∧ ¬ callsAttack withP1 (Update 16 tk)
  ∧ hitPlayers (update 16 tk withP1) = hitPlayers withP1
  ∧ damagedPlayers (update 16 tk withP1) = damagedPlayers withP1
  ∧ otherPlayers (update 16 tk withP1)
    = tk_remoteUpdate tk <$> otherPlayers withP1
  ∧ (∀ s0 : Scene SpecPlayer,
       otherPlayers (projectilePass tk s0) = otherPlayers s0
       ∧ damagedPlayers (projectilePass tk s0) = damagedPlayers s0).
Proof.
  intros tk.
  assert (attackHitbox withP1 = None) as Hbox by reflexivity.
  assert (¬ callsAttack withP1 (Update 16 tk)) as Hno
    by (intros (_ & _ & Hdown & _); discriminate Hdown).
  split; [exact Hbox|]. split; [exact Hno|].
  apply (no_hitbox_no_remote_damage 16 tk withP1 Hbox Hno).
Defined.

Lemma snapshot_without_departure_witness :
  let l := [entry "p1" (Some 310) (Some 400) None;
            entry "p2" (Some 10) (Some 20) None] in
  registryIds withP1 ⊆ snapshotIds l
  ∧ updatePlayerStates (Some l) withP1 = foldl applyPlayerState withP1 l
  ∧ damagedPlayers (updatePlayerStates (Some l) withP1)
    = damagedPlayers withP1
  ∧ usedColorIndices withP1
    ⊆ usedColorIndices (updatePlayerStates (Some l) withP1)
  ∧ registryIds withP1 ⊆ registryIds (updatePlayerStates (Some l) withP1).
Proof.
  intros l.
  assert (registryIds withP1 ⊆ snapshotIds l) as Hsub.
  { apply (bool_decide_unpack _). vm_compute. exact I. }
  split; [exact Hsub|].
  apply (snapshot_without_departure l withP1 Hsub).
Defined.

Lemma powerups_follow_last_sync_witness :
  let events : list (Event SpecPlayer) :=
    [SetGameData
       {| gd_playerName := "Me"; gd_roomId := "arena";
          gd_server := Some {| sv_account := Some "me" |} |} false;
     Create 500 500;
     PowerupSpawned
       {| pd_id := None; pd_type := Some "health"; pd_x := 1; pd_y := 2 |}
       true] in
  let l := [ {| pd_id := Some "u1"; pd_type := Some "speed";
                pd_x := 5; pd_y := 6 |};
             {| pd_id := Some ""; pd_type := Some "health";
                pd_x := 7; pd_y := 8 |} ] in
  let s := run initialScene events in
  assetsLoaded s = true
  ∧ powerups (syncPowerups l s) = Some (filter wellFormedPowerup l)
  ∧ ∀ d, ∃ g, powerups s = Some g
              ∧ powerups (handlePowerupSpawned d true s) = Some (g ++ [d]).
Proof.
  intros events l s.
  assert (assetsLoaded s = true) as Ha by reflexivity.
  split; [exact Ha|].
  destruct (powerups_follow_last_sync events l) as [_ Hready].
  apply (Hready Ha).
Defined.


